(** * EVM-tx-fetcher: a shallow embedding of [detailed_tx_fetcher.py]

    The development models [TransactionAnalyzer] and
    [DetailedTransactionFetcher] of [src/detailed_tx_fetcher.py] together
    with the tables of [src/constants.py], and proves properties of the
    caches, the log decoder, the classifier and the block scanner.

    Conventions of the embedding.
    - Python [str] values are [string]s of ASCII characters; [str.lower]
      is ASCII lower-casing.
    - A Python exception is a value of [exn]; a call that may raise returns
      a [result].  Code that mutates the analyzer's dictionaries or talks
      to the network runs in the state monad [M] over [State].
    - Everything the program does to the outside world ([time.sleep], an
      RPC or explorer request, a [print]) is appended, in program order,
      to the [trace] of the state.  The answer of the network to a request
      may depend on everything that happened before it, so the upstream is
      a function of the trace so far.
    - [time.sleep] arguments are kept in milliseconds ([0.2] s is [200]);
      doubling a binary float is exact, so the arithmetic on the delay is
      the one of the source.
    - Floating-point results ([value / 10 ** decimals], [from_wei]) are
      kept symbolically, as the integers they are computed from. *)

From stdpp Require Import gmap strings list fin_maps.
From Stdlib Require Import ZArith Ascii String Lia Sorted.

Local Open Scope string_scope.
Local Open Scope list_scope.
Local Open Scope Z_scope.

(** ** Strings *)

Module Str.

(** [c.lower()] for one ASCII character. *)
Definition ascii_lower (c : ascii) : ascii :=
  let n := N_of_ascii c in
  if ((65 <=? n) && (n <=? 90))%N then ascii_of_N (n + 32) else c.

(** [s.lower()] *)
Fixpoint lower (s : string) : string :=
  match s with
  | EmptyString => EmptyString
  | String c s' => String (ascii_lower c) (lower s')
  end.

(** [p in s] for two strings. *)
Fixpoint contains (p s : string) : bool :=
  String.prefix p s ||
  match s with
  | EmptyString => false
  | String _ s' => contains p s'
  end.

(** [s[-n:]]: the last [n] characters, the whole string when it is
    shorter. *)
Definition last_chars (n : nat) (s : string) : string :=
  let k := (String.length s - n)%nat in
  String.substring k (String.length s - k) s.

(** Truthiness of an optional string: [None] and [''] are falsy. *)
Definition truthy (o : option string) : bool :=
  match o with
  | Some s => negb (String.eqb s "")
  | None => false
  end.

(** [o if o else ''] *)
Definition or_empty (o : option string) : string :=
  match o with
  | Some s => s
  | None => ""
  end.

Definition hex_digit (c : ascii) : option Z :=
  let n := Z.of_N (N_of_ascii c) in
  if (48 <=? n) && (n <=? 57) then Some (n - 48)
  else if (97 <=? n) && (n <=? 102) then Some (n - 87)
  else if (65 <=? n) && (n <=? 70) then Some (n - 55)
  else None.

Fixpoint hex_digits (acc : Z) (s : string) : option Z :=
  match s with
  | EmptyString => Some acc
  | String c s' =>
      match hex_digit c with
      | Some d => hex_digits (16 * acc + d) s'
      | None => None
      end
  end.

(** [int(s, 16)] on the strings a node returns for [log['data']]: an
    optional [0x]/[0X] prefix followed by at least one hexadecimal
    digit.  [None] stands for [ValueError].  (Python also accepts
    surrounding white space, a sign and single underscores between the
    digits, which a node does not produce.) *)
Definition int16 (s : string) : option Z :=
  let body :=
    match s with
    | String "0" (String "x" r) => r
    | String "0" (String "X" r) => r
    | _ => s
    end in
  match body with
  | EmptyString => None
  | _ => hex_digits 0 body
  end.

End Str.

(** ** Exceptions and results *)

Inductive exn : Type :=
  | KeyError (key : string)            (* d[key] on a missing key *)
  | IndexError                         (* l[0] on an empty list *)
  | ValueError (msg : string)          (* int(s, 16) on a bad literal *)
  | OverflowError (msg : string)       (* int / int beyond the floats *)
  | UpstreamError (msg : string).      (* raised by web3 / requests *)

(** [str(e)] *)
Definition str_exn (e : exn) : string :=
  match e with
  | KeyError k => "'" +:+ k +:+ "'"
  | IndexError => "list index out of range"
  | ValueError m => m
  | OverflowError m => m
  | UpstreamError m => m
  end.

Inductive result (A : Type) : Type :=
  | Ok (a : A)
  | Raise (e : exn).
Arguments Ok {A} a.
Arguments Raise {A} e.

(** ** Tables of [constants.py] *)

(** [CONTRACT_TYPES], in insertion order. *)
Definition CONTRACT_TYPES : list (string * list string) :=
  [ ("DEX", ["Uniswap"; "Sushiswap"; "PancakeSwap"]);
    ("Lending", ["Aave"; "Compound"; "MakerDAO"]);
    ("Staking", ["Lido"; "Rocket Pool"]);
    ("NFT_Marketplace", ["OpenSea"; "LooksRare"]);
    ("Bridge", ["Polygon Bridge"; "Arbitrum Bridge"]);
    ("Yield", ["Yearn"; "Curve"]) ].

(** [CEX_ADDRESSES]: per chain, the known exchange addresses. *)
Definition CEX_ADDRESSES : list (string * list (string * string)) :=
  [ ("ethereum",
      [ ("0x28C6c06298d514Db089934071355E5743bf21d60", "Binance");
        ("0x8958618332Df62AF93053Bb9C96D4C73d6c4M1a", "Coinbase");
        ("0xdAC17F958D2ee523a2206206994597C13D831ec7", "Tether Treasury");
        ("0x2FAF487A4414Fe77e2327F0bf4AE2a264a776AD2", "FTX") ]) ].

(** The topic of the ERC-20/721 [Transfer] event. *)
Definition TRANSFER_TOPIC : string :=
  "0xddf252ad1be2c89b69c2b068fc378daa952ba7f163c4a11628f55a4df523b3ef".

(** [d[k]] and [k in d] on a dictionary kept as an association list with
    distinct keys. *)
Fixpoint assoc {V : Type} (k : string) (d : list (string * V)) : option V :=
  match d with
  | [] => None
  | (k', v) :: d' => if String.eqb k k' then Some v else assoc k d'
  end.

Definition has_key {V : Type} (k : string) (d : list (string * V)) : bool :=
  existsb (fun kv => String.eqb k (fst kv)) d.

(** [x in l] for a list of strings. *)
Definition str_in (x : string) (l : list string) : bool :=
  existsb (String.eqb x) l.

(** ** Data model *)

(** One entry of [receipt['logs']]; a topic is kept as its [.hex()], and
    [log_data] is the string handed to [int(_, 16)]. *)
Record Log : Type := {
  log_address : string;
  log_topics : list string;
  log_data : string
}.

Record Receipt : Type := {
  rc_to : option string;
  rc_gasUsed : Z;
  rc_status : Z;
  rc_logs : list Log
}.

(** A transaction of a block; the hash is kept as its [.hex()].  The
    value and the gas price are the unsigned 256-bit integers of the
    chain, which [Web3.from_wei] accepts. *)
Record Tx : Type := {
  tx_hash : string;
  tx_from : string;
  tx_to : option string;
  tx_value : Z;
  tx_gasPrice : Z;
  tx_blockNumber : Z;
  tx_nonce : Z
}.

(** A block with its full transactions; the timestamp is the block time in
    seconds, which [datetime.fromtimestamp] accepts. *)
Record Block : Type := {
  blk_timestamp : Z;
  blk_transactions : list Tx
}.

(** The JSON body of the explorer's [getsourcecode] answer. *)
Record SourceEntry : Type := {
  ContractName : option string;
  SourceCode : option string
}.

Record ExplorerData : Type := {
  ex_status : string;
  ex_result : list SourceEntry
}.

(** The dictionaries built by [get_contract_info] and [_get_token_info]. *)
Record ContractInfo : Type := {
  ci_name : string;
  ci_verified : bool;
  ci_type : string
}.

Record TokenInfo : Type := {
  ti_symbol : string;
  ti_decimals : Z;
  ti_type : string
}.

(** The ['value'] of a transfer: the raw integer, or the float quotient
    [value / 10 ** decimals], kept as numerator and denominator. *)
Inductive amount : Type :=
  | Raw (value : Z)
  | Scaled (value : Z) (divisor : Z).

Record TokenTransfer : Type := {
  tt_token_address : string;
  tt_token_symbol : string;
  tt_token_decimals : Z;
  tt_from : string;
  tt_to : string;
  tt_value : amount;
  tt_token_type : string
}.

(** The dictionary assembled by [_process_detailed_transaction].  The keys
    that are only set under a condition are options.  [td_value] and
    [td_gas_price] hold the integers handed to [from_wei], [td_timestamp]
    the block time. *)
Record TxData : Type := {
  td_chain : string;
  td_hash : string;
  td_from : string;
  td_to : string;
  td_value : Z;
  td_gas_price : Z;
  td_gas_used : Z;
  td_block_number : Z;
  td_nonce : Z;
  td_timestamp : Z;
  td_is_outgoing : bool;
  td_status : Z;
  td_token_transfers : option (list TokenTransfer);
  td_transaction_type : string;
  td_cex_interaction : bool;
  td_cex_name : string;
  td_contract_name : option string;
  td_contract_type : option string
}.

(** ** The outside world *)

(** The three [time.sleep] calls of the scanner. *)
Inductive sleep_site : Type :=
  | BeforeBlock      (* time.sleep(request_delay) *)
  | BeforeReceipt    (* time.sleep(0.1) *)
  | Cooldown.        (* time.sleep(10) *)

(** The lines the program prints. *)
Inductive printed : Type :=
  | PErrContract (address msg : string)
  | PErrTransfers (tx_hash msg : string)
  | PErrToken (address msg : string)
  | PInvalidAddress (address : string)
  | PProcessing (chain address : string)
  | PFound (tx_hash : string)
  | PErrBlock (block_num : Z) (msg : string)
  | PRateLimit (delay : Z).

Inductive event : Type :=
  | EvSleep (site : sleep_site) (ms : Z)
  | EvBlockNumber (chain : string)
  | EvGetBlock (chain : string) (block_num : Z)
  | EvGetReceipt (chain : string) (tx_hash : string)
  | EvGetSource (chain : string) (address : string)
  | EvCallSymbol (chain : string) (address : string)
  | EvCallDecimals (chain : string) (address : string)
  | EvPrint (line : printed).

(** What the program cannot decide itself.  The first six fields are the
    answers of the RPC node and of the explorer of a chain, given
    everything that happened so far; the last two are the local checks of
    web3: [web3.is_address] and the address validation performed by
    [web3.eth.contract(address=...)]. *)
Record Upstream : Type := {
  up_block_number : list event -> string -> result Z;
  up_get_block : list event -> string -> Z -> result Block;
  up_get_receipt : list event -> string -> string -> result Receipt;
  up_getsourcecode : list event -> string -> string -> result ExplorerData;
  up_symbol : list event -> string -> string -> result string;
  up_decimals : list event -> string -> string -> result Z;
  up_is_address : string -> bool;
  up_contract : string -> result unit
}.

(** ** Analyzer state and the monad *)

(** The two dictionaries of a [TransactionAnalyzer], and the trace. *)
Record State : Type := {
  trace : list event;
  contract_cache : gmap string ContractInfo;
  token_cache : gmap string TokenInfo
}.

Definition M (A : Type) : Type := State -> result A * State.

Definition ret {A : Type} (a : A) : M A := fun st => (Ok a, st).

Definition raise {A : Type} (e : exn) : M A := fun st => (Raise e, st).

Definition bind {A B : Type} (m : M A) (k : A -> M B) : M B :=
  fun st =>
    match m st with
    | (Ok a, st') => k a st'
    | (Raise e, st') => (Raise e, st')
    end.

(** [try: m  except ... as e: h e].  What [m] did to the state before it
    raised stays done. *)
Definition try_except {A : Type} (m : M A) (h : exn -> M A) : M A :=
  fun st =>
    match m st with
    | (Ok a, st') => (Ok a, st')
    | (Raise e, st') => h e st'
    end.

Definition lift {A : Type} (r : result A) : M A := fun st => (r, st).

Declare Scope monad_scope.
Delimit Scope monad_scope with monad.
Notation "x <- m ;; k" := (bind m (fun x => k))
  (at level 20, m at level 99, k at level 200, only parsing) : monad_scope.
Notation "m ;; k" := (bind m (fun _ => k))
  (at level 100, k at level 200, only parsing, right associativity)
  : monad_scope.
Local Open Scope monad_scope.

Definition emit (ev : event) : M unit :=
  fun st =>
    (Ok tt, {| trace := trace st ++ [ev];
               contract_cache := contract_cache st;
               token_cache := token_cache st |}).

(** A request: the answer is decided by the trace before it. *)
Definition request {A : Type} (ev : event) (answer : list event -> result A)
  : M A :=
  fun st =>
    (answer (trace st),
     {| trace := trace st ++ [ev];
        contract_cache := contract_cache st;
        token_cache := token_cache st |}).

Definition print (line : printed) : M unit := emit (EvPrint line).

Definition sleep (site : sleep_site) (ms : Z) : M unit :=
  emit (EvSleep site ms).

Definition contract_cache_get (address : string) : M (option ContractInfo) :=
  fun st => (Ok (contract_cache st !! address), st).

Definition contract_cache_set (address : string) (info : ContractInfo)
  : M unit :=
  fun st =>
    (Ok tt, {| trace := trace st;
               contract_cache := <[address := info]> (contract_cache st);
               token_cache := token_cache st |}).

Definition token_cache_get (address : string) : M (option TokenInfo) :=
  fun st => (Ok (token_cache st !! address), st).

Definition token_cache_set (address : string) (info : TokenInfo) : M unit :=
  fun st =>
    (Ok tt, {| trace := trace st;
               contract_cache := contract_cache st;
               token_cache := <[address := info]> (token_cache st) |}).

(** ** [TransactionAnalyzer] *)

Section Analyzer.

Variable up : Upstream.
(** [self.chain] *)
Variable chain : string.

(** [_determine_contract_type]: the first type of [CONTRACT_TYPES] one of
    whose keywords occurs, lower-cased, in the lower-cased name or source
    text. *)
Definition _determine_contract_type (contract_data : SourceEntry) : string :=
  let contract_name := Str.lower (Str.or_empty (ContractName contract_data)) in
  let source_code := Str.lower (Str.or_empty (SourceCode contract_data)) in
  match
    find (fun entry : string * list string =>
            existsb (fun keyword =>
                       Str.contains (Str.lower keyword) contract_name
                       || Str.contains (Str.lower keyword) source_code)
                    (snd entry))
         CONTRACT_TYPES
  with
  | Some entry => fst entry
  | None => "unknown"
  end.

(** The body of the [try] of [get_contract_info], up to the store in the
    cache: the explorer request, then the [symbol()] probe. *)
Definition lookup_contract (address : string) : M ContractInfo :=
  data <- request (EvGetSource chain address)
                  (fun h => up_getsourcecode up h chain address) ;;
  first <- (if String.eqb (ex_status data) "1" then
              match ex_result data with
              | [] => raise IndexError
              | entry :: _ =>
                  ret (if Str.truthy (ContractName entry)
                       then Some entry else None)
              end
            else ret None) ;;
  match first with
  | Some entry =>
      ret {| ci_name := Str.or_empty (ContractName entry);
             ci_verified := true;
             ci_type := _determine_contract_type entry |}
  | None =>
      lift (up_contract up address) ;;
      try_except
        (symbol <- request (EvCallSymbol chain address)
                           (fun h => up_symbol up h chain address) ;;
         ret {| ci_name := symbol; ci_verified := false;
                ci_type := "token" |})
        (fun _ =>
           ret {| ci_name := "Unknown Contract"; ci_verified := false;
                  ci_type := "unknown" |})
  end.

Definition get_contract_info (address : string) : M ContractInfo :=
  cached <- contract_cache_get address ;;
  match cached with
  | Some info => ret info
  | None =>
      try_except
        (contract_info <- lookup_contract address ;;
         contract_cache_set address contract_info ;;
         ret contract_info)
        (fun e =>
           print (PErrContract address (str_exn e)) ;;
           ret {| ci_name := "Unknown"; ci_verified := false;
                  ci_type := "unknown" |})
  end.

(** The body of the [try] of [_get_token_info], up to the store in the
    cache. *)
Definition lookup_token (address : string) : M TokenInfo :=
  lift (up_contract up address) ;;
  try_except
    (symbol <- request (EvCallSymbol chain address)
                       (fun h => up_symbol up h chain address) ;;
     decimals <- request (EvCallDecimals chain address)
                         (fun h => up_decimals up h chain address) ;;
     ret {| ti_symbol := symbol; ti_decimals := decimals;
            ti_type := "ERC20" |})
    (fun _ =>
       ret {| ti_symbol := "UNKNOWN"; ti_decimals := 0;
              ti_type := "ERC721" |}).

Definition _get_token_info (address : string) : M TokenInfo :=
  cached <- token_cache_get address ;;
  match cached with
  | Some info => ret info
  | None =>
      try_except
        (token_info <- lookup_token address ;;
         token_cache_set address token_info ;;
         ret token_info)
        (fun e =>
           print (PErrToken address (str_exn e)) ;;
           ret {| ti_symbol := "UNKNOWN"; ti_decimals := 0;
                  ti_type := "unknown" |})
  end.

(** The test on a log of [get_token_transfers]. *)
Definition is_transfer_log (log : Log) : bool :=
  (List.length (log_topics log) =? 3)%nat
  && match log_topics log with
     | topic0 :: _ => String.eqb topic0 TRANSFER_TOPIC
     | [] => false
     end.

(** ['0x' + topic.hex()[-40:]] *)
Definition topic_address (topic : string) : string :=
  "0x" +:+ Str.last_chars 40 topic.

(** [value / divisor] for two integers, [divisor] positive: the quotient
    is rounded to the nearest double, and [OverflowError] is raised when
    that is not a finite one, which is from [2^1024 - 2^970] on. *)
Definition true_div (value divisor : Z) : result amount :=
  if (2 ^ 1024 - 2 ^ 970) * divisor <=? Z.abs value
  then Raise (OverflowError "integer division result too large for a float")
  else Ok (Scaled value divisor).

(** [value / (10 ** decimals) if decimals > 0 else value] *)
Definition scaled_value (value decimals : Z) : result amount :=
  if 0 <? decimals then true_div value (10 ^ decimals) else Ok (Raw value).

(** The [for log in receipt['logs']] loop; [transfers] is the list built
    so far. *)
Fixpoint transfers_loop (logs : list Log) (transfers : list TokenTransfer)
  : M (list TokenTransfer) :=
  match logs with
  | [] => ret transfers
  | log :: logs' =>
      if is_transfer_log log then
        let token_address := log_address log in
        let from_addr := topic_address (nth 1 (log_topics log) "") in
        let to_addr := topic_address (nth 2 (log_topics log) "") in
        value <- match Str.int16 (log_data log) with
                 | Some v => ret v
                 | None => raise (ValueError "invalid literal for int() with base 16")
                 end ;;
        token_info <- _get_token_info token_address ;;
        scaled <- lift (scaled_value value (ti_decimals token_info)) ;;
        transfers_loop logs'
          (transfers ++
           [ {| tt_token_address := token_address;
                tt_token_symbol := ti_symbol token_info;
                tt_token_decimals := ti_decimals token_info;
                tt_from := from_addr;
                tt_to := to_addr;
                tt_value := scaled;
                tt_token_type := ti_type token_info |} ])
      else transfers_loop logs' transfers
  end.

Definition get_token_transfers (tx_hash : string) : M (list TokenTransfer) :=
  try_except
    (receipt <- request (EvGetReceipt chain tx_hash)
                        (fun h => up_get_receipt up h chain tx_hash) ;;
     transfers_loop (rc_logs receipt) [])
    (fun e =>
       print (PErrTransfers tx_hash (str_exn e)) ;;
       ret []).

Definition classify_transaction (tx_hash : string) (tx_receipt : Receipt)
  : M string :=
  transfers <- get_token_transfers tx_hash ;;
  if (0 <? List.length transfers)%nat then ret "token_transfer"
  else if Str.truthy (rc_to tx_receipt) then
    contract_info <- get_contract_info (Str.or_empty (rc_to tx_receipt)) ;;
    if has_key (ci_type contract_info) CONTRACT_TYPES
    then ret (Str.lower (ci_type contract_info))
    else ret "unknown"
  else ret "unknown".

(** [is_cex_address]: the membership test compares lower-cased
    addresses, the name is then read under the address as given. *)
Definition is_cex_address (address : string) : result (bool * string) :=
  match assoc chain CEX_ADDRESSES with
  | Some table =>
      if str_in (Str.lower address) (map (fun kv => Str.lower (fst kv)) table)
      then match assoc address table with
           | Some cex_name => Ok (true, cex_name)
           | None => Raise (KeyError address)
           end
      else Ok (false, "")
  | None => Ok (false, "")
  end.

End Analyzer.

(** ** [DetailedTransactionFetcher] *)

(** The caches of the analyzer of one connected chain. *)
Record Analyzer : Type := {
  an_contract_cache : gmap string ContractInfo;
  an_token_cache : gmap string TokenInfo
}.

(** How a loop body of [fetch_detailed_transactions] ends.  The list is
    [all_transactions], which is appended to in place and so survives an
    exception. *)
Inductive control : Type :=
  | Next (all_transactions : list TxData)
  | Returned (all_transactions : list TxData)
  | Raised (e : exn) (all_transactions : list TxData).

(** How the scan of a block range ends: the range is exhausted, or the
    [return] under the limit was taken. *)
Inductive outcome : Type :=
  | Completed (all_transactions : list TxData)
  | Limit (all_transactions : list TxData).

(** [range(end_block, start_block - 1, -1)] *)
Definition range_desc (end_block start_block : Z) : list Z :=
  map (fun i => end_block - Z.of_nat i)
      (seq 0 (Z.to_nat (end_block - start_block + 1))).

Definition log_event (ev : event) (st : State) : State :=
  {| trace := trace st ++ [ev];
     contract_cache := contract_cache st;
     token_cache := token_cache st |}.

Section Fetcher.

Variable up : Upstream.
(** [self.wallet_addresses] and [self.max_transactions] *)
Variable wallet_addresses : list string.
Variable max_transactions : option Z.

(** ['is_outgoing'] *)
Definition is_outgoing (tx : Tx) (address : string) : bool :=
  String.eqb (Str.lower (tx_from tx)) (Str.lower address).

Definition _process_detailed_transaction
    (tx : Tx) (receipt : Receipt) (chain_name address : string)
    (timestamp : Z) : M TxData :=
  token_transfers <- get_token_transfers up chain_name (tx_hash tx) ;;
  transaction_type <- classify_transaction up chain_name (tx_hash tx) receipt ;;
  cex_from <- lift (is_cex_address chain_name (tx_from tx)) ;;
  cex_to <- (if Str.truthy (tx_to tx)
             then lift (is_cex_address chain_name (Str.or_empty (tx_to tx)))
             else ret (false, "")) ;;
  contract_info <- (if Str.truthy (tx_to tx)
                    then info <- get_contract_info up chain_name
                                   (Str.or_empty (tx_to tx)) ;;
                         ret (Some info)
                    else ret None) ;;
  ret {| td_chain := chain_name;
         td_hash := tx_hash tx;
         td_from := tx_from tx;
         td_to := Str.or_empty (tx_to tx);
         td_value := tx_value tx;
         td_gas_price := tx_gasPrice tx;
         td_gas_used := rc_gasUsed receipt;
         td_block_number := tx_blockNumber tx;
         td_nonce := tx_nonce tx;
         td_timestamp := timestamp;
         td_is_outgoing := is_outgoing tx address;
         td_status := rc_status receipt;
         td_token_transfers :=
           match token_transfers with
           | [] => None
           | _ => Some token_transfers
           end;
         td_transaction_type := transaction_type;
         td_cex_interaction := fst cex_from || fst cex_to;
         td_cex_name := if fst cex_from then snd cex_from else snd cex_to;
         td_contract_name := ci_name <$> contract_info;
         td_contract_type := ci_type <$> contract_info |}.

(** The test that selects the transactions of a watched address. *)
Definition touches (tx : Tx) (address : string) : bool :=
  String.eqb (Str.lower (tx_from tx)) (Str.lower address)
  || (Str.truthy (tx_to tx)
      && String.eqb (Str.lower (Str.or_empty (tx_to tx))) (Str.lower address)).

(** [self.max_transactions and
     len(all_transactions) >= self.max_transactions] *)
Definition limit_reached (all_transactions : list TxData) : bool :=
  match max_transactions with
  | Some k => negb (k =? 0) && (k <=? Z.of_nat (List.length all_transactions))
  | None => false
  end.

(** [for tx in block.transactions] *)
Fixpoint tx_loop (txs : list Tx) (chain_name address : string)
    (timestamp : Z) (all_transactions : list TxData) (st : State)
  : control * State :=
  match txs with
  | [] => (Next all_transactions, st)
  | tx :: txs' =>
      if touches tx address then
        match
          (sleep BeforeReceipt 100 ;;
           receipt <- request (EvGetReceipt chain_name (tx_hash tx))
                        (fun h => up_get_receipt up h chain_name (tx_hash tx)) ;;
           _process_detailed_transaction tx receipt chain_name address
             timestamp) st
        with
        | (Raise e, st') => (Raised e all_transactions, st')
        | (Ok tx_data, st') =>
            let all_transactions' := all_transactions ++ [tx_data] in
            let st'' := log_event (EvPrint (PFound (tx_hash tx))) st' in
            if limit_reached all_transactions'
            then (Returned all_transactions', st'')
            else tx_loop txs' chain_name address timestamp
                   all_transactions' st''
        end
      else tx_loop txs' chain_name address timestamp all_transactions st
  end.

(** The [try] body of one iteration of the block loop. *)
Definition block_body (block_num : Z) (chain_name address : string)
    (all_transactions : list TxData) (st : State) : control * State :=
  match
    request (EvGetBlock chain_name block_num)
            (fun h => up_get_block up h chain_name block_num) st
  with
  | (Raise e, st') => (Raised e all_transactions, st')
  | (Ok block, st') =>
      tx_loop (blk_transactions block) chain_name address
        (blk_timestamp block) all_transactions st'
  end.

(** The [except] handler of the block loop; returns the new
    [request_delay]. *)
Definition on_block_error (block_num : Z) (e : exn) (request_delay : Z)
    (st : State) : Z * State :=
  let error_msg := str_exn e in
  let st' := log_event (EvPrint (PErrBlock block_num error_msg)) st in
  if Str.contains "Too Many Requests" error_msg then
    let request_delay' := Z.min 60000 (request_delay * 2) in
    (request_delay',
     log_event (EvSleep Cooldown 10000)
       (log_event (EvPrint (PRateLimit request_delay')) st'))
  else (request_delay, st').

(** [for block_num in range(end_block, start_block - 1, -1)] *)
Fixpoint block_loop (blocks : list Z) (chain_name address : string)
    (request_delay : Z) (all_transactions : list TxData) (st : State)
  : outcome * State :=
  match blocks with
  | [] => (Completed all_transactions, st)
  | block_num :: blocks' =>
      match
        block_body block_num chain_name address all_transactions
          (log_event (EvSleep BeforeBlock request_delay) st)
      with
      | (Next all_transactions', st') =>
          block_loop blocks' chain_name address request_delay
            all_transactions' st'
      | (Returned all_transactions', st') => (Limit all_transactions', st')
      | (Raised e all_transactions', st') =>
          let (request_delay', st'') :=
            on_block_error block_num e request_delay st' in
          block_loop blocks' chain_name address request_delay'
            all_transactions' st''
      end
  end.

(** The scan of one watched address: the delay starts at 200 ms. *)
Definition scan_address (chain_name address : string)
    (start_block end_block : Z) (all_transactions : list TxData)
    (st : State) : outcome * State :=
  block_loop (range_desc end_block start_block) chain_name address 200
    all_transactions
    (log_event (EvPrint (PProcessing chain_name address)) st).

(** [for address in self.wallet_addresses] *)
Fixpoint address_loop (addresses : list string) (chain_name : string)
    (start_block end_block : Z) (all_transactions : list TxData)
    (st : State) : outcome * State :=
  match addresses with
  | [] => (Completed all_transactions, st)
  | address :: addresses' =>
      if up_is_address up address then
        match
          scan_address chain_name address start_block end_block
            all_transactions st
        with
        | (Completed all_transactions', st') =>
            address_loop addresses' chain_name start_block end_block
              all_transactions' st'
        | (Limit all_transactions', st') => (Limit all_transactions', st')
        end
      else
        address_loop addresses' chain_name start_block end_block
          all_transactions
          (log_event (EvPrint (PInvalidAddress address)) st)
  end.

(** [for chain_name, web3 in self.web3_connections.items()].
    [start_block] and [end_block] are the variables of the function:
    once assigned they stay so for the chains that follow.  The result
    is the rows of the returned frame and the trace. *)
Fixpoint chain_loop (connections : list (string * Analyzer))
    (start_block end_block : option Z) (all_transactions : list TxData)
    (tr : list event) : result (list TxData) * list event :=
  match connections with
  | [] => (Ok all_transactions, tr)
  | (chain_name, analyzer) :: connections' =>
      match
        match end_block with
        | Some e => (Ok e, tr)
        | None =>
            (up_block_number up tr chain_name,
             tr ++ [EvBlockNumber chain_name])
        end
      with
      | (Raise e, tr') => (Raise e, tr')
      | (Ok e, tr') =>
          let s := match start_block with
                   | Some s => s
                   | None => Z.max 0 (e - 100000)
                   end in
          match
            address_loop wallet_addresses chain_name s e all_transactions
              {| trace := tr';
                 contract_cache := an_contract_cache analyzer;
                 token_cache := an_token_cache analyzer |}
          with
          | (Completed all_transactions', st') =>
              chain_loop connections' (Some s) (Some e) all_transactions'
                (trace st')
          | (Limit all_transactions', st') =>
              (Ok all_transactions', trace st')
          end
      end
  end.

Definition fetch_detailed_transactions
    (connections : list (string * Analyzer))
    (start_block end_block : option Z) (tr : list event)
  : result (list TxData) * list event :=
  chain_loop connections start_block end_block [] tr.

End Fetcher.

(** ** The constructor of [DetailedTransactionFetcher]

    [__init__] reads the watched addresses from the environment, fixes
    the chains and connects to them in [_setup_connections].  The
    environment, after [load_dotenv()], is a function from names to
    optional values; what the constructor does to the outside world (an
    attempt to connect, a printed line) is appended to a trace of its
    own, and the answer to an attempt may depend on that trace. *)

Module Text.

(** [c.isspace()] for one ASCII character: tab, line feed, vertical
    tab, form feed, carriage return, the four separators [\x1c] to
    [\x1f], and the space. *)
Definition is_space (c : ascii) : bool :=
  let n := N_of_ascii c in
  ((9 <=? n) && (n <=? 13) || (28 <=? n) && (n <=? 32))%N.

(** [s.lstrip()] *)
Fixpoint lstrip (s : string) : string :=
  match s with
  | EmptyString => EmptyString
  | String c s' => if is_space c then lstrip s' else s
  end.

(** [s.rstrip()] *)
Fixpoint rstrip (s : string) : string :=
  match s with
  | EmptyString => EmptyString
  | String c s' =>
      match rstrip s' with
      | EmptyString => if is_space c then EmptyString else String c EmptyString
      | r => String c r
      end
  end.

(** [s.strip()] *)
Definition strip (s : string) : string := rstrip (lstrip s).

(** [s.split(sep)] for a separator of one character: the result is
    never empty, [''.split(',')] is [['']]. *)
Fixpoint split (sep : ascii) (s : string) : list string :=
  match s with
  | EmptyString => [EmptyString]
  | String c s' =>
      if Ascii.eqb c sep then EmptyString :: split sep s'
      else match split sep s' with
           | [] => [String c EmptyString]
           | w :: ws => String c w :: ws
           end
  end.

(** [s.count(c)] for one character. *)
Fixpoint count (c : ascii) (s : string) : nat :=
  match s with
  | EmptyString => O
  | String c' s' => ((if Ascii.eqb c' c then 1 else 0) + count c s')%nat
  end.

(** [str(v)] of an optional string: [None] prints as [None]. *)
Definition str_option (v : option string) : string :=
  match v with
  | Some s => s
  | None => "None"
  end.

(** [template.format(project_id=v)] for a template whose only braces
    are those of at most one field [{project_id}], as the templates of
    [CHAIN_CONFIGS] are. *)
Definition format_project_id (template : string) (v : option string)
  : string :=
  match String.index 0 "{project_id}" template with
  | Some n =>
      String.substring 0 n template
      +:+ str_option v
      +:+ String.substring (n + 12) (String.length template - (n + 12))
            template
  | None => template
  end.

End Text.

(** ** [CHAIN_CONFIGS] of [constants.py] *)

Record ChainConfig : Type := {
  cfg_rpc_url : string;
  cfg_chain_id : Z;
  cfg_name : string;
  cfg_explorer_api : string;
  cfg_explorer_url : string
}.

Definition CHAIN_CONFIGS : list (string * ChainConfig) :=
  [ ("ethereum",
     {| cfg_rpc_url := "https://mainnet.infura.io/v3/{project_id}";
        cfg_chain_id := 1;
        cfg_name := "Ethereum Mainnet";
        cfg_explorer_api := "https://api.etherscan.io/api";
        cfg_explorer_url := "https://etherscan.io" |}) ].

(** [d[k] = v] on a dictionary kept in insertion order: the value of a
    key that is present is replaced where it stands, a new key goes to
    the end. *)
Fixpoint dict_set {V : Type} (k : string) (v : V) (d : list (string * V))
  : list (string * V) :=
  match d with
  | [] => [(k, v)]
  | (k', v') :: d' =>
      if String.eqb k k' then (k, v) :: d' else (k', v') :: dict_set k v d'
  end.

(** The lines [_setup_connections] prints. *)
Inductive setup_line : Type :=
  | LConnected (name : string)
  | LConnectFailed (name : string)
  | LConnectError (name message : string).

Inductive setup_event : Type :=
  | SvConnect (chain_name rpc_url : string)
  | SvPrint (line : setup_line).

(** [Web3(Web3.HTTPProvider(rpc_url))] followed by
    [web3.is_connected()]: the answer, or the exception of either. *)
Record Network : Type := {
  net_connect : list setup_event -> string -> string -> result bool
}.

(** The fields of a [DetailedTransactionFetcher]; [fc_connections] holds
    [web3_connections] and [analyzers], which have the same keys. *)
Record FetcherObject : Type := {
  fc_wallet_addresses : list string;
  fc_selected_chains : list string;
  fc_max_transactions : option Z;
  fc_connections : list (string * Analyzer)
}.

Module TransactionAnalyzer.

(** The caches of a new analyzer are empty. *)
Definition __init__ : Analyzer :=
  {| an_contract_cache := ∅; an_token_cache := ∅ |}.

End TransactionAnalyzer.

Module DetailedTransactionFetcher.

Section Constructor.

Variable net : Network.
Variable getenv : string -> option string.

(** [config['rpc_url'].format(...)] when the URL is one of Infura. *)
Definition rpc_url_of (config : ChainConfig) : string :=
  if Str.contains "infura.io" (cfg_rpc_url config)
  then Text.format_project_id (cfg_rpc_url config)
         (getenv "INFURA_PROJECT_ID")
  else cfg_rpc_url config.

(** [for chain_name in self.selected_chains]: the lookup in
    [CHAIN_CONFIGS] is outside the [try], so its [KeyError] ends the
    loop and the constructor. *)
Fixpoint _setup_connections (chains : list string)
    (connections : list (string * Analyzer)) (tr : list setup_event)
  : result (list (string * Analyzer)) * list setup_event :=
  match chains with
  | [] => (Ok connections, tr)
  | chain_name :: chains' =>
      match assoc chain_name CHAIN_CONFIGS with
      | None => (Raise (KeyError chain_name), tr)
      | Some config =>
          let rpc_url := rpc_url_of config in
          let tr' := tr ++ [SvConnect chain_name rpc_url] in
          match net_connect net tr chain_name rpc_url with
          | Ok true =>
              _setup_connections chains'
                (dict_set chain_name TransactionAnalyzer.__init__
                   connections)
                (tr' ++ [SvPrint (LConnected (cfg_name config))])
          | Ok false =>
              _setup_connections chains' connections
                (tr' ++ [SvPrint (LConnectFailed (cfg_name config))])
          | Raise e =>
              _setup_connections chains' connections
                (tr' ++ [SvPrint (LConnectError (cfg_name config)
                                    (str_exn e))])
          end
      end
  end.

(** [[addr.strip() for addr in
      os.getenv('WALLET_ADDRESSES', '').split(',')]] *)
Definition wallet_addresses_of_env : list string :=
  map Text.strip
    (Text.split ","
       (match getenv "WALLET_ADDRESSES" with
        | Some v => v
        | None => ""
        end)).

(** [chains if chains else list(CHAIN_CONFIGS.keys())] *)
Definition selected_chains_of (chains : option (list string)) : list string :=
  match chains with
  | Some (c :: cs) => c :: cs
  | _ => map fst CHAIN_CONFIGS
  end.

Definition __init__ (chains : option (list string))
    (max_transactions : option Z)
  : result FetcherObject * list setup_event :=
  let wallet_addresses := wallet_addresses_of_env in
  let selected_chains := selected_chains_of chains in
  match _setup_connections selected_chains [] [] with
  | (Ok connections, tr) =>
      (Ok {| fc_wallet_addresses := wallet_addresses;
             fc_selected_chains := selected_chains;
             fc_max_transactions := max_transactions;
             fc_connections := connections |}, tr)
  | (Raise e, tr) => (Raise e, tr)
  end.

End Constructor.

End DetailedTransactionFetcher.

(** ** Concrete worlds

    Small upstreams on which the model is run: they give the inputs of the
    examples that follow the theorems. *)

Module World.

Definition empty_state : State :=
  {| trace := []; contract_cache := ∅; token_cache := ∅ |}.

Definition fresh : Analyzer :=
  {| an_contract_cache := ∅; an_token_cache := ∅ |}.

(** Two watched addresses, as configured (lower case), and the spelling
    with which a node reports them. *)
Definition watched : string := "0xd8da6bf26964af9d7eed9e03e53415d37aa96045".
Definition watched_too : string :=
  "0xc02aaa39b223fe8d0a0e5c4f27ead9083c756cc2".
Definition sender : string := "0xd8dA6BF26964aF9D7eEd9e03E53415D37aA96045".

(** A router contract and a token contract. *)
Definition router : string := "0x7a250d5630B4cF539739dF2C5dAcb4c659F2488D".
Definition token : string := "0xA0b86991c6218b36c1d19D4a2e9Eb0cE3606eB48".

(** The Binance address of [CEX_ADDRESSES], and its lower-case spelling. *)
Definition binance : string := "0x28C6c06298d514Db089934071355E5743bf21d60".
Definition binance_lower : string :=
  "0x28c6c06298d514db089934071355e5743bf21d60".

(** [0x] followed by forty hexadecimal digits. *)
Definition is_hex_address (s : string) : bool :=
  match s with
  | String "0" (String "x" digits) =>
      (String.length digits =? 40)%nat
      && forallb (fun c => match Str.hex_digit c with
                           | Some _ => true
                           | None => false
                           end) (list_ascii_of_string digits)
  | _ => false
  end.

(** [web3.eth.contract] wants the mixed-case spelling of an address. *)
Definition contract_handle (s : string) : result unit :=
  if is_hex_address s && negb (String.eqb s (Str.lower s)) then Ok tt
  else Raise (UpstreamError "web3.py only accepts checksum addresses").

Definition hex_char (d : N) : ascii :=
  nth (N.to_nat d)
      (list_ascii_of_string "0123456789abcdef") "0"%char.

(** The last [width] hexadecimal digits of [n]. *)
Fixpoint hex_of (width : nat) (n : N) : string :=
  match width with
  | O => ""
  | S w => hex_of w (n / 16) +:+ String (hex_char (n mod 16)) ""
  end.

(** The hash of the [i]-th transaction of the examples. *)
Definition hash_of (i : nat) : string := "0x" +:+ hex_of 64 (N.of_nat i).

Definition empty_block : Block :=
  {| blk_timestamp := 1700000000; blk_transactions := [] |}.

Definition plain_receipt : Receipt :=
  {| rc_to := Some router; rc_gasUsed := 21000; rc_status := 1;
     rc_logs := [] |}.

(** The [i]-th payment of one ether from the watched address, in block
    [n]. *)
Definition payment (n : Z) (i : nat) : Tx :=
  {| tx_hash := hash_of i; tx_from := sender; tx_to := Some router;
     tx_value := 10 ^ 18; tx_gasPrice := 10 ^ 9; tx_blockNumber := n;
     tx_nonce := Z.of_nat i |}.

(** A [Transfer] log of [token]. *)
Definition transfer_log : Log :=
  {| log_address := token;
     log_topics :=
       [ TRANSFER_TOPIC;
         "0x000000000000000000000000d8da6bf26964af9d7eed9e03e53415d37aa96045";
         "0x0000000000000000000000007a250d5630b4cf539739df2c5dacb4c659f2488d" ];
     log_data :=
       "0x0000000000000000000000000000000000000000000000000de0b6b3a7640000" |}.

Definition transfer_receipt : Receipt :=
  {| rc_to := Some router; rc_gasUsed := 52000; rc_status := 1;
     rc_logs := [transfer_log; transfer_log] |}.

Definition refused {A : Type} : result A :=
  Raise (UpstreamError "Connection refused").

Definition throttled {A : Type} : result A :=
  Raise (UpstreamError "429 Client Error: Too Many Requests for url").

(** Explorer and token calls all fail; every block is empty. *)
Definition offline : Upstream :=
  {| up_block_number := fun _ _ => Ok 50;
     up_get_block := fun _ _ _ => Ok empty_block;
     up_get_receipt := fun _ _ _ => Ok plain_receipt;
     up_getsourcecode := fun _ _ _ => refused;
     up_symbol := fun _ _ _ => refused;
     up_decimals := fun _ _ _ => refused;
     up_is_address := is_hex_address;
     up_contract := contract_handle |}.

(** The explorer knows no source for any address (status 0); the
    receipts carry two [Transfer] logs; [symbol()] reverts. *)
Definition unverified : Upstream :=
  {| up_block_number := fun _ _ => Ok 50;
     up_get_block := fun _ _ _ => Ok empty_block;
     up_get_receipt := fun _ _ _ => Ok transfer_receipt;
     up_getsourcecode :=
       fun _ _ _ => Ok {| ex_status := "0"; ex_result := [] |};
     up_symbol := fun _ _ _ => Raise (UpstreamError "execution reverted");
     up_decimals := fun _ _ _ => Ok 18;
     up_is_address := is_hex_address;
     up_contract := contract_handle |}.

(** The explorer knows a verified router for every address. *)
Definition verified : Upstream :=
  {| up_block_number := fun _ _ => Ok 50;
     up_get_block := fun _ _ _ => Ok empty_block;
     up_get_receipt := fun _ _ _ => Ok plain_receipt;
     up_getsourcecode :=
       fun _ _ _ =>
         Ok {| ex_status := "1";
               ex_result :=
                 [ {| ContractName := Some "UniswapV2Router02";
                      SourceCode := Some "contract UniswapV2Router02 {}" |} ] |};
     up_symbol := fun _ _ _ => refused;
     up_decimals := fun _ _ _ => refused;
     up_is_address := is_hex_address;
     up_contract := contract_handle |}.

(** Block 5 is refused with a throttling answer, the others are empty. *)
Definition throttling : Upstream :=
  {| up_block_number := fun _ _ => Ok 50;
     up_get_block :=
       fun _ _ n => if n =? 5 then throttled else Ok empty_block;
     up_get_receipt := fun _ _ _ => Ok plain_receipt;
     up_getsourcecode := fun _ _ _ => refused;
     up_symbol := fun _ _ _ => refused;
     up_decimals := fun _ _ _ => refused;
     up_is_address := is_hex_address;
     up_contract := contract_handle |}.

(** Every block holds [n] payments of the watched address. *)
Definition busy (n : nat) : Upstream :=
  {| up_block_number := fun _ _ => Ok 50;
     up_get_block :=
       fun _ _ h =>
         Ok {| blk_timestamp := 1700000000;
               blk_transactions := map (payment h) (seq 0 n) |};
     up_get_receipt := fun _ _ _ => Ok plain_receipt;
     up_getsourcecode := fun _ _ _ => refused;
     up_symbol := fun _ _ _ => refused;
     up_decimals := fun _ _ _ => refused;
     up_is_address := is_hex_address;
     up_contract := contract_handle |}.

(** A verified router behind every address, receipts with two
    [Transfer] logs of a six-decimal token. *)
Definition swapping : Upstream :=
  {| up_block_number := fun _ _ => Ok 50;
     up_get_block := fun _ _ _ => Ok empty_block;
     up_get_receipt := fun _ _ _ => Ok transfer_receipt;
     up_getsourcecode := up_getsourcecode verified;
     up_symbol := fun _ _ _ => Ok "USDC";
     up_decimals := fun _ _ _ => Ok 6;
     up_is_address := is_hex_address;
     up_contract := contract_handle |}.

(** A [Transfer] log without data, and receipts that carry it after a
    well-formed one. *)
Definition empty_data_log : Log :=
  {| log_address := token;
     log_topics := log_topics transfer_log;
     log_data := "0x" |}.

Definition garbled : Upstream :=
  {| up_block_number := fun _ _ => Ok 50;
     up_get_block := fun _ _ _ => Ok empty_block;
     up_get_receipt :=
       fun _ _ _ =>
         Ok {| rc_to := Some router; rc_gasUsed := 52000; rc_status := 1;
               rc_logs := [transfer_log; empty_data_log] |};
     up_getsourcecode := up_getsourcecode verified;
     up_symbol := fun _ _ _ => Ok "USDC";
     up_decimals := fun _ _ _ => Ok 6;
     up_is_address := is_hex_address;
     up_contract := contract_handle |}.

(** A deposit of the exchange address, reported in lower case, to the
    router. *)
Definition deposit : Tx :=
  {| tx_hash := hash_of 7; tx_from := binance_lower; tx_to := Some router;
     tx_value := 10 ^ 18; tx_gasPrice := 10 ^ 9; tx_blockNumber := 5;
     tx_nonce := 7 |}.

(** A withdrawal from the exchange address to the watched address. *)
Definition withdrawal : Tx :=
  {| tx_hash := hash_of 8; tx_from := binance; tx_to := Some sender;
     tx_value := 10 ^ 18; tx_gasPrice := 10 ^ 9; tx_blockNumber := 5;
     tx_nonce := 8 |}.

(** Every block holds three payments of the watched address; the
    receipt of the second one is refused with a throttling answer. *)
Definition flaky : Upstream :=
  {| up_block_number := fun _ _ => Ok 50;
     up_get_block :=
       fun _ _ h =>
         Ok {| blk_timestamp := 1700000000;
               blk_transactions := map (payment h) (seq 0 3) |};
     up_get_receipt :=
       fun _ _ h =>
         if String.eqb h (hash_of 1) then throttled else Ok plain_receipt;
     up_getsourcecode := fun _ _ _ => refused;
     up_symbol := fun _ _ _ => refused;
     up_decimals := fun _ _ _ => refused;
     up_is_address := is_hex_address;
     up_contract := contract_handle |}.

(** Every block request is refused with a throttling answer. *)
Definition jammed : Upstream :=
  {| up_block_number := fun _ _ => Ok 50;
     up_get_block := fun _ _ _ => throttled;
     up_get_receipt := fun _ _ _ => Ok plain_receipt;
     up_getsourcecode := fun _ _ _ => refused;
     up_symbol := fun _ _ _ => refused;
     up_decimals := fun _ _ _ => refused;
     up_is_address := is_hex_address;
     up_contract := contract_handle |}.

(** The request for the latest height is refused. *)
Definition headless : Upstream :=
  {| up_block_number := fun _ _ => refused;
     up_get_block := fun _ _ _ => Ok empty_block;
     up_get_receipt := fun _ _ _ => Ok plain_receipt;
     up_getsourcecode := fun _ _ _ => refused;
     up_symbol := fun _ _ _ => refused;
     up_decimals := fun _ _ _ => refused;
     up_is_address := is_hex_address;
     up_contract := contract_handle |}.

(** Networks that accept and that refuse every connection. *)
Definition reachable : Network :=
  {| net_connect := fun _ _ _ => Ok true |}.

Definition unreachable : Network :=
  {| net_connect := fun _ _ _ => refused |}.

(** An environment with two watched addresses, written with blanks and
    a trailing comma, and a project id. *)
Definition dotenv (name : string) : option string :=
  if String.eqb name "WALLET_ADDRESSES"
  then Some (" " +:+ watched +:+ " , " +:+ watched_too +:+ ",")
  else if String.eqb name "INFURA_PROJECT_ID"
       then Some "0123456789abcdef0123456789abcdef"
       else None.

(** The environment in which nothing is set. *)
Definition no_env (name : string) : option string := None.

(** The first request for a receipt is answered with one that carries
    two [Transfer] logs, every later one with one that carries none. *)
Definition fickle : Upstream :=
  {| up_block_number := fun _ _ => Ok 50;
     up_get_block := fun _ _ _ => Ok empty_block;
     up_get_receipt :=
       fun h _ _ =>
         if existsb (fun ev => match ev with
                               | EvGetReceipt _ _ => true
                               | _ => false
                               end) h
         then Ok plain_receipt else Ok transfer_receipt;
     up_getsourcecode := up_getsourcecode verified;
     up_symbol := fun _ _ _ => Ok "USDC";
     up_decimals := fun _ _ _ => Ok 6;
     up_is_address := is_hex_address;
     up_contract := contract_handle |}.

End World.

(** ** Vocabulary of the statements *)

(** [steps R m]: running [m] moves the state along [R]. *)
Definition steps {A : Type} (R : relation State) (m : M A) : Prop :=
  forall st, R st (m st).2.

(** The trace grows by events that satisfy [P]. *)
Definition appends (P : event -> Prop) : relation State :=
  fun st st' => exists evs, trace st' = trace st ++ evs /\ Forall P evs.

(** Both caches are left as they are. *)
Definition same_caches : relation State :=
  fun st st' =>
    contract_cache st' = contract_cache st /\ token_cache st' = token_cache st.

(** The events of the analyzer: requests for a receipt, a source or a
    token read, and printed lines. *)
Definition analyzer_event (ev : event) : Prop :=
  match ev with
  | EvGetReceipt _ _ | EvGetSource _ _ | EvCallSymbol _ _
  | EvCallDecimals _ _ | EvPrint _ => True
  | _ => False
  end.

Definition unknown_contract_info : ContractInfo :=
  {| ci_name := "Unknown"; ci_verified := false; ci_type := "unknown" |}.

Definition erc721_fallback : TokenInfo :=
  {| ti_symbol := "UNKNOWN"; ti_decimals := 0; ti_type := "ERC721" |}.

Definition unknown_fallback : TokenInfo :=
  {| ti_symbol := "UNKNOWN"; ti_decimals := 0; ti_type := "unknown" |}.

(** The token fields of a transfer. *)
Definition token_fields (t : TokenTransfer) : TokenInfo :=
  {| ti_symbol := tt_token_symbol t; ti_decimals := tt_token_decimals t;
     ti_type := tt_token_type t |}.

(** [t] is the transfer decoded from [log]. *)
Definition decodes (log : Log) (t : TokenTransfer) : Prop :=
  tt_token_address t = log_address log
  /\ tt_from t = topic_address (nth 1 (log_topics log) "")
  /\ tt_to t = topic_address (nth 2 (log_topics log) "")
  /\ exists v, Str.int16 (log_data log) = Some v
               /\ scaled_value v (tt_token_decimals t) = Ok (tt_value t).

(** The data of [log] is the hexadecimal notation of an unsigned 256-bit
    number. *)
Definition uint256_data (log : Log) : Prop :=
  exists v, Str.int16 (log_data log) = Some v /\ 0 <= v < 2 ^ 256.

(** The reads of [symbol()] and [decimals()] of [a] do not both
    succeed, whenever they are tried. *)
Definition probe_fails (up : Upstream) (chain a : string) : Prop :=
  forall h,
    (exists e, up_symbol up h chain a = Raise e)
    \/ (exists e,
          up_decimals up (h ++ [EvCallSymbol chain a]) chain a = Raise e).

(** The categories [classify_transaction] can assign from the contract. *)
Definition contract_categories : list string :=
  ["dex"; "lending"; "staking"; "nft_marketplace"; "bridge"; "yield"].

(** Events that are neither a block request, nor the pause before one,
    nor a request for the latest height. *)
Definition quiet (ev : event) : Prop :=
  match ev with
  | EvGetBlock _ _ | EvSleep BeforeBlock _ | EvBlockNumber _ => False
  | _ => True
  end.

(** The block requests of a trace, in order. *)
Definition block_fetches (evs : list event) : list (string * Z) :=
  omap (fun ev => match ev with
                  | EvGetBlock c n => Some (c, n)
                  | _ => None
                  end) evs.

(** The pauses taken before the block requests of a trace, in order. *)
Definition block_delays (evs : list event) : list Z :=
  omap (fun ev => match ev with
                  | EvSleep BeforeBlock d => Some d
                  | _ => None
                  end) evs.

(** [escalates d l]: [l] is a run of delays that starts at the current
    delay [d] and, from one to the next, stays or is doubled up to the
    cap of 60 s. *)
Fixpoint escalates (d : Z) (l : list Z) : Prop :=
  match l with
  | [] => True
  | x :: l' =>
      x = d /\ (escalates d l' \/ escalates (Z.min 60000 (d * 2)) l')
  end.

(** The state after the events [evs], caches untouched. *)
Definition log_events (evs : list event) (st : State) : State :=
  {| trace := trace st ++ evs;
     contract_cache := contract_cache st;
     token_cache := token_cache st |}.

(** The message of [e] carries the throttling signal. *)
Definition throttling_signal (e : exn) : bool :=
  Str.contains "Too Many Requests" (str_exn e).

(** The trace ends with the line printed for the last row of [all]. *)
Definition ends_with_found (all : list TxData) (tr : list event) : Prop :=
  exists tr0 r,
    tr = tr0 ++ [EvPrint (PFound (td_hash r))] /\ last all = Some r.

(** The rows stay under the limit [k], unless the scan was ended by the
    limit: then there are exactly [k] rows and nothing happened after the
    last one was appended and announced. *)
Definition within_limit (k : Z) (o : outcome) (tr : list event) : Prop :=
  match o with
  | Completed all => Z.of_nat (List.length all) < k
  | Limit all => Z.of_nat (List.length all) = k /\ ends_with_found all tr
  end.

(** [m] never raises. *)
Definition total {A : Type} (m : M A) : Prop :=
  forall st, exists a, (m st).1 = Ok a.

(** No request for the latest height, and block requests only to the
    given chains and for heights between [s] and [e]. *)
Definition in_range (chains : list string) (s e : Z) (ev : event) : Prop :=
  match ev with
  | EvBlockNumber _ => False
  | EvGetBlock c n => In c chains /\ s <= n <= e
  | _ => True
  end.

(** ** Further vocabulary *)

(** The keyword occurs, case-insensitively, in the name or in the source
    text of the contract. *)
Definition keyword_occurs (contract_data : SourceEntry) (keyword : string)
  : bool :=
  Str.contains (Str.lower keyword)
    (Str.lower (Str.or_empty (ContractName contract_data)))
  || Str.contains (Str.lower keyword)
       (Str.lower (Str.or_empty (SourceCode contract_data))).

(** One of the keywords of the entry occurs. *)
Definition entry_matches (contract_data : SourceEntry)
    (entry : string * list string) : bool :=
  existsb (keyword_occurs contract_data) (snd entry).

(** The answer of [is_cex_address] for the recipient, when there is one. *)
Definition cex_of_recipient (chain : string) (tx : Tx)
  : result (bool * string) :=
  if Str.truthy (tx_to tx)
  then is_cex_address chain (Str.or_empty (tx_to tx))
  else Ok (false, "").

(** [address] is, letter for letter, a key of the exchange table of the
    chain, with the name [name]. *)
Definition cex_key (chain address name : string) : Prop :=
  exists table,
    assoc chain CEX_ADDRESSES = Some table /\ assoc address table = Some name.

(** Both caches keep every entry they have, unchanged. *)
Definition cache_grows : relation State :=
  fun st st' =>
    contract_cache st ⊆ contract_cache st'
    /\ token_cache st ⊆ token_cache st'.




(** [keeps I]: a step from a state where [I] holds leads to one where it
    holds. *)
Definition keeps (I : State -> Prop) : relation State :=
  fun st st' => I st -> I st'.

(** The rows carried by the outcome of a loop body or of a scan. *)
Definition control_rows (c : control) : list TxData :=
  match c with
  | Next all | Returned all | Raised _ all => all
  end.

Definition outcome_rows (o : outcome) : list TxData :=
  match o with
  | Completed all | Limit all => all
  end.

(** [r] is the row of the transaction [tx], found on [chain] while
    scanning for [address]. *)
Definition row_of (chain address : string) (tx : Tx) (r : TxData) : Prop :=
  td_chain r = chain /\ td_hash r = tx_hash tx /\ td_from r = tx_from tx
  /\ td_to r = Str.or_empty (tx_to tx)
  /\ td_block_number r = tx_blockNumber tx
  /\ td_is_outgoing r = is_outgoing tx address.

(** [r] is the row of some transaction that touches [address]. *)
Definition row_from (chain address : string) (r : TxData) : Prop :=
  exists tx, touches tx address = true /\ row_of chain address tx r.

(** The block requests of a run that no limit ends: for each chain, for
    each watched address that [web3.is_address] accepts, the heights
    from [e] down to [s]. *)
Definition scheduled_fetches (up : Upstream) (wallet_addresses : list string)
    (chains : list string) (s e : Z) : list (string * Z) :=
  flat_map
    (fun c =>
       flat_map (fun _ : string => map (pair c) (range_desc e s))
         (List.filter (up_is_address up) wallet_addresses))
    chains.

(** The cooldown pauses of a trace, in order. *)
Definition cooldowns (evs : list event) : list Z :=
  omap (fun ev => match ev with
                  | EvSleep Cooldown d => Some d
                  | _ => None
                  end) evs.

(** The chain refuses every block request with the throttling signal. *)
Definition always_throttled (up : Upstream) (chain : string) : Prop :=
  forall h n, exists e,
    up_get_block up h chain n = Raise e /\ throttling_signal e = true.

(** The delay after [i] doublings of the base of 200 ms, cap applied. *)
Definition backoff (i : nat) : Z := Z.min 60000 (200 * 2 ^ Z.of_nat i).

(** The rows and the trace of a run ended by the limit [k], against
    those of the run without a limit: there are [k] rows, and rows and
    trace are initial segments of the other run's. *)
Definition truncated_at (k : Z) (rows : list TxData) (tr : list event)
    (rows_u : list TxData) (tr_u : list event) : Prop :=
  Z.of_nat (List.length rows) = k
  /\ rows `prefix_of` rows_u /\ tr `prefix_of` tr_u.

(** The receipt requests of a trace, in order. *)
Definition receipt_fetches (evs : list event) : list (string * string) :=
  omap (fun ev => match ev with
                  | EvGetReceipt c h => Some (c, h)
                  | _ => None
                  end) evs.

Definition no_receipt (ev : event) : Prop :=
  match ev with
  | EvGetReceipt _ _ => False
  | _ => True
  end.

(** From [st] to [st'] the trace grows, and the receipt requests made
    are [l]. *)
Definition receipts_of (l : list (string * string)) : relation State :=
  fun st st' =>
    exists evs, trace st' = trace st ++ evs /\ receipt_fetches evs = l.

(** The three receipt requests that a row costs. *)
Definition row_receipts (r : TxData) : list (string * string) :=
  repeat (td_chain r, td_hash r) 3.

(** From [st] to [st'] the trace grows, by at least three receipt
    requests for each of [n] rows. *)
Definition costs (n : nat) : relation State :=
  fun st st' =>
    exists evs,
      trace st' = trace st ++ evs
      /\ (3 * n <= List.length (receipt_fetches evs))%nat.

(** The connection attempts of a constructor trace, in order. *)
Definition connect_attempts (tr : list setup_event) : list (string * string) :=
  omap (fun ev => match ev with
                  | SvConnect c u => Some (c, u)
                  | SvPrint _ => None
                  end) tr.

(** The URL of the Infura endpoint for the project id of the
    environment. *)
Definition infura_url (getenv : string -> option string) : string :=
  "https://mainnet.infura.io/v3/"
  +:+ Text.str_option (getenv "INFURA_PROJECT_ID").

(** The first selected chain that [CHAIN_CONFIGS] does not have. *)
Definition first_unknown_chain (chains : list string) : option string :=
  find (fun c => negb (has_key c CHAIN_CONFIGS)) chains.

(** The value of [WALLET_ADDRESSES], [''] when it is not set. *)
Definition wallet_value (getenv : string -> option string) : string :=
  match getenv "WALLET_ADDRESSES" with
  | Some v => v
  | None => ""
  end.

(** The lines printed for the watched addresses that
    [web3.is_address] rejects, chain by chain. *)
Definition invalid_lines (chains wallet_addresses : list string)
  : list event :=
  flat_map
    (fun _ : string =>
       map (fun a => EvPrint (PInvalidAddress a)) wallet_addresses)
    chains.

(** The answers of the node about the tokens and the receipts of
    [chain] do not depend on what happened before the request. *)
Definition stable (up : Upstream) (chain : string) : Prop :=
  (forall h h' a, up_symbol up h chain a = up_symbol up h' chain a)
  /\ (forall h h' a, up_decimals up h chain a = up_decimals up h' chain a)
  /\ (forall h h' x, up_get_receipt up h chain x = up_get_receipt up h' chain x).

(** What [_get_token_info] finds out about [a] when it has to ask. *)
Definition looked_up (up : Upstream) (chain a : string) : TokenInfo :=
  match up_contract up a with
  | Raise _ => unknown_fallback
  | Ok _ =>
      match up_symbol up [] chain a with
      | Raise _ => erc721_fallback
      | Ok symbol =>
          match up_decimals up [] chain a with
          | Raise _ => erc721_fallback
          | Ok decimals =>
              {| ti_symbol := symbol; ti_decimals := decimals;
                 ti_type := "ERC20" |}
          end
      end
  end.

(** What [_get_token_info] answers about [a] with the cache [cache]. *)
Definition token_answer (up : Upstream) (chain : string)
    (cache : gmap string TokenInfo) (a : string) : TokenInfo :=
  match cache !! a with
  | Some info => info
  | None => looked_up up chain a
  end.

(** Two states in which [_get_token_info] gives the same answers. *)
Definition agree (up : Upstream) (chain : string) : relation State :=
  fun st st' =>
    forall a, token_answer up chain (token_cache st) a
              = token_answer up chain (token_cache st') a.

(** * Properties *)

Import World.

(** ** Footprints of computations *)


Section Steps.

Context (R : relation State) `{!PreOrder R}.
Context {A B : Type}.

Lemma steps_ret (a : A) : steps R (ret a).
Proof. intros st. reflexivity. Qed.

Lemma steps_raise (e : exn) : steps R (@raise A e).
Proof. intros st. reflexivity. Qed.

Lemma steps_lift (r : result A) : steps R (lift r).
Proof. intros st. reflexivity. Qed.

Lemma steps_bind (m : M A) (k : A -> M B) :
  steps R m -> (forall a, steps R (k a)) -> steps R (bind m k).
Proof.
  intros Hm Hk st. unfold bind. specialize (Hm st).
  destruct (m st) as [[a|e] st1]; simpl in *; [| done].
  etrans; [exact Hm | apply Hk].
Qed.

Lemma steps_try (m : M A) (h : exn -> M A) :
  steps R m -> (forall e, steps R (h e)) -> steps R (try_except m h).
Proof.
  intros Hm Hh st. unfold try_except. specialize (Hm st).
  destruct (m st) as [[a|e] st1]; simpl in *; [done |].
  etrans; [exact Hm | apply Hh].
Qed.

End Steps.


#[local] Instance appends_preorder P : PreOrder (appends P).
Proof.
  split.
  - intros st. exists []. by rewrite app_nil_r.
  - intros s1 s2 s3 (e1 & H1 & F1) (e2 & H2 & F2).
    exists (e1 ++ e2). rewrite H2, H1, app_assoc.
    split; [done | by apply Forall_app].
Qed.

#[local] Instance same_caches_preorder : PreOrder same_caches.
Proof.
  split.
  - by intros st.
  - intros s1 s2 s3 [H1 H1'] [H2 H2']. split; congruence.
Qed.

Lemma appends_one (P : event -> Prop) ev st :
  P ev -> appends P st (log_event ev st).
Proof. intros H. exists [ev]. simpl. auto. Qed.

Lemma appends_weaken (P Q : event -> Prop) st st' :
  (forall ev, P ev -> Q ev) -> appends P st st' -> appends Q st st'.
Proof.
  intros H (evs & Ht & HP). exists evs. split; [done |].
  eapply Forall_impl; eauto.
Qed.

Section Primitives.

Context {A : Type} (P : event -> Prop).

Lemma appends_emit ev : P ev -> steps (appends P) (emit ev).
Proof. intros H st. by apply appends_one. Qed.

Lemma appends_request ev (f : list event -> result A) :
  P ev -> steps (appends P) (request ev f).
Proof. intros H st. by apply appends_one. Qed.

Lemma appends_contract_cache_get a : steps (appends P) (contract_cache_get a).
Proof. intros st. reflexivity. Qed.

Lemma appends_contract_cache_set a i :
  steps (appends P) (contract_cache_set a i).
Proof. intros st. exists []. simpl. by rewrite app_nil_r. Qed.

Lemma appends_token_cache_get a : steps (appends P) (token_cache_get a).
Proof. intros st. reflexivity. Qed.

Lemma appends_token_cache_set a i : steps (appends P) (token_cache_set a i).
Proof. intros st. exists []. simpl. by rewrite app_nil_r. Qed.

Lemma same_caches_emit ev : steps same_caches (emit ev).
Proof. by intros st. Qed.

Lemma same_caches_request ev (f : list event -> result A) :
  steps same_caches (request ev f).
Proof. by intros st. Qed.

End Primitives.

Create HintDb steps.
#[local] Hint Resolve steps_ret steps_raise steps_lift
  appends_emit appends_request
  appends_contract_cache_get appends_contract_cache_set
  appends_token_cache_get appends_token_cache_set
  same_caches_emit same_caches_request : steps.

(** Walks through a computation written with [bind] and [try_except]. *)
Ltac steps_walk :=
  repeat
    first
      [ solve [eauto 3 with steps typeclass_instances]
      | apply steps_bind; [typeclasses eauto | | intros ?]
      | apply steps_try; [typeclasses eauto | | intros ?]
      | match goal with
        | |- steps _ (match ?x with _ => _ end) => destruct x
        | |- steps _ (if ?x then _ else _) => destruct x
        end ].


Section AnalyzerTrace.

Variable up : Upstream.
Variable chain : string.
Variable P : event -> Prop.
Hypothesis P_analyzer : forall ev, analyzer_event ev -> P ev.

#[local] Hint Extern 1 (analyzer_event _) => exact I : steps.
#[local] Hint Resolve P_analyzer : steps.

Lemma appends_lookup_contract a :
  steps (appends P) (lookup_contract up chain a).
Proof. unfold lookup_contract. steps_walk. Qed.
#[local] Hint Resolve appends_lookup_contract : steps.

Lemma appends_get_contract_info a :
  steps (appends P) (get_contract_info up chain a).
Proof. unfold get_contract_info, print. steps_walk. Qed.
#[local] Hint Resolve appends_get_contract_info : steps.

Lemma appends_lookup_token a : steps (appends P) (lookup_token up chain a).
Proof. unfold lookup_token. steps_walk. Qed.
#[local] Hint Resolve appends_lookup_token : steps.

Lemma appends_get_token_info a :
  steps (appends P) (_get_token_info up chain a).
Proof. unfold _get_token_info, print. steps_walk. Qed.
#[local] Hint Resolve appends_get_token_info : steps.

Lemma appends_transfers_loop logs acc :
  steps (appends P) (transfers_loop up chain logs acc).
Proof.
  revert acc. induction logs as [|log logs IH]; intros acc; simpl;
    steps_walk.
Qed.
#[local] Hint Resolve appends_transfers_loop : steps.

Lemma appends_get_token_transfers h :
  steps (appends P) (get_token_transfers up chain h).
Proof. unfold get_token_transfers, print. steps_walk. Qed.
#[local] Hint Resolve appends_get_token_transfers : steps.

Lemma appends_classify_transaction h rc :
  steps (appends P) (classify_transaction up chain h rc).
Proof. unfold classify_transaction. steps_walk. Qed.

End AnalyzerTrace.

Section AnalyzerCaches.

Variable up : Upstream.
Variable chain : string.

Lemma same_caches_lookup_contract a :
  steps same_caches (lookup_contract up chain a).
Proof. unfold lookup_contract. steps_walk. Qed.

Lemma same_caches_lookup_token a :
  steps same_caches (lookup_token up chain a).
Proof. unfold lookup_token. steps_walk. Qed.

(** The first thing an explorer lookup does is the [getsourcecode]
    request. *)
Lemma lookup_contract_starts a st :
  exists evs,
    trace (lookup_contract up chain a st).2
    = trace st ++ EvGetSource chain a :: evs.
Proof.
  unfold lookup_contract.
  set (k := fun data : ExplorerData => _).
  assert (Hk : forall d, steps (appends (fun _ => True)) (k d)).
  { intros d. unfold k. steps_walk. }
  unfold bind at 1. unfold request at 1.
  destruct (up_getsourcecode up (trace st) chain a) as [d|e]; simpl.
  - destruct (Hk d (log_event (EvGetSource chain a) st)) as (evs & Ht & _).
    exists evs. unfold log_event in Ht. simpl in Ht.
    by rewrite Ht, <- app_assoc.
  - by exists [].
Qed.

(** [get_contract_info] on a stored address. *)
Lemma get_contract_info_hit a st info :
  contract_cache st !! a = Some info ->
  get_contract_info up chain a st = (Ok info, st).
Proof.
  intros H. unfold get_contract_info, bind, contract_cache_get.
  by rewrite H.
Qed.

(** [get_contract_info] on an address that is not stored. *)
Lemma get_contract_info_miss a st :
  contract_cache st !! a = None ->
  get_contract_info up chain a st
  = match lookup_contract up chain a st with
    | (Ok info, st') =>
        (Ok info,
         {| trace := trace st';
            contract_cache := <[a := info]> (contract_cache st');
            token_cache := token_cache st' |})
    | (Raise e, st') =>
        (Ok {| ci_name := "Unknown"; ci_verified := false;
               ci_type := "unknown" |},
         log_event (EvPrint (PErrContract a (str_exn e))) st')
    end.
Proof.
  intros H.
  unfold get_contract_info, bind at 1, contract_cache_get. rewrite H.
  unfold try_except, bind at 1.
  by destruct (lookup_contract up chain a st) as [[info|e] st'].
Qed.

End AnalyzerCaches.

(** ** The caches *)

Section Caches.

Variable up : Upstream.
Variable chain : string.


Lemma trace_grows st st' ev evs :
  trace st' = trace st ++ ev :: evs -> st' <> st.
Proof.
  intros H ->. apply (f_equal List.length) in H.
  rewrite length_app in H. simpl in H. lia.
Qed.

Lemma get_contract_info_miss_starts a st :
  contract_cache st !! a = None ->
  exists evs,
    trace (get_contract_info up chain a st).2
    = trace st ++ EvGetSource chain a :: evs.
Proof.
  intros H. rewrite (get_contract_info_miss _ _ _ _ H).
  destruct (lookup_contract_starts up chain a st) as (evs & Ht).
  destruct (lookup_contract up chain a st) as [[info|e] st']; simpl in *.
  - by exists evs.
  - exists (evs ++ [EvPrint (PErrContract a (str_exn e))]).
    by rewrite Ht, <- app_assoc.
Qed.

(** A call of [get_contract_info] leaves the state as it is, trace
    included, exactly when the address itself is a key of the cache. *)
Lemma get_contract_info_pure_iff a st :
  (get_contract_info up chain a st).2 = st
  <-> is_Some (contract_cache st !! a).
Proof.
  split.
  - intros H. destruct (contract_cache st !! a) eqn:E; [by eexists |].
    destruct (get_contract_info_miss_starts a st E) as (evs & Ht).
    by apply trace_grows in Ht.
  - intros [info H]. by rewrite (get_contract_info_hit _ _ _ _ _ H).
Qed.

Lemma _get_token_info_hit a st info :
  token_cache st !! a = Some info ->
  _get_token_info up chain a st = (Ok info, st).
Proof.
  intros H. unfold _get_token_info, bind, token_cache_get. by rewrite H.
Qed.

Lemma _get_token_info_miss a st :
  token_cache st !! a = None ->
  _get_token_info up chain a st
  = match lookup_token up chain a st with
    | (Ok info, st') =>
        (Ok info,
         {| trace := trace st';
            contract_cache := contract_cache st';
            token_cache := <[a := info]> (token_cache st') |})
    | (Raise e, st') =>
        (Ok {| ti_symbol := "UNKNOWN"; ti_decimals := 0;
               ti_type := "unknown" |},
         log_event (EvPrint (PErrToken a (str_exn e))) st')
    end.
Proof.
  intros H.
  unfold _get_token_info, bind at 1, token_cache_get. rewrite H.
  unfold try_except, bind at 1.
  by destruct (lookup_token up chain a st) as [[info|e] st'].
Qed.

(** What [lookup_token] does, by the three ways it can go. *)
Lemma lookup_token_eq a st :
  lookup_token up chain a st
  = match up_contract up a with
    | Raise e => (Raise e, st)
    | Ok _ =>
        let st1 := log_event (EvCallSymbol chain a) st in
        match up_symbol up (trace st) chain a with
        | Raise _ =>
            (Ok {| ti_symbol := "UNKNOWN"; ti_decimals := 0;
                   ti_type := "ERC721" |}, st1)
        | Ok symbol =>
            let st2 := log_event (EvCallDecimals chain a) st1 in
            match up_decimals up (trace st1) chain a with
            | Raise _ =>
                (Ok {| ti_symbol := "UNKNOWN"; ti_decimals := 0;
                       ti_type := "ERC721" |}, st2)
            | Ok decimals =>
                (Ok {| ti_symbol := symbol; ti_decimals := decimals;
                       ti_type := "ERC20" |}, st2)
            end
        end
    end.
Proof.
  unfold lookup_token, bind, try_except, lift, request, ret, log_event.
  destruct (up_contract up a) as [[]|e]; [| done].
  destruct (up_symbol up (trace st) chain a); [| done]. simpl.
  by destruct (up_decimals up _ chain a).
Qed.

Lemma _get_token_info_miss_grows a st :
  token_cache st !! a = None ->
  exists ev evs,
    trace (_get_token_info up chain a st).2 = trace st ++ ev :: evs.
Proof.
  intros H. rewrite (_get_token_info_miss _ _ H), lookup_token_eq.
  destruct (up_contract up a) as [[]|e]; simpl; [| by eexists _, []].
  destruct (up_symbol up (trace st) chain a); simpl; [| by eexists _, []].
  destruct (up_decimals up _ chain a); simpl;
    rewrite <- app_assoc; by eexists _, [_].
Qed.

Lemma _get_token_info_pure_iff a st :
  (_get_token_info up chain a st).2 = st
  <-> is_Some (token_cache st !! a).
Proof.
  split.
  - intros H. destruct (token_cache st !! a) eqn:E; [by eexists |].
    destruct (_get_token_info_miss_grows a st E) as (ev & evs & Ht).
    by apply trace_grows in Ht.
  - intros [info H]. by rewrite (_get_token_info_hit _ _ _ H).
Qed.

(** [_get_token_info] never raises. *)
Lemma _get_token_info_returns a st :
  exists info, (_get_token_info up chain a st).1 = Ok info.
Proof.
  destruct (token_cache st !! a) as [info|] eqn:E.
  - exists info. by rewrite (_get_token_info_hit _ _ _ E).
  - rewrite (_get_token_info_miss _ _ E).
    destruct (lookup_token up chain a st) as [[info|e] st'];
      by eexists.
Qed.

(** [get_contract_info] never raises. *)
Lemma get_contract_info_returns a st :
  exists info, (get_contract_info up chain a st).1 = Ok info.
Proof.
  destruct (contract_cache st !! a) as [info|] eqn:E.
  - exists info. by rewrite (get_contract_info_hit _ _ _ _ _ E).
  - rewrite (get_contract_info_miss _ _ _ _ E).
    destruct (lookup_contract up chain a st) as [[info|e] st'];
      by eexists.
Qed.

End Caches.

(** ** Letter case of addresses *)

Lemma assoc_lower_keys (a : string) (table : list (string * string)) name :
  assoc a table = Some name ->
  str_in (Str.lower a) (map (fun kv => Str.lower (fst kv)) table) = true.
Proof.
  induction table as [|[k v] table IH]; simpl; [done |].
  destruct (String.eqb_spec a k) as [->|Hne].
  - intros _. by rewrite String.eqb_refl.
  - intros H. rewrite (IH H). apply orb_true_r.
Qed.

(** C1, as the code has it.  For two addresses [A] and [B] that differ
    only in letter case: the direction flag, the test that selects the
    transactions of a watched address and the whole assembled record are
    the same for [A] and [B]; [is_cex_address] answers [(False, '')] for
    [A] exactly when it does for [B], and an address that is itself a key
    of the chain's table resolves to the name stored there.  The two
    caches are keyed by the address string as given: a lookup is a hit
    (no request, no output, state unchanged) exactly when an entry is
    stored under that very string. *)
Theorem address_case (up : Upstream) (chain A B : string)
    (Hcase : Str.lower A = Str.lower B) :
  (forall tx, is_outgoing tx A = is_outgoing tx B
              /\ touches tx A = touches tx B)
  /\ (forall tx receipt timestamp st,
        _process_detailed_transaction up tx receipt chain A timestamp st
        = _process_detailed_transaction up tx receipt chain B timestamp st)
  /\ (is_cex_address chain A = Ok (false, "")
      <-> is_cex_address chain B = Ok (false, ""))
  /\ (forall table name,
        assoc chain CEX_ADDRESSES = Some table ->
        assoc A table = Some name ->
        is_cex_address chain A = Ok (true, name))
  /\ (forall st,
        (get_contract_info up chain B st).2 = st
        <-> is_Some (contract_cache st !! B))
  /\ (forall st,
        (_get_token_info up chain B st).2 = st
        <-> is_Some (token_cache st !! B)).
Proof.
  repeat split.
  - unfold is_outgoing. by rewrite Hcase.
  - unfold touches. by rewrite Hcase.
  - unfold _process_detailed_transaction, is_outgoing. by rewrite Hcase.
  - unfold is_cex_address. rewrite Hcase.
    destruct (assoc chain CEX_ADDRESSES) as [table|]; [| done].
    destruct (str_in _ _); [| done].
    by destruct (assoc A table).
  - unfold is_cex_address. rewrite <- Hcase.
    destruct (assoc chain CEX_ADDRESSES) as [table|]; [| done].
    destruct (str_in _ _); [| done].
    by destruct (assoc B table).
  - intros table name Ht Ha. unfold is_cex_address.
    by rewrite Ht, (assoc_lower_keys _ _ _ Ha), Ha.
  - apply get_contract_info_pure_iff.
  - apply get_contract_info_pure_iff.
  - apply _get_token_info_pure_iff.
  - apply _get_token_info_pure_iff.
Qed.

Lemma address_case_witness :
  Str.lower sender = Str.lower watched
  /\ is_outgoing (payment 5 0) sender = is_outgoing (payment 5 0) watched.
Proof.
  split; [reflexivity |].
  apply (address_case offline "ethereum" sender watched);
    reflexivity.
Defined.

(** C1 as stated fails.  The Binance address of the table resolves to
    its name, its lower-case spelling raises [KeyError]; and after the
    contract and the token of an address have been looked up and stored
    under one spelling, a query under the other spelling goes to the
    network again. *)
Lemma address_case_counterexample :
  let A := binance in
  let B := binance_lower in
  let st1 := (get_contract_info verified "ethereum" A empty_state).2 in
  let st2 := (_get_token_info unverified "ethereum" A empty_state).2 in
  Str.lower A = Str.lower B
  /\ is_cex_address "ethereum" A = Ok (true, "Binance")
  /\ is_cex_address "ethereum" B = Raise (KeyError B)
  /\ trace (get_contract_info verified "ethereum" A st1).2 = trace st1
  /\ trace (get_contract_info verified "ethereum" B st1).2
     = trace st1 ++ [EvGetSource "ethereum" B]
  /\ is_Some (token_cache st2 !! A)
  /\ trace (_get_token_info unverified "ethereum" A st2).2 = trace st2
  /\ token_cache st2 !! B = None
  /\ (_get_token_info unverified "ethereum" B st2).2 <> st2.
Proof.
  cbv zeta.
  repeat (split; [vm_compute; by eauto |]).
  intros H. apply (f_equal trace) in H. vm_compute in H. discriminate.
Qed.

(** ** Classifying an address twice *)

(** C2, as the code has it.  On a stored address [get_contract_info] is a
    pure cache hit.  On an address that is not stored, every outcome the
    lookup computes without an exception reaching the outer handler (a
    verified contract, a token, or the negative "Unknown Contract") is
    stored, and a second call returns it without touching the network or
    the state.  When the lookup raises (the explorer request or its
    decoding, or the contract handle) the "Unknown" fallback is returned
    and nothing is stored: a second call sends the explorer request
    again.  The negative outcome of a failed [symbol()] probe is of the
    first kind. *)
Theorem contract_info_cached_unless_lookup_raises
    (up : Upstream) (chain a : string) (st : State) :
  let st1 := (get_contract_info up chain a st).2 in
  match contract_cache st !! a with
  | Some info => get_contract_info up chain a st = (Ok info, st)
  | None =>
      match (lookup_contract up chain a st).1 with
      | Ok info =>
          (get_contract_info up chain a st).1 = Ok info
          /\ get_contract_info up chain a st1 = (Ok info, st1)
      | Raise e =>
          (get_contract_info up chain a st).1 = Ok unknown_contract_info
          /\ contract_cache st1 = contract_cache st
          /\ exists evs,
               trace (get_contract_info up chain a st1).2
               = trace st1 ++ EvGetSource chain a :: evs
      end
  end
  /\ (forall data e,
        up_getsourcecode up (trace st) chain a = Ok data ->
        ex_status data <> "1" ->
        up_contract up a = Ok tt ->
        up_symbol up (trace st ++ [EvGetSource chain a]) chain a = Raise e ->
        (lookup_contract up chain a st).1
        = Ok {| ci_name := "Unknown Contract"; ci_verified := false;
                ci_type := "unknown" |}).
Proof.
  intros st1. split.
  - destruct (contract_cache st !! a) as [info|] eqn:E.
    { by apply get_contract_info_hit. }
    subst st1. rewrite (get_contract_info_miss _ _ _ _ E).
    pose proof (same_caches_lookup_contract up chain a st) as [Hc _].
    destruct (lookup_contract up chain a st) as [[info|e] st']; simpl in *.
    + split; [done |]. apply get_contract_info_hit. simpl.
      apply lookup_insert_eq.
    + split; [done |]. split; [done |].
      apply get_contract_info_miss_starts. simpl. by rewrite Hc.
  - intros data e Hd Hs Hc Hsym.
    unfold lookup_contract, bind, request, try_except, lift, ret. simpl.
    rewrite Hd. apply String.eqb_neq in Hs. rewrite Hs. simpl.
    rewrite Hc. simpl. by rewrite Hsym.
Qed.

Lemma contract_info_cached_witness :
  (lookup_contract unverified "ethereum" router empty_state).1
  = Ok {| ci_name := "Unknown Contract"; ci_verified := false;
          ci_type := "unknown" |}.
Proof.
  apply (contract_info_cached_unless_lookup_raises
           unverified "ethereum" router empty_state)
    with (data := {| ex_status := "0"; ex_result := [] |})
         (e := UpstreamError "execution reverted");
    [reflexivity | discriminate | reflexivity | reflexivity].
Defined.

(** C2 as stated fails.  With an explorer that cannot be reached the
    first classification returns the "Unknown" fallback and stores
    nothing, and the second classification of the same address sends the
    explorer request a second time. *)
Lemma contract_info_cached_counterexample :
  let st1 := (get_contract_info offline "ethereum" router empty_state).2 in
  let st2 := (get_contract_info offline "ethereum" router st1).2 in
  contract_cache st1 !! router = None
  /\ trace st1
     = [ EvGetSource "ethereum" router;
         EvPrint (PErrContract router "Connection refused") ]
  /\ trace st2
     = [ EvGetSource "ethereum" router;
         EvPrint (PErrContract router "Connection refused");
         EvGetSource "ethereum" router;
         EvPrint (PErrContract router "Connection refused") ].
Proof. vm_compute. repeat split. Qed.

(** ** Token transfers of a receipt *)


Section Transfers.

Variable up : Upstream.
Variable chain : string.


Lemma _get_token_info_other a a' st :
  a' <> a ->
  token_cache (_get_token_info up chain a' st).2 !! a
  = token_cache st !! a.
Proof.
  intros Hne. destruct (token_cache st !! a') as [info|] eqn:E.
  - by rewrite (_get_token_info_hit _ _ _ _ _ E).
  - rewrite (_get_token_info_miss _ _ _ _ E).
    pose proof (same_caches_lookup_token up chain a' st) as [_ Hc].
    destruct (lookup_token up chain a' st) as [[info|e] st']; simpl in *.
    + by rewrite lookup_insert_ne, Hc.
    + by rewrite Hc.
Qed.

(** While the probe of [a] fails, [a] is looked up as the ERC721
    fallback, and stored as such. *)
Lemma _get_token_info_probe_fails a st :
  up_contract up a = Ok tt -> probe_fails up chain a ->
  token_cache st !! a = None \/ token_cache st !! a = Some erc721_fallback ->
  (_get_token_info up chain a st).1 = Ok erc721_fallback
  /\ token_cache (_get_token_info up chain a st).2 !! a
     = Some erc721_fallback.
Proof.
  intros Hc Hp [E|E].
  - rewrite (_get_token_info_miss _ _ _ _ E), lookup_token_eq, Hc.
    destruct (Hp (trace st)) as [[e He]|[e He]].
    + rewrite He. simpl. by rewrite lookup_insert_eq.
    + destruct (up_symbol up (trace st) chain a); simpl.
      * rewrite He. simpl. by rewrite lookup_insert_eq.
      * by rewrite lookup_insert_eq.
  - by rewrite (_get_token_info_hit _ _ _ _ _ E).
Qed.

(** While the contract handle of [a] cannot be built, [a] is looked up
    as the unknown fallback, and never stored. *)
Lemma _get_token_info_no_handle a st e :
  up_contract up a = Raise e ->
  token_cache st !! a = None ->
  (_get_token_info up chain a st).1 = Ok unknown_fallback
  /\ token_cache (_get_token_info up chain a st).2 !! a = None.
Proof.
  intros Hc E.
  by rewrite (_get_token_info_miss _ _ _ _ E), lookup_token_eq, Hc.
Qed.

(** An unsigned 256-bit value is scaled without overflow. *)
Lemma scaled_value_uint256 v d :
  0 <= v < 2 ^ 256 -> exists scaled, scaled_value v d = Ok scaled.
Proof.
  intros Hv. unfold scaled_value, true_div.
  destruct (0 <? d) eqn:Hd; [| by eexists].
  apply Z.ltb_lt in Hd.
  assert (1 <= 10 ^ d) by (apply Z.pow_le_mono_r with (b := 0); lia).
  assert (2 ^ 256 <= 2 ^ 1024 - 2 ^ 970) by (vm_compute; discriminate).
  destruct (Z.leb_spec ((2 ^ 1024 - 2 ^ 970) * 10 ^ d) (Z.abs v));
    [nia | by eexists].
Qed.

(** One step of [transfers_loop] on a log that qualifies. *)
Lemma transfers_loop_step log logs acc st v :
  is_transfer_log log = true ->
  Str.int16 (log_data log) = Some v ->
  exists info,
    (_get_token_info up chain (log_address log) st).1 = Ok info
    /\ transfers_loop up chain (log :: logs) acc st
       = match scaled_value v (ti_decimals info) with
         | Ok scaled =>
             transfers_loop up chain logs
               (acc ++
                [ {| tt_token_address := log_address log;
                     tt_token_symbol := ti_symbol info;
                     tt_token_decimals := ti_decimals info;
                     tt_from := topic_address (nth 1 (log_topics log) "");
                     tt_to := topic_address (nth 2 (log_topics log) "");
                     tt_value := scaled;
                     tt_token_type := ti_type info |} ])
               (_get_token_info up chain (log_address log) st).2
         | Raise e =>
             (Raise e, (_get_token_info up chain (log_address log) st).2)
         end.
Proof.
  intros Hq Hv.
  destruct (_get_token_info_returns up chain (log_address log) st)
    as [info Hi].
  exists info. split; [done |].
  simpl. rewrite Hq, Hv. unfold bind at 1. simpl. unfold bind at 1.
  destruct (_get_token_info up chain (log_address log) st) as [r st'].
  simpl in Hi. subst r. unfold bind at 1, lift. simpl.
  by destruct (scaled_value v (ti_decimals info)).
Qed.

(** No token lookup stops the loop: when the data of the qualifying
    logs are unsigned 256-bit numbers, each of them yields its transfer,
    in the order of the logs. *)
Lemma transfers_loop_all logs acc st :
  Forall uint256_data (List.filter is_transfer_log logs) ->
  exists ts,
    (transfers_loop up chain logs acc st).1 = Ok (acc ++ ts)
    /\ Forall2 decodes (List.filter is_transfer_log logs) ts.
Proof.
  revert acc st. induction logs as [|log logs IH]; intros acc st Hall.
  - exists []. simpl. by rewrite app_nil_r.
  - simpl in Hall. destruct (is_transfer_log log) eqn:Hq.
    + apply Forall_cons in Hall as [(v & Hv & Hr) Hall].
      destruct (transfers_loop_step log logs acc st v Hq Hv)
        as (info & _ & ->).
      destruct (scaled_value_uint256 v (ti_decimals info) Hr)
        as (scaled & Hs).
      rewrite Hs.
      match goal with
      | |- context [transfers_loop up chain logs (acc ++ [?t]) ?s] =>
          destruct (IH (acc ++ [t]) s Hall) as (ts & Ht & Hd);
          exists (t :: ts)
      end. rewrite Ht, <- app_assoc. split; [done |].
      simpl. rewrite Hq. constructor; [| done].
      repeat split. by exists v.
    + simpl. rewrite Hq. by apply IH.
Qed.

(** An invariant [J] of the cache entry of [a] under which [a] is
    always looked up as [F] gives [F] to every transfer of token [a]. *)
Lemma transfers_loop_fields a (F : TokenInfo)
    (J : option TokenInfo -> Prop) :
  (forall st, J (token_cache st !! a) ->
              (_get_token_info up chain a st).1 = Ok F
              /\ J (token_cache (_get_token_info up chain a st).2 !! a)) ->
  forall logs acc st ts,
    J (token_cache st !! a) ->
    Forall (fun t => tt_token_address t = a -> token_fields t = F) acc ->
    (transfers_loop up chain logs acc st).1 = Ok ts ->
    Forall (fun t => tt_token_address t = a -> token_fields t = F) ts.
Proof.
  intros HJ. induction logs as [|log logs IH]; intros acc st ts Hst Hacc.
  - simpl. by intros [= <-].
  - destruct (is_transfer_log log) eqn:Hq; [| simpl; rewrite Hq; by apply IH].
    destruct (Str.int16 (log_data log)) as [v|] eqn:Hv.
    + destruct (transfers_loop_step log logs acc st v Hq Hv)
        as (info & Hi & ->).
      destruct (scaled_value v (ti_decimals info)) as [scaled|e]; [| done].
      apply IH.
      * destruct (decide (log_address log = a)) as [->|Hne].
        -- by apply HJ.
        -- by rewrite _get_token_info_other.
      * apply Forall_app. split; [done |].
        constructor; [| done]. simpl. intros Ha. rewrite Ha in Hi.
        destruct (HJ st Hst) as [HF _]. rewrite HF in Hi.
        injection Hi as <-. by destruct F.
    + simpl. rewrite Hq, Hv. by unfold bind, raise.
Qed.

Lemma get_token_transfers_fields a (F : TokenInfo)
    (J : option TokenInfo -> Prop) :
  (forall st, J (token_cache st !! a) ->
              (_get_token_info up chain a st).1 = Ok F
              /\ J (token_cache (_get_token_info up chain a st).2 !! a)) ->
  forall h st ts,
    J (token_cache st !! a) ->
    (get_token_transfers up chain h st).1 = Ok ts ->
    Forall (fun t => tt_token_address t = a -> token_fields t = F) ts.
Proof.
  intros HJ h st ts Hst.
  unfold get_token_transfers, try_except, bind at 1, request.
  destruct (up_get_receipt up (trace st) chain h) as [rc|e].
  - match goal with
    | |- context [transfers_loop up chain (rc_logs rc) [] ?s] =>
        pose proof (transfers_loop_fields a F J HJ (rc_logs rc) [] s)
          as Hloop;
        destruct (transfers_loop up chain (rc_logs rc) [] s)
          as [[ts'|e] st']
    end.
    + simpl. intros [= <-]. by apply Hloop.
    + unfold bind, print, emit, ret. simpl. by intros [= <-].
  - unfold bind, print, emit, ret. simpl. by intros [= <-].
Qed.

End Transfers.

(** C3, as the code has it.  [_get_token_info] never raises, so no token
    lookup aborts the extraction: when the receipt is obtained and the
    data of its qualifying logs are unsigned 256-bit numbers, every
    qualifying log yields its transfer, in log order.  The fallback depends on what
    fails: while the [symbol()]/[decimals()] reads of a token that is not
    stored fail, its transfers carry symbol [UNKNOWN], decimals [0] and
    kind [ERC721]; while its contract handle cannot be built, they carry
    symbol [UNKNOWN], decimals [0] and kind [unknown]. *)
Theorem token_lookup_failure_fallback (up : Upstream) (chain : string) :
  (forall a st, exists info, (_get_token_info up chain a st).1 = Ok info)
  /\ (forall h st rc,
        up_get_receipt up (trace st) chain h = Ok rc ->
        Forall uint256_data (List.filter is_transfer_log (rc_logs rc)) ->
        exists ts,
          (get_token_transfers up chain h st).1 = Ok ts
          /\ Forall2 decodes (List.filter is_transfer_log (rc_logs rc)) ts)
  /\ (forall a h st ts,
        up_contract up a = Ok tt ->
        probe_fails up chain a ->
        token_cache st !! a = None ->
        (get_token_transfers up chain h st).1 = Ok ts ->
        Forall (fun t => tt_token_address t = a ->
                         token_fields t = erc721_fallback) ts)
  /\ (forall a e h st ts,
        up_contract up a = Raise e ->
        token_cache st !! a = None ->
        (get_token_transfers up chain h st).1 = Ok ts ->
        Forall (fun t => tt_token_address t = a ->
                         token_fields t = unknown_fallback) ts).
Proof.
  split; [apply _get_token_info_returns |].
  split; [| split].
  - intros h st rc Hrc Hall.
    unfold get_token_transfers, try_except, bind at 1, request. rewrite Hrc.
    match goal with
    | |- context [transfers_loop up chain (rc_logs rc) [] ?s] =>
        destruct (transfers_loop_all up chain (rc_logs rc) [] s Hall)
          as (ts & Ht & Hd);
        destruct (transfers_loop up chain (rc_logs rc) [] s) as [r st']
    end.
    simpl in Ht. subst r. by exists ts.
  - intros a h st ts Hc Hp E.
    apply (get_token_transfers_fields up chain a erc721_fallback
             (fun o => o = None \/ o = Some erc721_fallback)); [| by left].
    intros st0 H0.
    destruct (_get_token_info_probe_fails up chain a st0 Hc Hp H0).
    by split; [| right].
  - intros a e h st ts Hc E.
    apply (get_token_transfers_fields up chain a unknown_fallback
             (fun o => o = None)); [| done].
    intros st0 H0. by apply (_get_token_info_no_handle up chain a st0 e).
Qed.

Lemma token_lookup_failure_witness :
  Forall (fun t => tt_token_address t = token ->
                   token_fields t = erc721_fallback)
         match (get_token_transfers unverified "ethereum" (hash_of 0) empty_state).1
         with Ok ts => ts | Raise _ => [] end
  /\ exists ts,
       (get_token_transfers unverified "ethereum" (hash_of 0) empty_state).1 = Ok ts
       /\ Forall2 decodes (List.filter is_transfer_log (rc_logs transfer_receipt))
                  ts.
Proof.
  destruct (token_lookup_failure_fallback unverified "ethereum")
    as (_ & Hall & Hprobe & _).
  split.
  - apply (Hprobe token (hash_of 0) empty_state); try reflexivity.
    intros h. left. by eexists.
  - apply (Hall (hash_of 0) empty_state transfer_receipt); [reflexivity |].
    repeat constructor; eexists; (split; [reflexivity | done]).
Defined.

(** C3 as stated fails.  When [symbol()] reverts for the token of two
    [Transfer] logs, both transfers are decoded, but their kind is
    [ERC721], not [unknown]. *)
Lemma token_lookup_failure_counterexample :
  up_symbol unverified [EvGetReceipt "ethereum" (hash_of 0)] "ethereum" token
  = Raise (UpstreamError "execution reverted")
  /\ map is_transfer_log (rc_logs transfer_receipt) = [true; true]
  /\ match (get_token_transfers unverified "ethereum" (hash_of 0) empty_state).1
     with
     | Ok ts => map token_fields ts = [erc721_fallback; erc721_fallback]
     | Raise _ => False
     end
  /\ erc721_fallback <> unknown_fallback.
Proof. vm_compute. repeat split. discriminate. Qed.

(** ** The category of a transaction *)


Lemma has_key_CONTRACT_TYPES t :
  has_key t CONTRACT_TYPES = true ->
  In t (map fst CONTRACT_TYPES) /\ In (Str.lower t) contract_categories.
Proof.
  unfold has_key. rewrite existsb_exists.
  intros ([k v] & Hin & Hk). apply String.eqb_eq in Hk. simpl in Hk. subst k.
  simpl in Hin.
  repeat (destruct Hin as [[= <- <-]|Hin]; [vm_compute; tauto |]).
  destruct Hin.
Qed.

(** C8.  Let [ts] be the transfers [classify_transaction] extracts for
    the transaction.  If [ts] is not empty the category is
    [token_transfer], whatever the [to] address is.  If [ts] is empty and
    [to] is set, the category is the type of the contract information of
    [to], lower-cased, when that type is one of [CONTRACT_TYPES], and
    [unknown] otherwise.  If [ts] is empty and [to] is not set, the
    category is [unknown]. *)
Theorem category_precedence (up : Upstream) (chain tx_hash : string)
    (tx_receipt : Receipt) (st st1 : State) (ts : list TokenTransfer)
    (Hts : get_token_transfers up chain tx_hash st = (Ok ts, st1)) :
  (ts <> [] ->
   classify_transaction up chain tx_hash tx_receipt st
   = (Ok "token_transfer", st1))
  /\ (ts = [] ->
      forall to info st2,
        rc_to tx_receipt = Some to -> to <> "" ->
        get_contract_info up chain to st1 = (Ok info, st2) ->
        (has_key (ci_type info) CONTRACT_TYPES = true ->
         classify_transaction up chain tx_hash tx_receipt st
         = (Ok (Str.lower (ci_type info)), st2)
         /\ In (ci_type info) (map fst CONTRACT_TYPES)
         /\ In (Str.lower (ci_type info)) contract_categories)
        /\ (has_key (ci_type info) CONTRACT_TYPES = false ->
            classify_transaction up chain tx_hash tx_receipt st
            = (Ok "unknown", st2)))
  /\ (ts = [] ->
      Str.truthy (rc_to tx_receipt) = false ->
      classify_transaction up chain tx_hash tx_receipt st
      = (Ok "unknown", st1)).
Proof.
  assert (Hcl :
    classify_transaction up chain tx_hash tx_receipt st
    = (if (0 <? List.length ts)%nat then ret "token_transfer"
       else if Str.truthy (rc_to tx_receipt) then
         bind (get_contract_info up chain (Str.or_empty (rc_to tx_receipt)))
              (fun info =>
                 if has_key (ci_type info) CONTRACT_TYPES
                 then ret (Str.lower (ci_type info)) else ret "unknown")
       else ret "unknown") st1).
  { unfold classify_transaction, bind at 1. by rewrite Hts. }
  rewrite Hcl. clear Hcl.
  split; [| split].
  - intros Hne. by destruct ts.
  - intros -> to info st2 Hto Hne Hinfo.
    apply String.eqb_neq in Hne.
    unfold Str.truthy, Str.or_empty. rewrite Hto, Hne.
    cbn [List.length Nat.ltb Nat.leb negb]. unfold bind. rewrite Hinfo.
    split; intros Hk; rewrite Hk; [| done].
    split; [done |]. by apply has_key_CONTRACT_TYPES.
  - intros -> Hto. cbn [List.length Nat.ltb Nat.leb]. by rewrite Hto.
Qed.

Lemma category_precedence_witness :
  (get_contract_info swapping "ethereum" router empty_state).1
  = Ok {| ci_name := "UniswapV2Router02"; ci_verified := true;
          ci_type := "DEX" |}
  /\ (classify_transaction swapping "ethereum" (hash_of 0) transfer_receipt
        empty_state).1
     = Ok "token_transfer".
Proof.
  split; [vm_compute; reflexivity |].
  set (r := get_token_transfers swapping "ethereum" (hash_of 0) empty_state).
  assert (Hr : r = (Ok match r.1 with Ok ts => ts | Raise _ => [] end, r.2))
    by (vm_compute; reflexivity).
  destruct (category_precedence swapping "ethereum" (hash_of 0) transfer_receipt
              empty_state _ _ Hr) as [H _].
  rewrite H; [reflexivity | vm_compute; discriminate].
Defined.

(** ** The scanner: shape of the trace *)

Lemma analyzer_quiet ev : analyzer_event ev -> quiet ev.
Proof. by destruct ev. Qed.

Lemma quiet_block_fetches evs : Forall quiet evs -> block_fetches evs = [].
Proof.
  induction 1 as [|ev evs Hq _ IH]; [done |].
  unfold block_fetches in *. by destruct ev.
Qed.

Lemma quiet_block_delays evs : Forall quiet evs -> block_delays evs = [].
Proof.
  induction 1 as [|ev evs Hq _ IH]; [done |].
  unfold block_delays in *. by destruct ev as [[] ?| | | | | | |].
Qed.

Lemma log_events_log_event ev evs st :
  log_event ev (log_events evs st) = log_events (evs ++ [ev]) st.
Proof. unfold log_event, log_events. simpl. by rewrite app_assoc. Qed.

Lemma log_event_log_events ev st : log_event ev st = log_events [ev] st.
Proof. done. Qed.

Section Scanner.

Variable up : Upstream.
Variable wallet_addresses : list string.
Variable max_transactions : option Z.

#[local] Hint Resolve analyzer_quiet appends_get_token_transfers
  appends_classify_transaction appends_get_contract_info : steps.
#[local] Hint Extern 1 (quiet _) => exact I : steps.

Lemma appends_process tx receipt c a timestamp :
  steps (appends quiet)
        (_process_detailed_transaction up tx receipt c a timestamp).
Proof. unfold _process_detailed_transaction. steps_walk. Qed.

Lemma tx_loop_appends txs c a timestamp all st :
  appends quiet st
    (tx_loop up max_transactions txs c a timestamp all st).2.
Proof.
  revert all st. induction txs as [|tx txs IH]; intros all st; simpl.
  { reflexivity. }
  destruct (touches tx a); [| apply IH].
  match goal with
  | |- context [match ?m st with _ => _ end] =>
      assert (Hm : steps (appends quiet) m)
        by (unfold sleep; pose proof appends_process; steps_walk);
      specialize (Hm st); destruct (m st) as [[tx_data|e] st']
  end; simpl in *; [| done].
  assert (Hf : appends quiet st (log_event (EvPrint (PFound (tx_hash tx))) st')).
  { etrans; [exact Hm | by apply appends_one]. }
  destruct (limit_reached _ _); [done |].
  etrans; [exact Hf | apply IH].
Qed.

Lemma block_body_trace n c a all st :
  exists evs,
    Forall quiet evs
    /\ trace (block_body up max_transactions n c a all st).2
       = trace st ++ EvGetBlock c n :: evs.
Proof.
  unfold block_body, request.
  destruct (up_get_block up (trace st) c n) as [block|e]; simpl.
  - match goal with
    | |- context [tx_loop up max_transactions ?txs c a ?ts all ?s] =>
        destruct (tx_loop_appends txs c a ts all s) as (evs & Ht & Hq)
    end.
    exists evs. split; [done |]. rewrite Ht. simpl. by rewrite <- app_assoc.
  - by exists [].
Qed.

Lemma on_block_error_spec n e d st :
  let r := on_block_error n e d st in
  r.1 = (if throttling_signal e then Z.min 60000 (d * 2) else d)
  /\ r.2
     = log_events
         (EvPrint (PErrBlock n (str_exn e))
          :: (if throttling_signal e
              then [ EvPrint (PRateLimit (Z.min 60000 (d * 2)));
                     EvSleep Cooldown 10000 ]
              else [])) st.
Proof.
  unfold on_block_error, throttling_signal.
  destruct (Str.contains _ _); simpl; [| done].
  split; [done |].
  unfold log_event, log_events. simpl. by rewrite <- !app_assoc.
Qed.

(** One iteration of the block loop: the pause, the request for the
    block, then quiet events; the delay stays or escalates; the loop goes
    on with the blocks that follow, or the limit ends it. *)
Lemma block_loop_iteration n rest c a d all st :
  exists evs st' all',
    Forall quiet evs
    /\ trace st' = trace st ++ EvSleep BeforeBlock d :: EvGetBlock c n :: evs
    /\ (block_loop up max_transactions (n :: rest) c a d all st
          = (Limit all', st')
        \/ exists d',
             (d' = d \/ d' = Z.min 60000 (d * 2))
             /\ block_loop up max_transactions (n :: rest) c a d all st
                = block_loop up max_transactions rest c a d' all' st').
Proof.
  simpl.
  destruct (block_body_trace n c a all (log_event (EvSleep BeforeBlock d) st))
    as (evs & Hq & Ht).
  simpl in Ht. rewrite <- app_assoc in Ht. simpl in Ht.
  destruct (block_body up max_transactions n c a all _)
    as [[all'|all'|e all'] st']; simpl in Ht.
  - exists evs, st', all'. split; [done |]. split; [done |].
    right. exists d. by split; [left |].
  - exists evs, st', all'. split; [done |]. split; [done |]. by left.
  - destruct (on_block_error_spec n e d st') as [Hd Hs].
    destruct (on_block_error n e d st') as [d' st'']. simpl in Hd, Hs.
    eexists (evs ++ _), st'', all'. split; [| split].
    + apply Forall_app. split; [done |].
      instantiate (1 := EvPrint (PErrBlock n (str_exn e))
                       :: (if throttling_signal e
                           then [ EvPrint (PRateLimit (Z.min 60000 (d * 2)));
                                  EvSleep Cooldown 10000 ]
                           else [])).
      destruct (throttling_signal e); repeat constructor.
    + rewrite Hs. unfold log_events. simpl. rewrite Ht.
      by rewrite <- app_assoc.
    + right. exists d'. split; [| done].
      rewrite Hd. destruct (throttling_signal e); auto.
Qed.

Lemma block_fetches_iteration d c n evs evs' :
  Forall quiet evs ->
  block_fetches (EvSleep BeforeBlock d :: EvGetBlock c n :: evs ++ evs')
  = (c, n) :: block_fetches evs'.
Proof.
  intros Hq. pose proof (quiet_block_fetches _ Hq) as H.
  unfold block_fetches in *. simpl. by rewrite omap_app, H.
Qed.

Lemma block_delays_iteration d c n evs evs' :
  Forall quiet evs ->
  block_delays (EvSleep BeforeBlock d :: EvGetBlock c n :: evs ++ evs')
  = d :: block_delays evs'.
Proof.
  intros Hq. pose proof (quiet_block_delays _ Hq) as H.
  unfold block_delays in *. simpl. by rewrite omap_app, H.
Qed.

(** The block loop asks for a prefix of its blocks, in their order, each
    after one pause; the pauses start at the delay it is entered with and
    escalate; it asks for all the blocks unless the limit ends it. *)
Lemma block_loop_spec blocks c a d all st :
  exists evs k,
    trace (block_loop up max_transactions blocks c a d all st).2
    = trace st ++ evs
    /\ (k <= List.length blocks)%nat
    /\ block_fetches evs = map (pair c) (take k blocks)
    /\ List.length (block_delays evs) = k
    /\ escalates d (block_delays evs)
    /\ (blocks <> [] -> (0 < k)%nat)
    /\ (forall all',
          (block_loop up max_transactions blocks c a d all st).1
          = Completed all' -> k = List.length blocks).
Proof.
  revert d all st. induction blocks as [|n rest IH]; intros d all st.
  { exists [], 0%nat. simpl. rewrite app_nil_r. repeat split; done || lia. }
  destruct (block_loop_iteration n rest c a d all st)
    as (evs & st' & all' & Hq & Ht & [Hl | (d' & Hd & Hl)]); rewrite Hl.
  - exists (EvSleep BeforeBlock d :: EvGetBlock c n :: evs), 1%nat.
    rewrite <- (app_nil_r evs).
    rewrite block_fetches_iteration, block_delays_iteration by done.
    simpl. repeat split; try done; try lia; auto.
    by rewrite app_nil_r.
  - destruct (IH d' all' st')
      as (evs' & k & Ht' & Hk & Hf & Hn & He & _ & Hc).
    exists (EvSleep BeforeBlock d :: EvGetBlock c n :: evs ++ evs'), (S k).
    rewrite block_fetches_iteration, block_delays_iteration by done.
    simpl. repeat split.
    + rewrite Ht', Ht, <- app_assoc. done.
    + lia.
    + by rewrite Hf.
    + by rewrite Hn.
    + destruct Hd as [-> | ->]; auto.
    + lia.
    + intros all'' H. by rewrite (Hc all'' H).
Qed.

(** With a delay between 0 and the cap, a run of escalating delays is
    non-decreasing and stays between the first delay and the cap. *)
Lemma escalates_sorted d l :
  0 <= d <= 60000 -> escalates d l ->
  StronglySorted Z.le l /\ Forall (fun x => d <= x <= 60000) l.
Proof.
  revert d. induction l as [|x l IH]; intros d Hd; simpl.
  { intros _. split; constructor. }
  intros [-> [H | H]].
  - destruct (IH d Hd H) as [Hs Hb].
    split; constructor; try done; try lia.
    eapply Forall_impl; [exact Hb |]. simpl. lia.
  - destruct (IH (Z.min 60000 (d * 2)) ltac:(lia) H) as [Hs Hb].
    split; constructor; try done; try lia.
    + eapply Forall_impl; [exact Hb |]. simpl. lia.
    + eapply Forall_impl; [exact Hb |]. simpl. lia.
Qed.

(** [range_desc e s] is [e, e - 1, ..., s]. *)
Lemma range_desc_cons e s :
  s <= e -> range_desc e s = e :: range_desc (e - 1) s.
Proof.
  intros H. unfold range_desc.
  replace (Z.to_nat (e - s + 1)) with (S (Z.to_nat (e - 1 - s + 1))) by lia.
  rewrite <- cons_seq, <- seq_shift, map_cons, map_map.
  f_equal; [simpl; lia |]. apply map_ext. intros i. lia.
Qed.

Lemma range_desc_nil e s : e < s -> range_desc e s = [].
Proof.
  intros H. unfold range_desc.
  by replace (Z.to_nat (e - s + 1)) with 0%nat by lia.
Qed.

Lemma range_desc_length e s :
  List.length (range_desc e s) = Z.to_nat (e - s + 1).
Proof. unfold range_desc. by rewrite length_map, length_seq. Qed.

Lemma range_desc_take k e s :
  (k <= Z.to_nat (e - s + 1))%nat ->
  take k (range_desc e s) = map (fun i => e - Z.of_nat i) (seq 0 k).
Proof.
  intros H. unfold range_desc.
  rewrite firstn_map, take_seq. do 2 f_equal. lia.
Qed.

Lemma block_fetches_NoDup (c : string) (e : Z) (k : nat) :
  NoDup (map (fun i => (c, e - Z.of_nat i)) (seq 0 k)).
Proof.
  change (NoDup ((fun i => (c, e - Z.of_nat i)) <$> seq 0 k)).
  apply NoDup_fmap_2; [| apply NoDup_seq].
  intros i j [= H]. lia.
Qed.

(** C6, as the code has it: within the scan of one watched address on one
    chain the block requests are for [end], [end - 1], ... in this order,
    one request per height, down to [start] unless the limit ends the
    scan before. *)
Theorem scan_visits_descending (c a : string) (s e : Z)
    (all : list TxData) (st : State) :
  exists evs k,
    trace (scan_address up max_transactions c a s e all st).2
    = trace st ++ evs
    /\ (k <= Z.to_nat (e - s + 1))%nat
    /\ block_fetches evs = map (fun i => (c, e - Z.of_nat i)) (seq 0 k)
    /\ NoDup (block_fetches evs)
    /\ (s <= e -> (0 < k)%nat)
    /\ (forall all',
          (scan_address up max_transactions c a s e all st).1
          = Completed all' -> k = Z.to_nat (e - s + 1)).
Proof.
  unfold scan_address.
  destruct (block_loop_spec (range_desc e s) c a 200 all
              (log_event (EvPrint (PProcessing c a)) st))
    as (evs & k & Ht & Hk & Hf & _ & _ & Hpos & Hc).
  rewrite range_desc_length in Hk, Hc.
  rewrite range_desc_take, map_map in Hf by done.
  exists (EvPrint (PProcessing c a) :: evs), k.
  assert (Hf' : block_fetches (EvPrint (PProcessing c a) :: evs)
                = map (fun i => (c, e - Z.of_nat i)) (seq 0 k)) by done.
  rewrite Hf'. repeat split; try done.
  - rewrite Ht. simpl. by rewrite <- app_assoc.
  - apply block_fetches_NoDup.
  - intros Hse. apply Hpos. rewrite range_desc_cons by done. done.
Qed.

(** C7, as the code has it: within the scan of one watched address the
    pauses before the block requests start at the base of 200 ms, then
    stay or are doubled up to the cap, so they never decrease and stay
    between the base and the cap.  The delay of the scan of one address
    is not carried over to the next: each scan starts at the base. *)
Theorem delay_escalates_within_address_scan (c a : string) (s e : Z)
    (all : list TxData) (st : State) :
  exists evs,
    trace (scan_address up max_transactions c a s e all st).2
    = trace st ++ evs
    /\ escalates 200 (block_delays evs)
    /\ StronglySorted Z.le (block_delays evs)
    /\ Forall (fun d => 200 <= d <= 60000) (block_delays evs)
    /\ (s <= e -> head (block_delays evs) = Some 200).
Proof.
  unfold scan_address.
  destruct (block_loop_spec (range_desc e s) c a 200 all
              (log_event (EvPrint (PProcessing c a)) st))
    as (evs & k & Ht & _ & _ & Hn & He & Hpos & _).
  exists (EvPrint (PProcessing c a) :: evs).
  assert (Hd : block_delays (EvPrint (PProcessing c a) :: evs)
               = block_delays evs) by done.
  rewrite Hd.
  destruct (escalates_sorted 200 (block_delays evs) ltac:(lia) He)
    as [Hs Hb].
  repeat split; try done.
  - rewrite Ht. simpl. by rewrite <- app_assoc.
  - intros Hse.
    assert (0 < k)%nat by (apply Hpos; by rewrite range_desc_cons).
    destruct (block_delays evs) as [|x l]; simpl in *; [lia |].
    by destruct He as [-> _].
Qed.

(** A block whose request is refused with the throttling signal: the
    delay is doubled up to the cap, the cooldown pause is taken, and the
    loop goes on with the blocks that follow. *)
Lemma block_loop_throttled n rest c a d all st e :
  up_get_block up (trace st ++ [EvSleep BeforeBlock d]) c n = Raise e ->
  throttling_signal e = true ->
  block_loop up max_transactions (n :: rest) c a d all st
  = block_loop up max_transactions rest c a (Z.min 60000 (d * 2)) all
      (log_events
         [ EvSleep BeforeBlock d; EvGetBlock c n;
           EvPrint (PErrBlock n (str_exn e));
           EvPrint (PRateLimit (Z.min 60000 (d * 2)));
           EvSleep Cooldown 10000 ] st).
Proof.
  intros Hb He. simpl. unfold block_body, request. simpl. rewrite Hb.
  destruct (on_block_error_spec n e d
              (log_event (EvGetBlock c n)
                 (log_event (EvSleep BeforeBlock d) st))) as [Hd Hs].
  destruct (on_block_error n e d _) as [d' st']. simpl in Hd, Hs.
  rewrite He in Hd, Hs. subst d' st'.
  f_equal. unfold log_events, log_event. simpl. by rewrite <- !app_assoc.
Qed.

(** A block that is processed without an exception and without reaching
    the limit leaves the delay as it is. *)
Lemma block_loop_next n rest c a d all st all' st' :
  block_body up max_transactions n c a all
    (log_event (EvSleep BeforeBlock d) st) = (Next all', st') ->
  block_loop up max_transactions (n :: rest) c a d all st
  = block_loop up max_transactions rest c a d all' st'.
Proof. intros H. simpl. by rewrite H. Qed.

(** C4.  Whenever the request for a block is refused with the throttling
    signal, the block loop doubles the delay up to the cap of 60 s, takes
    the cooldown pause of 10 s, and goes on with the next lower block
    without asking for the refused one again.  In the scan of an address
    over at least four blocks, when the first two blocks are processed
    without an exception and without reaching the limit and the request
    for the third is refused with the throttling signal, the pauses
    before the first three requests are 200 ms and the pause before the
    fourth is 400 ms, taken after the cooldown pause. *)
Theorem rate_limit_doubles_delay (c a : string) :
  (forall n rest d all st e,
     up_get_block up (trace st ++ [EvSleep BeforeBlock d]) c n = Raise e ->
     throttling_signal e = true ->
     ~ In n rest ->
     block_loop up max_transactions (n :: rest) c a d all st
     = block_loop up max_transactions rest c a (Z.min 60000 (d * 2)) all
         (log_events
            [ EvSleep BeforeBlock d; EvGetBlock c n;
              EvPrint (PErrBlock n (str_exn e));
              EvPrint (PRateLimit (Z.min 60000 (d * 2)));
              EvSleep Cooldown 10000 ] st)
     /\ ~ In (c, n)
          (block_fetches
             (drop (List.length (trace st) + 5)
                (trace (block_loop up max_transactions (n :: rest) c a d
                          all st).2))))
  /\ (forall s e all st all1 st1 all2 st2 err,
        s + 3 <= e ->
        block_body up max_transactions e c a all
          (log_event (EvSleep BeforeBlock 200)
             (log_event (EvPrint (PProcessing c a)) st))
        = (Next all1, st1) ->
        block_body up max_transactions (e - 1) c a all1
          (log_event (EvSleep BeforeBlock 200) st1)
        = (Next all2, st2) ->
        up_get_block up (trace st2 ++ [EvSleep BeforeBlock 200]) c (e - 2)
        = Raise err ->
        throttling_signal err = true ->
        exists evs before after,
          trace (scan_address up max_transactions c a s e all st).2
          = trace st ++ evs
          /\ take 4 (block_fetches evs)
             = [(c, e); (c, e - 1); (c, e - 2); (c, e - 3)]
          /\ take 4 (block_delays evs) = [200; 200; 200; 400]
          /\ evs
             = before
               ++ [ EvSleep BeforeBlock 200; EvGetBlock c (e - 2);
                    EvPrint (PErrBlock (e - 2) (str_exn err));
                    EvPrint (PRateLimit 400);
                    EvSleep Cooldown 10000;
                    EvSleep BeforeBlock 400; EvGetBlock c (e - 3) ]
               ++ after
          /\ block_fetches before = [(c, e); (c, e - 1)]
          /\ block_delays before = [200; 200]).
Proof.
  split.
  - intros n rest d all st e Hb He Hnot.
    rewrite (block_loop_throttled n rest c a d all st e Hb He).
    split; [done |].
    match goal with
    | |- context [block_loop up max_transactions rest c a ?d' all ?s] =>
        destruct (block_loop_spec rest c a d' all s)
          as (evs & k & Ht & _ & Hf & _)
    end.
    rewrite Ht. simpl. rewrite drop_app_length'.
    2: { rewrite length_app. simpl. lia. }
    rewrite Hf. intros Hin. apply in_map_iff in Hin as (n' & [= ->] & Hin).
    apply Hnot. apply list_elem_of_In.
    apply (subseteq_take k rest). by apply list_elem_of_In.
  - intros s e all st all1 st1 all2 st2 err Hse H1 H2 H3 Herr.
    unfold scan_address.
    rewrite (range_desc_cons e s), (range_desc_cons (e - 1) s),
      (range_desc_cons (e - 1 - 1) s), (range_desc_cons (e - 1 - 1 - 1) s)
      by lia.
    replace (e - 1 - 1) with (e - 2) by lia.
    replace (e - 2 - 1) with (e - 3) by lia.
    set (rest := range_desc (e - 3 - 1) s).
    destruct (block_body_trace e c a all
                (log_event (EvSleep BeforeBlock 200)
                   (log_event (EvPrint (PProcessing c a)) st)))
      as (evs1 & Hq1 & Ht1).
    destruct (block_body_trace (e - 1) c a all1
                (log_event (EvSleep BeforeBlock 200) st1))
      as (evs2 & Hq2 & Ht2).
    rewrite H1 in Ht1. rewrite H2 in Ht2. simpl in Ht1, Ht2.
    rewrite (block_loop_next _ _ _ _ _ _ _ _ _ H1).
    rewrite (block_loop_next _ _ _ _ _ _ _ _ _ H2).
    rewrite (block_loop_throttled (e - 2) _ c a 200 all2 st2 err H3 Herr).
    change (Z.min 60000 (200 * 2)) with 400.
    match goal with
    | |- context [block_loop up max_transactions (e - 3 :: rest) c a 400
                    all2 ?s] =>
        destruct (block_loop_iteration (e - 3) rest c a 400 all2 s)
          as (evs4 & st4 & all4 & Hq4 & Ht4 & Hl);
        assert (Hfin : exists evs5,
                  trace (block_loop up max_transactions (e - 3 :: rest)
                           c a 400 all2 s).2 = trace st4 ++ evs5)
    end.
    { destruct Hl as [-> | (d' & _ & ->)].
      - exists []. by rewrite app_nil_r.
      - destruct (block_loop_spec rest c a d' all4 st4)
          as (evs5 & k & Ht5 & _).
        by exists evs5. }
    destruct Hfin as (evs5 & ->). rewrite Ht4. simpl. rewrite Ht2, Ht1.
    simpl.
    set (before := EvPrint (PProcessing c a) :: EvSleep BeforeBlock 200
                   :: EvGetBlock c e :: evs1
                   ++ EvSleep BeforeBlock 200 :: EvGetBlock c (e - 1)
                   :: evs2).
    set (middle := [ EvSleep BeforeBlock 200; EvGetBlock c (e - 2);
                     EvPrint (PErrBlock (e - 2) (str_exn err));
                     EvPrint (PRateLimit 400);
                     EvSleep Cooldown 10000;
                     EvSleep BeforeBlock 400; EvGetBlock c (e - 3) ]).
    assert (Hbf : block_fetches before = [(c, e); (c, e - 1)]).
    { unfold before.
      change (block_fetches (EvPrint ?p :: ?l)) with (block_fetches l).
      rewrite block_fetches_iteration by done.
      rewrite <- (app_nil_r evs2).
      by rewrite block_fetches_iteration by done. }
    assert (Hbd : block_delays before = [200; 200]).
    { unfold before.
      change (block_delays (EvPrint ?p :: ?l)) with (block_delays l).
      rewrite block_delays_iteration by done.
      rewrite <- (app_nil_r evs2).
      by rewrite block_delays_iteration by done. }
    exists (before ++ middle ++ evs4 ++ evs5), before, (evs4 ++ evs5).
    repeat split; try done.
    + unfold before, middle. rewrite <- ?app_assoc. simpl.
      by rewrite <- ?app_assoc.
    + unfold block_fetches in *. rewrite omap_app, Hbf. done.
    + unfold block_delays in *. rewrite omap_app, Hbd. done.
Qed.


End Scanner.

(** ** The limit on the number of rows *)

Lemma bind_ok {A B : Type} (m : M A) (k : A -> M B) st r st' :
  bind m k st = (Ok r, st') ->
  exists a st1, m st = (Ok a, st1) /\ k a st1 = (Ok r, st').
Proof.
  unfold bind. destruct (m st) as [[a|e] st1]; [| done].
  intros H. by exists a, st1.
Qed.

Ltac bind_inv H :=
  let a := fresh "a" in
  let s := fresh "s" in
  let E := fresh "E" in
  apply bind_ok in H as (a & s & E & H).

Lemma process_hash up tx receipt c a timestamp st r st' :
  _process_detailed_transaction up tx receipt c a timestamp st = (Ok r, st') ->
  td_hash r = tx_hash tx.
Proof.
  unfold _process_detailed_transaction. intros H.
  do 5 bind_inv H. by injection H as <- _.
Qed.

Section Limit.

Variable up : Upstream.
Variable wallet_addresses : list string.
Variable k : Z.
Hypothesis k_pos : 0 < k.

#[local] Abbreviation under all := (Z.of_nat (List.length all) < k).

Lemma tx_loop_limit txs c a timestamp all st :
  under all ->
  match tx_loop up (Some k) txs c a timestamp all st with
  | (Next all', _) | (Raised _ all', _) => under all'
  | (Returned all', st') =>
      Z.of_nat (List.length all') = k /\ ends_with_found all' (trace st')
  end.
Proof.
  revert all st. induction txs as [|tx txs IH]; intros all st Hall; simpl.
  { done. }
  destruct (touches tx a); [| by apply IH].
  match goal with
  | |- context [match ?m st with _ => _ end] =>
      destruct (m st) as [[tx_data|e] st'] eqn:E
  end; [| done].
  do 2 bind_inv E. apply process_hash in E.
  unfold limit_reached. rewrite length_app. simpl.
  destruct (Z.eqb_spec k 0) as [? | _]; [lia |]. simpl.
  match goal with
  | |- context [k <=? ?x] => destruct (Z.leb_spec k x)
  end.
  - split; [rewrite length_app; simpl; lia |].
    exists (trace st'), tx_data. rewrite E. split; [done |].
    apply last_snoc.
  - apply IH. rewrite length_app. simpl. lia.
Qed.

Lemma block_loop_limit blocks c a d all st :
  under all ->
  let r := block_loop up (Some k) blocks c a d all st in
  within_limit k r.1 (trace r.2).
Proof.
  revert d all st. induction blocks as [|n rest IH]; intros d all st Hall.
  { done. }
  simpl. unfold block_body, request.
  destruct (up_get_block up _ c n) as [block|e].
  - match goal with
    | |- context [tx_loop up (Some k) ?txs c a ?ts all ?s] =>
        pose proof (tx_loop_limit txs c a ts all s Hall) as Htx;
        destruct (tx_loop up (Some k) txs c a ts all s)
          as [[all'|all'|e all'] st']
    end.
    + by apply IH.
    + done.
    + destruct (on_block_error n e d st') as [d' st'']. by apply IH.
  - destruct (on_block_error n e d _) as [d' st'']. by apply IH.
Qed.

Lemma address_loop_limit addresses c s e all st :
  under all ->
  let r := address_loop up (Some k) addresses c s e all st in
  within_limit k r.1 (trace r.2).
Proof.
  revert all st. induction addresses as [|a rest IH]; intros all st Hall.
  { done. }
  simpl. destruct (up_is_address up a); [| by apply IH].
  unfold scan_address.
  match goal with
  | |- context [block_loop up (Some k) ?bs c a ?d all ?s0] =>
      pose proof (block_loop_limit bs c a d all s0 Hall) as Hb;
      destruct (block_loop up (Some k) bs c a d all s0) as [[all'|all'] st']
  end; simpl in Hb.
  - by apply IH.
  - done.
Qed.

Lemma chain_loop_limit connections start_block end_block all tr rows tr' :
  under all ->
  chain_loop up wallet_addresses (Some k) connections start_block end_block
    all tr = (Ok rows, tr') ->
  Z.of_nat (List.length rows) <= k
  /\ (Z.of_nat (List.length rows) = k -> ends_with_found rows tr').
Proof.
  revert start_block end_block all tr.
  induction connections as [|[c an] rest IH];
    intros start_block end_block all tr Hall; simpl.
  { intros [= <- <-]. lia. }
  assert (Hstep : forall s e tr1,
    match
      address_loop up (Some k) wallet_addresses c s e all
        {| trace := tr1; contract_cache := an_contract_cache an;
           token_cache := an_token_cache an |}
    with
    | (Completed all', st') =>
        chain_loop up wallet_addresses (Some k) rest (Some s) (Some e) all'
          (trace st')
    | (Limit all', st') => (Ok all', trace st')
    end = (Ok rows, tr') ->
    Z.of_nat (List.length rows) <= k
    /\ (Z.of_nat (List.length rows) = k -> ends_with_found rows tr')).
  { intros s e tr1.
    pose proof (address_loop_limit wallet_addresses c s e all
                  {| trace := tr1; contract_cache := an_contract_cache an;
                     token_cache := an_token_cache an |} Hall) as Ha.
    destruct (address_loop up (Some k) wallet_addresses c s e all _)
      as [[all'|all'] st']; simpl in Ha.
    - by apply IH.
    - intros [= <- <-]. destruct Ha as [Hk Hf]. split; [lia | done]. }
  destruct end_block as [e|]; [apply Hstep |].
  destruct (up_block_number up tr c) as [e|err]; [apply Hstep | done].
Qed.

End Limit.

(** C5.  With a positive limit [k] the returned frame has at most [k]
    rows; when it has [k] rows the scan was ended by the limit, and the
    last thing that happened is the line printed right after the last
    row was appended: no block or receipt was requested after the row
    was produced. *)
Theorem limit_is_respected (up : Upstream) (wallet_addresses : list string)
    (k : Z) (connections : list (string * Analyzer))
    (start_block end_block : option Z) (tr tr' : list event)
    (rows : list TxData)
    (Hk : 0 < k)
    (Hrun : fetch_detailed_transactions up wallet_addresses (Some k)
              connections start_block end_block tr = (Ok rows, tr')) :
  Z.of_nat (List.length rows) <= k
  /\ (Z.of_nat (List.length rows) = k -> ends_with_found rows tr').
Proof.
  eapply chain_loop_limit; [exact Hk | | exact Hrun]. simpl. lia.
Qed.

Lemma limit_is_respected_witness :
  0 < 3
  /\ (Z.of_nat
        (List.length
           match
             (fetch_detailed_transactions (busy 2) [watched] (Some 3)
                [("ethereum", fresh)] (Some 4) (Some 5) []).1
           with
           | Ok rows => rows
           | Raise _ => []
           end) <= 3).
Proof.
  split; [lia |].
  destruct (fetch_detailed_transactions (busy 2) [watched] (Some 3)
              [("ethereum", fresh)] (Some 4) (Some 5) [])
    as [[rows|e] tr] eqn:E; [| simpl; lia].
  apply (limit_is_respected (busy 2) [watched] 3 [("ethereum", fresh)]
           (Some 4) (Some 5) [] tr rows); [lia | exact E].
Defined.

(** ** A limit of zero *)

Section Zero.

Variable up : Upstream.
Variable wallet_addresses : list string.

Lemma tx_loop_zero txs c a timestamp all st :
  tx_loop up (Some 0) txs c a timestamp all st
  = tx_loop up None txs c a timestamp all st.
Proof.
  revert all st. induction txs as [|tx txs IH]; intros all st; simpl;
    [done |].
  destruct (touches tx a); [| apply IH].
  match goal with
  | |- context [match ?m st with _ => _ end] =>
      destruct (m st) as [[tx_data|e] st']
  end; [apply IH | done].
Qed.

Lemma block_loop_zero blocks c a d all st :
  block_loop up (Some 0) blocks c a d all st
  = block_loop up None blocks c a d all st.
Proof.
  revert d all st. induction blocks as [|n rest IH]; intros d all st; simpl;
    [done |].
  unfold block_body.
  destruct (request _ _ _) as [[block|e] st'].
  - rewrite tx_loop_zero.
    destruct (tx_loop up None _ c a _ all st') as [[all'|all'|e all'] st''];
      [apply IH | done |].
    destruct (on_block_error n e d st''). apply IH.
  - destruct (on_block_error n e d st'). apply IH.
Qed.

Lemma address_loop_zero addresses c s e all st :
  address_loop up (Some 0) addresses c s e all st
  = address_loop up None addresses c s e all st.
Proof.
  revert all st. induction addresses as [|a rest IH]; intros all st; simpl;
    [done |].
  destruct (up_is_address up a); [| apply IH].
  unfold scan_address. rewrite block_loop_zero.
  destruct (block_loop up None _ c a 200 all _) as [[all'|all'] st'];
    [apply IH | done].
Qed.

Lemma chain_loop_zero connections start_block end_block all tr :
  chain_loop up wallet_addresses (Some 0) connections start_block end_block
    all tr
  = chain_loop up wallet_addresses None connections start_block end_block
      all tr.
Proof.
  revert start_block end_block all tr.
  induction connections as [|[c an] rest IH];
    intros start_block end_block all tr; simpl; [done |].
  destruct (match end_block with Some _ => _ | None => _ end)
    as [[e|err] tr1]; [| done].
  rewrite address_loop_zero.
  destruct (address_loop up None wallet_addresses c _ e all _)
    as [[all'|all'] st']; [apply IH | done].
Qed.

End Zero.

(** ** Computations that never raise *)

Section Total.

Context {A B : Type}.

Lemma total_ret (a : A) : total (ret a).
Proof. intros st. by exists a. Qed.

Lemma total_bind (m : M A) (k : A -> M B) :
  total m -> (forall a, total (k a)) -> total (bind m k).
Proof.
  intros Hm Hk st. unfold bind. destruct (Hm st) as [a Ha].
  destruct (m st) as [r st1]. simpl in Ha. subst r. apply Hk.
Qed.

Lemma total_try (m : M A) (h : exn -> M A) :
  (forall e, total (h e)) -> total (try_except m h).
Proof.
  intros Hh st. unfold try_except.
  destruct (m st) as [[a|e] st1]; [by exists a | apply Hh].
Qed.

Lemma total_emit ev : total (emit ev).
Proof. intros st. by exists tt. Qed.

End Total.

Lemma total_get_token_transfers up c h : total (get_token_transfers up c h).
Proof.
  unfold get_token_transfers. apply total_try. intros e.
  apply total_bind; [apply total_emit | intros _; apply total_ret].
Qed.

Lemma total_get_contract_info up c a : total (get_contract_info up c a).
Proof. intros st. apply get_contract_info_returns. Qed.

Lemma total_classify_transaction up c h rc :
  total (classify_transaction up c h rc).
Proof.
  unfold classify_transaction.
  apply total_bind; [apply total_get_token_transfers |].
  intros ts. destruct (0 <? _)%nat; [apply total_ret |].
  destruct (Str.truthy _); [| apply total_ret].
  apply total_bind; [apply total_get_contract_info |].
  intros info. destruct (has_key _ _); apply total_ret.
Qed.

(** In the world [busy n] every payment of the watched address is turned
    into a row. *)
Lemma busy_payment_row n h i st :
  exists r st',
    (sleep BeforeReceipt 100 ;;
     receipt <- request (EvGetReceipt "ethereum" (tx_hash (payment h i)))
                  (fun tr => up_get_receipt (busy n) tr "ethereum"
                               (tx_hash (payment h i))) ;;
     _process_detailed_transaction (busy n) (payment h i) receipt "ethereum"
       watched 1700000000)%monad st = (Ok r, st').
Proof.
  match goal with
  | |- exists r st', ?m st = _ =>
      assert (Hm : total m); [| destruct (Hm st) as [r Hr];
                                destruct (m st) as [r' st'];
                                simpl in Hr; subst r'; by exists r, st']
  end.
  apply total_bind; [apply total_emit | intros _].
  apply total_bind; [intros s; by eexists | intros rc].
  unfold _process_detailed_transaction.
  apply total_bind; [apply total_get_token_transfers | intros ts].
  apply total_bind; [apply total_classify_transaction | intros ty].
  apply total_bind; [intros s; by eexists | intros cf].
  apply total_bind; [intros s; by eexists | intros ct].
  apply total_bind; [| intros ci; apply total_ret].
  simpl. apply total_bind; [apply total_get_contract_info |].
  intros info. apply total_ret.
Qed.

Lemma busy_tx_loop n h (indices : list nat) all st :
  exists all' st',
    tx_loop (busy n) None (map (payment h) indices) "ethereum" watched
      1700000000 all st = (Next all', st')
    /\ List.length all' = (List.length all + List.length indices)%nat.
Proof.
  revert all st. induction indices as [|i indices IH]; intros all st.
  { exists all, st. simpl. split; [done | lia]. }
  cbn [map tx_loop].
  change (touches (payment h i) watched) with true. cbv iota.
  destruct (busy_payment_row n h i st) as (r & st' & ->).
  cbn [limit_reached].
  destruct (IH (all ++ [r])
              (log_event (EvPrint (PFound (tx_hash (payment h i)))) st'))
    as (all' & st'' & -> & Hlen).
  exists all', st''. split; [done |].
  rewrite Hlen, length_app. simpl. lia.
Qed.

(** C9.  A limit of zero is no limit: the scan with [max_transactions = 0]
    is the scan with [max_transactions = None], and it can return any
    number of rows: for every [n] there is a chain, with [n] transactions
    of the watched address in one block, on which it returns [n] rows. *)
Theorem zero_limit_is_no_limit :
  (forall up wallet_addresses connections start_block end_block tr,
     fetch_detailed_transactions up wallet_addresses (Some 0) connections
       start_block end_block tr
     = fetch_detailed_transactions up wallet_addresses None connections
         start_block end_block tr)
  /\ (forall n : nat,
        exists rows tr,
          fetch_detailed_transactions (busy n) [watched] (Some 0)
            [("ethereum", fresh)] (Some 5) (Some 5) [] = (Ok rows, tr)
          /\ List.length rows = n).
Proof.
  split.
  - intros. apply chain_loop_zero.
  - intros n. unfold fetch_detailed_transactions. rewrite chain_loop_zero.
    cbn [chain_loop address_loop]. change (up_is_address (busy n) watched) with true.
    cbv iota. unfold scan_address.
    change (range_desc 5 5) with [5]. cbn [block_loop].
    unfold block_body, request.
    change (up_get_block (busy n) ?t "ethereum" 5)
      with (Ok {| blk_timestamp := 1700000000;
                  blk_transactions := map (payment 5) (seq 0 n) |}).
    cbv iota. cbn [blk_transactions blk_timestamp].
    match goal with
    | |- context [tx_loop (busy n) None _ _ _ _ [] ?s] =>
        destruct (busy_tx_loop n 5 (seq 0 n) [] s)
          as (all' & st' & -> & Hlen)
    end.
    exists all', (trace st'). rewrite length_seq in Hlen. by split.
Qed.

(** ** The default block range *)

Lemma quiet_in_range chains s e ev : quiet ev -> in_range chains s e ev.
Proof. by destruct ev. Qed.

Lemma in_range_cons c chains s e ev :
  in_range chains s e ev -> in_range (c :: chains) s e ev.
Proof. destruct ev; simpl; tauto. Qed.

Lemma range_desc_bounds e s : Forall (fun n => s <= n <= e) (range_desc e s).
Proof.
  unfold range_desc. apply List.Forall_forall. intros n Hin.
  apply in_map_iff in Hin as (i & <- & Hi). apply in_seq in Hi. lia.
Qed.

Section Range.

Variable up : Upstream.
Variable wallet_addresses : list string.
Variable max_transactions : option Z.

Lemma block_loop_in_range chains s e blocks c a d all st :
  In c chains ->
  Forall (fun n => s <= n <= e) blocks ->
  appends (in_range chains s e) st
    (block_loop up max_transactions blocks c a d all st).2.
Proof.
  intros Hc. revert d all st.
  induction blocks as [|n rest IH]; intros d all st Hb.
  { reflexivity. }
  apply Forall_cons in Hb as [Hn Hrest].
  destruct (block_loop_iteration up max_transactions n rest c a d all st)
    as (evs & st' & all' & Hq & Ht & Hl).
  assert (Hstep : appends (in_range chains s e) st st').
  { eexists. split; [exact Ht |].
    constructor; [exact I |]. constructor; [by split |].
    eapply Forall_impl; [exact Hq |]. apply quiet_in_range. }
  destruct Hl as [-> | (d' & _ & ->)]; [done |].
  etrans; [exact Hstep | by apply IH].
Qed.

Lemma address_loop_in_range chains s e addresses c all st :
  In c chains ->
  appends (in_range chains s e) st
    (address_loop up max_transactions addresses c s e all st).2.
Proof.
  intros Hc. revert all st.
  induction addresses as [|a rest IH]; intros all st; simpl.
  { reflexivity. }
  destruct (up_is_address up a).
  - unfold scan_address.
    pose proof (block_loop_in_range chains s e (range_desc e s) c a 200 all
                  (log_event (EvPrint (PProcessing c a)) st) Hc
                  (range_desc_bounds e s)) as Hb.
    destruct (block_loop up max_transactions _ c a 200 all _)
      as [[all'|all'] st']; simpl in Hb.
    + etrans; [| apply IH]. etrans; [| exact Hb]. by apply appends_one.
    + etrans; [| exact Hb]. by apply appends_one.
  - etrans; [| apply IH]. by apply appends_one.
Qed.

Lemma chain_loop_in_range connections s e all tr :
  exists evs,
    (chain_loop up wallet_addresses max_transactions connections (Some s)
       (Some e) all tr).2 = tr ++ evs
    /\ Forall (in_range (map fst connections) s e) evs.
Proof.
  revert all tr. induction connections as [|[c an] rest IH]; intros all tr.
  { exists []. simpl. by rewrite app_nil_r. }
  simpl.
  pose proof (address_loop_in_range (c :: map fst rest) s e wallet_addresses
                c all
                {| trace := tr; contract_cache := an_contract_cache an;
                   token_cache := an_token_cache an |} (or_introl eq_refl))
    as (evs & Ht & Hf).
  destruct (address_loop up max_transactions wallet_addresses c s e all _)
    as [[all'|all'] st']; simpl in Ht.
  - destruct (IH all' (trace st')) as (evs' & Ht' & Hf').
    exists (evs ++ evs'). rewrite Ht', Ht, app_assoc. split; [done |].
    apply Forall_app. split; [done |].
    eapply Forall_impl; [exact Hf' |]. apply in_range_cons.
  - by exists evs.
Qed.

End Range.

(** C10, as the code has it.  When [end_block] is not given it is the
    latest height [e] of the first connected chain, asked once; when
    [start_block] is not given it is [max(0, e - 100000)]; the run is
    then the run with these two values given.  In a run with both values
    given no chain is asked for its latest height, and every block
    request, to whichever chain, is for a height between them: the
    chains that follow the first are scanned over the range fixed for
    the first. *)
Theorem defaults_fixed_by_first_chain (up : Upstream)
    (wallet_addresses : list string) (max_transactions : option Z) :
  let fetch := fetch_detailed_transactions up wallet_addresses
                 max_transactions in
  (forall c an rest tr,
     let asked := tr ++ [EvBlockNumber c] in
     fetch ((c, an) :: rest) None None tr
     = match up_block_number up tr c with
       | Ok e =>
           fetch ((c, an) :: rest) (Some (Z.max 0 (e - 100000))) (Some e)
             asked
       | Raise err => (Raise err, asked)
       end
     /\ (forall s,
           fetch ((c, an) :: rest) (Some s) None tr
           = match up_block_number up tr c with
             | Ok e => fetch ((c, an) :: rest) (Some s) (Some e) asked
             | Raise err => (Raise err, asked)
             end)
     /\ (forall e,
           fetch ((c, an) :: rest) None (Some e) tr
           = fetch ((c, an) :: rest) (Some (Z.max 0 (e - 100000))) (Some e)
               tr))
  /\ (forall connections s e tr,
        exists evs,
          (fetch connections (Some s) (Some e) tr).2 = tr ++ evs
          /\ Forall (in_range (map fst connections) s e) evs).
Proof.
  intros fetch. split.
  - intros c an rest tr asked. subst fetch asked.
    unfold fetch_detailed_transactions. simpl.
    repeat split; intros; by destruct (up_block_number up tr c).
  - intros. apply chain_loop_in_range.
Qed.

(** C10 as stated fails.  With two connected chains and a first chain
    whose latest height is 50, the default start block is 0, not
    [50 - 100000]: both chains are scanned from block 50 down to block
    0. *)
Lemma defaults_fixed_by_first_chain_counterexample :
  let run := fetch_detailed_transactions offline [watched] None
               [("ethereum", fresh); ("polygon", fresh)] None None [] in
  up_block_number offline [] "ethereum" = Ok 50
  /\ block_fetches run.2
     = map (pair "ethereum") (range_desc 50 0)
       ++ map (pair "polygon") (range_desc 50 0)
  /\ range_desc 50 0 <> range_desc 50 (50 - 100000)
  /\ last (range_desc 50 0) = Some 0
  /\ 0 <> 50 - 100000.
Proof.
  split; [reflexivity |].
  split; [vm_compute; reflexivity |].
  split; [| split; [vm_compute; reflexivity | lia]].
  intros H. apply (f_equal List.length) in H.
  rewrite !range_desc_length in H. lia.
Qed.

(** ** Runs over several watched addresses *)

(** C6 as stated fails.  With two watched addresses and the range
    [4, 5], block 5 is requested, then block 4, then block 5 again and
    block 4 again. *)
Lemma scan_visits_descending_counterexample :
  let run := fetch_detailed_transactions offline [watched; watched_too] None
               [("ethereum", fresh)] (Some 4) (Some 5) [] in
  block_fetches run.2
  = [("ethereum", 5); ("ethereum", 4); ("ethereum", 5); ("ethereum", 4)]
  /\ ~ NoDup (block_fetches run.2)
  /\ ~ StronglySorted Z.gt (map snd (block_fetches run.2)).
Proof.
  assert (E : block_fetches
                (fetch_detailed_transactions offline [watched; watched_too] None
                   [("ethereum", fresh)] (Some 4) (Some 5) []).2
              = [("ethereum", 5); ("ethereum", 4);
                 ("ethereum", 5); ("ethereum", 4)])
    by (vm_compute; reflexivity).
  cbv zeta. rewrite E. split; [done |]. split.
  - intros H. apply NoDup_cons in H as [Hin _]. apply Hin.
    right. left.
  - intros H. inversion H as [|? ? _ Hall]; subst.
    inversion Hall as [|? ? _ Hall']; subst.
    inversion Hall' as [|? ? Hgt _]; subst. lia.
Qed.

(** C7 as stated fails.  With two watched addresses, the range [4, 5]
    and a throttled request for block 5, the pause before block 4 of the
    first address is 400 ms, and the pause before block 5 of the second
    address is back at 200 ms, although no request succeeded in between
    that would lower it. *)
Lemma delay_escalates_counterexample :
  let run := fetch_detailed_transactions throttling [watched; watched_too] None
               [("ethereum", fresh)] (Some 4) (Some 5) [] in
  block_delays run.2 = [200; 400; 200; 400]
  /\ ~ StronglySorted Z.le (block_delays run.2).
Proof.
  assert (E : block_delays
                (fetch_detailed_transactions throttling [watched; watched_too] None
                   [("ethereum", fresh)] (Some 4) (Some 5) []).2
              = [200; 400; 200; 400])
    by (vm_compute; reflexivity).
  cbv zeta. rewrite E. split; [done |].
  intros H. inversion H as [|? ? Hs _]; subst.
  inversion Hs as [|? ? _ Hall]; subst.
  inversion Hall as [|? ? Hle _]; subst. lia.
Qed.

Lemma rate_limit_doubles_delay_witness :
  take 4 (block_delays
            (trace (scan_address throttling None "ethereum" watched 4 7 []
                      empty_state).2))
  = [200; 200; 200; 400].
Proof.
  edestruct (proj2 (rate_limit_doubles_delay throttling None
                      "ethereum" watched) 4 7 [] empty_state)
    as (evs & before & after & Ht & _ & Hd & _);
    [lia | vm_compute; reflexivity | vm_compute; reflexivity
    | vm_compute; reflexivity | vm_compute; reflexivity |].
  rewrite Ht. exact Hd.
Defined.

Lemma scan_visits_descending_witness :
  block_fetches
    (trace (scan_address offline None "ethereum" watched 4 5 []
              empty_state).2)
  = [("ethereum", 5); ("ethereum", 4)].
Proof.
  destruct (scan_visits_descending offline None "ethereum" watched 4 5 []
              empty_state) as (evs & k & Ht & _ & Hf & _ & _ & Hc).
  rewrite Ht. simpl. rewrite Hf.
  by rewrite (Hc [] ltac:(vm_compute; reflexivity)).
Defined.

Lemma delay_escalates_within_address_scan_witness :
  4 <= 5
  /\ head (block_delays
             (trace (scan_address throttling None "ethereum" watched 4 5 []
                       empty_state).2))
     = Some 200.
Proof.
  split; [lia |].
  destruct (delay_escalates_within_address_scan throttling None "ethereum"
              watched 4 5 [] empty_state) as (evs & Ht & _ & _ & _ & Hh).
  rewrite Ht. simpl. apply Hh. lia.
Defined.

(** * Further properties of the analyzer and of the fetcher *)

(** ** Exchange addresses *)

Lemma str_in_In x l : str_in x l = true <-> In x l.
Proof.
  unfold str_in. rewrite existsb_exists. split.
  - intros (y & Hy & E). apply String.eqb_eq in E. by subst.
  - intros H. exists x. split; [done | apply String.eqb_refl].
Qed.

Lemma assoc_In {V : Type} k (d : list (string * V)) v :
  assoc k d = Some v -> In (k, v) d.
Proof.
  induction d as [|[k' v'] d IH]; simpl; [done |].
  destruct (String.eqb_spec k k') as [->|_].
  - intros [= ->]. by left.
  - intros H. right. by apply IH.
Qed.

Lemma assoc_None {V : Type} k (d : list (string * V)) :
  assoc k d = None <-> ~ In k (map fst d).
Proof.
  induction d as [|[k' v'] d IH]; simpl; [tauto |].
  destruct (String.eqb_spec k k') as [->|Hne].
  - split; [done | tauto].
  - rewrite IH. split; [intros H [E|E]; [by subst | done] | tauto].
Qed.

(** X1.  [is_cex_address] answers [(True, name)] exactly for the addresses
    that are, letter for letter, a key of the table of the chain; it
    raises [KeyError] exactly for the addresses that are not a key but
    are one up to letter case; every other address, and every address on
    a chain without a table, gets [(False, '')]. *)
Theorem is_cex_address_cases (chain address : string) :
  (forall name,
     is_cex_address chain address = Ok (true, name)
     <-> exists table,
           assoc chain CEX_ADDRESSES = Some table
           /\ assoc address table = Some name)
  /\ (forall e,
        is_cex_address chain address = Raise e
        <-> e = KeyError address
            /\ exists table,
                 assoc chain CEX_ADDRESSES = Some table
                 /\ ~ In address (map fst table)
                 /\ In (Str.lower address)
                       (map (fun kv => Str.lower (fst kv)) table))
  /\ (forall flag name,
        is_cex_address chain address = Ok (flag, name) ->
        flag = false -> name = "")
  /\ (assoc chain CEX_ADDRESSES = None ->
      is_cex_address chain address = Ok (false, "")).
Proof.
  unfold is_cex_address.
  destruct (assoc chain CEX_ADDRESSES) as [table|] eqn:Et.
  - destruct (str_in _ _) eqn:Em;
      [destruct (assoc address table) as [n|] eqn:Ea |].
    + split; [| split; [| split]]; [| | | done].
      * intros name. split.
        -- intros [= <-]. by exists table.
        -- intros (t & [= <-] & H). congruence.
      * intros e. split; [done |].
        intros (_ & t & [= <-] & Hn & _). apply assoc_None in Hn. congruence.
      * intros flag name [= <- <-]. done.
    + split; [| split; [| split]]; [| | | done].
      * intros name. split; [done |].
        intros (t & [= <-] & H). congruence.
      * intros e. split.
        -- intros [= <-]. split; [done |]. exists table.
           split; [done |]. split; [by apply assoc_None |].
           by apply str_in_In.
        -- by intros [-> _].
      * done.
    + split; [| split; [| split]]; [| | | done].
      * intros name. split; [done |].
        intros (t & [= <-] & H). apply assoc_lower_keys in H. congruence.
      * intros e. split; [done |].
        intros (_ & t & [= <-] & _ & H). apply str_in_In in H. congruence.
      * by intros flag name [= <- <-].
  - split; [| split; [| split]]; [| | | done].
    + intros name. split; [done |]. by intros (t & [=] & _).
    + intros e. split; [done |]. by intros (_ & t & [=] & _).
    + by intros flag name [= <- <-].
Qed.

(** ** The type of a verified contract *)

Lemma find_first {A : Type} (f : A -> bool) before x after :
  Forall (fun y => f y = false) before -> f x = true ->
  find f (before ++ x :: after) = Some x.
Proof.
  induction 1 as [|y before Hy _ IH]; intros Hx; simpl.
  - by rewrite Hx.
  - rewrite Hy. by apply IH.
Qed.

Lemma find_none_Forall {A : Type} (f : A -> bool) l :
  find f l = None <-> Forall (fun y => f y = false) l.
Proof.
  induction l as [|y l IH]; simpl.
  - split; [constructor | done].
  - destruct (f y) eqn:E.
    + split; [done |]. intros H. apply Forall_cons in H as [H _]. congruence.
    + rewrite IH. split; [by constructor |].
      intros H. by apply Forall_cons in H as [_ H].
Qed.

Lemma determine_contract_type_find contract_data :
  _determine_contract_type contract_data
  = match find (entry_matches contract_data) CONTRACT_TYPES with
    | Some entry => fst entry
    | None => "unknown"
    end.
Proof. reflexivity. Qed.

(** X2.  [_determine_contract_type] returns the type of the first entry
    of [CONTRACT_TYPES], in the order of the table, one of whose keywords
    occurs in the contract name or in the source text, letter case
    ignored; it returns [unknown] exactly when no keyword of the table
    occurs; its result is one of the six types or [unknown]; and it only
    depends on the name and the source up to letter case. *)
Theorem determine_contract_type_first_match (contract_data : SourceEntry) :
  (forall before entry after,
     CONTRACT_TYPES = before ++ entry :: after ->
     Forall (fun e => entry_matches contract_data e = false) before ->
     entry_matches contract_data entry = true ->
     _determine_contract_type contract_data = fst entry)
  /\ (_determine_contract_type contract_data = "unknown"
      <-> Forall (fun e => entry_matches contract_data e = false)
                 CONTRACT_TYPES)
  /\ In (_determine_contract_type contract_data)
        ("unknown" :: map fst CONTRACT_TYPES)
  /\ (forall other,
        Str.lower (Str.or_empty (ContractName other))
        = Str.lower (Str.or_empty (ContractName contract_data)) ->
        Str.lower (Str.or_empty (SourceCode other))
        = Str.lower (Str.or_empty (SourceCode contract_data)) ->
        _determine_contract_type other
        = _determine_contract_type contract_data).
Proof.
  rewrite determine_contract_type_find.
  assert (Hrange : forall e,
    find (entry_matches contract_data) CONTRACT_TYPES = Some e ->
    In (fst e) (map fst CONTRACT_TYPES) /\ fst e <> "unknown").
  { intros e He. apply find_some in He as [Hin _]. split.
    - by apply in_map.
    - simpl in Hin.
      repeat (destruct Hin as [<-|Hin]; [discriminate |]). destruct Hin. }
  split; [| split; [| split]].
  - intros before entry after -> Hb He. by rewrite find_first.
  - rewrite <- find_none_Forall.
    destruct (find _ _) as [e|] eqn:E; [| done].
    split; [| done]. intros H. by destruct (Hrange e eq_refl).
  - destruct (find _ _) as [e|] eqn:E; [| by left].
    right. by apply Hrange.
  - intros other Hn Hs. rewrite determine_contract_type_find.
    assert (Hm : forall e, entry_matches other e = entry_matches contract_data e).
    { intros e. unfold entry_matches.
      induction (snd e) as [|kw kws IH]; simpl; [done |].
      rewrite IH. unfold keyword_occurs. by rewrite Hn, Hs. }
    assert (Hf : forall l, find (entry_matches other) l
                           = find (entry_matches contract_data) l).
    { induction l as [|e l IH]; simpl; [done |]. by rewrite Hm, IH. }
    by rewrite Hf.
Qed.

Lemma is_cex_address_cases_witness :
  is_cex_address "ethereum" binance = Ok (true, "Binance")
  /\ is_cex_address "ethereum" binance_lower = Raise (KeyError binance_lower)
  /\ is_cex_address "polygon" binance = Ok (false, "").
Proof.
  destruct (is_cex_address_cases "ethereum" binance) as (H1 & _).
  destruct (is_cex_address_cases "ethereum" binance_lower) as (_ & H2 & _).
  destruct (is_cex_address_cases "polygon" binance) as (_ & _ & _ & H4).
  split; [| split].
  - apply H1. eexists. split; reflexivity.
  - apply H2. split; [reflexivity |]. eexists. split; [reflexivity |].
    split; [| vm_compute; tauto].
    vm_compute. intros H. repeat (destruct H as [H|H]; [discriminate |]).
    destruct H.
  - apply H4. reflexivity.
Defined.

Lemma determine_contract_type_witness :
  _determine_contract_type
    {| ContractName := Some "LendingPool";
       SourceCode := Some "// Aave Protocol, uses IUniswapV2Router02" |}
  = "DEX".
Proof.
  apply (determine_contract_type_first_match
           {| ContractName := Some "LendingPool";
              SourceCode := Some "// Aave Protocol, uses IUniswapV2Router02" |})
    with (before := [])
         (entry := ("DEX", ["Uniswap"; "Sushiswap"; "PancakeSwap"]))
         (after := tl CONTRACT_TYPES);
    [reflexivity | constructor | reflexivity].
Defined.

(** ** Extraction of the transfers: errors and edges *)

Section Extraction.

Variable up : Upstream.
Variable chain : string.

(** Without a qualifying log the loop looks nothing up. *)
Lemma transfers_loop_none logs acc st :
  List.filter is_transfer_log logs = [] ->
  transfers_loop up chain logs acc st = (Ok acc, st).
Proof.
  revert acc st. induction logs as [|log logs IH]; intros acc st; simpl.
  { done. }
  destruct (is_transfer_log log); [done | apply IH].
Qed.

(** When the loop returns, it has decoded every qualifying log. *)
Lemma transfers_loop_result logs acc st ts' :
  (transfers_loop up chain logs acc st).1 = Ok ts' ->
  exists ts,
    ts' = acc ++ ts /\ Forall2 decodes (List.filter is_transfer_log logs) ts.
Proof.
  revert acc st. induction logs as [|log logs IH]; intros acc st.
  { simpl. intros [= <-]. exists []. by rewrite app_nil_r. }
  destruct (is_transfer_log log) eqn:Hq.
  2: { simpl. rewrite Hq. apply IH. }
  destruct (Str.int16 (log_data log)) as [v|] eqn:Hv.
  2: { simpl. rewrite Hq, Hv. by unfold bind, raise. }
  destruct (transfers_loop_step up chain log logs acc st v Hq Hv)
    as (info & _ & ->).
  destruct (scaled_value v (ti_decimals info)) as [scaled|e] eqn:Hs;
    [| done].
  intros H. apply IH in H as (ts & -> & Hd).
  eexists (_ :: ts). rewrite <- app_assoc. split; [done |].
  simpl. rewrite Hq. constructor; [| done].
  repeat split. by exists v.
Qed.

(** A qualifying log whose data is no hexadecimal number makes the loop
    raise. *)
Lemma transfers_loop_bad_data logs acc st :
  Exists (fun log => Str.int16 (log_data log) = None)
         (List.filter is_transfer_log logs) ->
  exists e, (transfers_loop up chain logs acc st).1 = Raise e.
Proof.
  revert acc st. induction logs as [|log logs IH]; intros acc st Hbad.
  { by apply Exists_nil in Hbad. }
  simpl in Hbad. destruct (is_transfer_log log) eqn:Hq.
  2: { simpl. rewrite Hq. by apply IH. }
  destruct (Str.int16 (log_data log)) as [v|] eqn:Hv.
  2: { simpl. rewrite Hq, Hv. by eexists. }
  apply Exists_cons in Hbad as [Hbad | Hbad]; [congruence |].
  destruct (transfers_loop_step up chain log logs acc st v Hq Hv)
    as (info & _ & ->).
  destruct (scaled_value v (ti_decimals info)); [by apply IH | by eexists].
Qed.

Lemma get_token_transfers_eq tx_hash st :
  get_token_transfers up chain tx_hash st
  = let st1 := log_event (EvGetReceipt chain tx_hash) st in
    match up_get_receipt up (trace st) chain tx_hash with
    | Ok receipt =>
        match transfers_loop up chain (rc_logs receipt) [] st1 with
        | (Ok ts, st2) => (Ok ts, st2)
        | (Raise e, st2) =>
            (Ok [], log_event (EvPrint (PErrTransfers tx_hash (str_exn e))) st2)
        end
    | Raise e =>
        (Ok [], log_event (EvPrint (PErrTransfers tx_hash (str_exn e))) st1)
    end.
Proof.
  unfold get_token_transfers, try_except, bind at 1, request.
  destruct (up_get_receipt up (trace st) chain tx_hash) as [rc|e]; [| done].
  fold (log_event (EvGetReceipt chain tx_hash) st).
  by destruct (transfers_loop up chain (rc_logs rc) [] _) as [[ts|e] st2].
Qed.

End Extraction.

(** X3.  [get_token_transfers] never raises.  When the receipt cannot be
    obtained it prints the error and returns the empty list, caches
    untouched.  When the receipt has no qualifying log it returns the
    empty list after the receipt request alone.  Its result is all or
    nothing: either the empty list, or one transfer for each qualifying
    log, in log order; one qualifying log whose data is no hexadecimal
    number makes the result empty, whatever the other logs are. *)
Theorem get_token_transfers_all_or_nothing (up : Upstream)
    (chain tx_hash : string) (st : State) :
  (exists ts, (get_token_transfers up chain tx_hash st).1 = Ok ts)
  /\ (forall e,
        up_get_receipt up (trace st) chain tx_hash = Raise e ->
        get_token_transfers up chain tx_hash st
        = (Ok [],
           log_events [ EvGetReceipt chain tx_hash;
                        EvPrint (PErrTransfers tx_hash (str_exn e)) ] st))
  /\ (forall receipt,
        up_get_receipt up (trace st) chain tx_hash = Ok receipt ->
        (List.filter is_transfer_log (rc_logs receipt) = [] ->
         get_token_transfers up chain tx_hash st
         = (Ok [], log_event (EvGetReceipt chain tx_hash) st))
        /\ (forall ts,
              (get_token_transfers up chain tx_hash st).1 = Ok ts ->
              ts = []
              \/ Forall2 decodes
                   (List.filter is_transfer_log (rc_logs receipt)) ts)
        /\ (Exists (fun log => Str.int16 (log_data log) = None)
                   (List.filter is_transfer_log (rc_logs receipt)) ->
            (get_token_transfers up chain tx_hash st).1 = Ok [])).
Proof.
  split; [apply total_get_token_transfers |].
  rewrite get_token_transfers_eq. cbv zeta. split.
  - intros e ->. f_equal.
    unfold log_event, log_events. simpl. by rewrite <- app_assoc.
  - intros receipt ->. split; [| split].
    + intros Hnone. by rewrite transfers_loop_none.
    + intros ts.
      pose proof (transfers_loop_result up chain (rc_logs receipt) []
                    (log_event (EvGetReceipt chain tx_hash) st)) as Hr.
      destruct (transfers_loop up chain (rc_logs receipt) [] _)
        as [[ts'|e] st2]; simpl.
      * intros [= <-]. destruct (Hr ts' eq_refl) as (ts & -> & Hd).
        by right.
      * intros [= <-]. by left.
    + intros Hbad.
      destruct (transfers_loop_bad_data up chain (rc_logs receipt) []
                  (log_event (EvGetReceipt chain tx_hash) st) Hbad)
        as (e & He).
      destruct (transfers_loop up chain (rc_logs receipt) [] _)
        as [[ts'|e'] st2]; simpl in *; [done | done].
Qed.

Lemma get_token_transfers_all_or_nothing_witness :
  (get_token_transfers garbled "ethereum" (hash_of 0) empty_state).1 = Ok [].
Proof.
  destruct (get_token_transfers_all_or_nothing garbled "ethereum" (hash_of 0)
              empty_state) as (_ & _ & H).
  apply (H {| rc_to := Some router; rc_gasUsed := 52000; rc_status := 1;
              rc_logs := [transfer_log; empty_data_log] |} eq_refl).
  right. left. reflexivity.
Defined.

(** ** The label of a transaction *)

Lemma total_result {A : Type} (m : M A) st :
  total m -> exists a, m st = (Ok a, (m st).2).
Proof.
  intros H. destruct (H st) as [a Ha]. exists a.
  destruct (m st) as [r st']. simpl in *. by subst.
Qed.

Lemma classify_transaction_label up c h rc st :
  exists label,
    (classify_transaction up c h rc st).1 = Ok label
    /\ In label ("token_transfer" :: "unknown" :: contract_categories).
Proof.
  unfold classify_transaction, bind.
  destruct (total_result _ st (total_get_token_transfers up c h))
    as [ts ->].
  destruct (0 <? List.length ts)%nat.
  { eexists. split; [done |]. by left. }
  destruct (Str.truthy (rc_to rc)).
  2: { eexists. split; [done |]. right. by left. }
  destruct (total_result _ (get_token_transfers up c h st).2
              (total_get_contract_info up c (Str.or_empty (rc_to rc))))
    as [info ->].
  destruct (has_key (ci_type info) CONTRACT_TYPES) eqn:Hk.
  - eexists. split; [done |]. right. right.
    by apply has_key_CONTRACT_TYPES.
  - eexists. split; [done |]. right. by left.
Qed.

(** X4.  [classify_transaction] never raises, and its label is always one
    of [token_transfer], [unknown], [dex], [lending], [staking],
    [nft_marketplace], [bridge] and [yield]; in particular a contract
    recognised as a token does not give the label [token].  It asks for
    the receipt of the transaction again, although it is handed one. *)
Theorem classify_transaction_labels (up : Upstream) (chain tx_hash : string)
    (tx_receipt : Receipt) (st : State) :
  (exists label,
     (classify_transaction up chain tx_hash tx_receipt st).1 = Ok label
     /\ In label ("token_transfer" :: "unknown" :: contract_categories))
  /\ (exists evs,
        trace (classify_transaction up chain tx_hash tx_receipt st).2
        = trace st ++ EvGetReceipt chain tx_hash :: evs).
Proof.
  split; [apply classify_transaction_label |].
  unfold classify_transaction.
  set (k := fun transfers : list TokenTransfer => _).
  assert (Hk : forall ts, steps (appends (fun _ => True)) (k ts)).
  { intros ts. unfold k.
    pose proof (appends_get_contract_info up chain (fun _ => True)
                  (fun _ _ => I)).
    steps_walk. }
  unfold bind. rewrite get_token_transfers_eq. cbv zeta.
  assert (Hloop : forall logs s,
            steps (appends (fun _ => True)) (transfers_loop up chain logs s)).
  { intros. apply appends_transfers_loop. done. }
  destruct (up_get_receipt up (trace st) chain tx_hash) as [rc|e].
  - specialize (Hloop (rc_logs rc) []
                  (log_event (EvGetReceipt chain tx_hash) st)).
    destruct (transfers_loop up chain (rc_logs rc) [] _) as [[ts|e] st2];
      destruct Hloop as (evs & Ht & _); simpl in Ht.
    + destruct (Hk ts st2) as (evs' & Ht' & _).
      exists (evs ++ evs'). rewrite Ht', Ht, <- !app_assoc. done.
    + destruct (Hk [] (log_event (EvPrint (PErrTransfers tx_hash (str_exn e)))
                         st2)) as (evs' & Ht' & _).
      eexists. rewrite Ht'. simpl. rewrite Ht, <- !app_assoc. simpl.
      reflexivity.
  - destruct (Hk [] (log_event (EvPrint (PErrTransfers tx_hash (str_exn e)))
                       (log_event (EvGetReceipt chain tx_hash) st)))
      as (evs' & Ht' & _).
    eexists. rewrite Ht'. simpl. rewrite <- !app_assoc. simpl. reflexivity.
Qed.

(** ** Assembling a record *)

(** [_process_detailed_transaction], step by step: the two analyzer calls
    return, then the two exchange look-ups decide whether it raises. *)
Lemma process_cases up tx receipt c a timestamp st :
  exists ts ty s1 s2,
    get_token_transfers up c (tx_hash tx) st = (Ok ts, s1)
    /\ classify_transaction up c (tx_hash tx) receipt s1 = (Ok ty, s2)
    /\ In ty ("token_transfer" :: "unknown" :: contract_categories)
    /\ _process_detailed_transaction up tx receipt c a timestamp st
       = match is_cex_address c (tx_from tx), cex_of_recipient c tx with
         | Raise e, _ => (Raise e, s2)
         | Ok _, Raise e => (Raise e, s2)
         | Ok cex_from, Ok cex_to =>
             let r :=
               if Str.truthy (tx_to tx)
               then let r := get_contract_info up c (Str.or_empty (tx_to tx))
                               s2 in
                    (match r.1 with Ok info => Some info | Raise _ => None end,
                     r.2)
               else (None, s2) in
             (Ok {| td_chain := c;
                    td_hash := tx_hash tx;
                    td_from := tx_from tx;
                    td_to := Str.or_empty (tx_to tx);
                    td_value := tx_value tx;
                    td_gas_price := tx_gasPrice tx;
                    td_gas_used := rc_gasUsed receipt;
                    td_block_number := tx_blockNumber tx;
                    td_nonce := tx_nonce tx;
                    td_timestamp := timestamp;
                    td_is_outgoing := is_outgoing tx a;
                    td_status := rc_status receipt;
                    td_token_transfers :=
                      match ts with [] => None | _ => Some ts end;
                    td_transaction_type := ty;
                    td_cex_interaction := cex_from.1 || cex_to.1;
                    td_cex_name :=
                      if cex_from.1 then cex_from.2 else cex_to.2;
                    td_contract_name := ci_name <$> r.1;
                    td_contract_type := ci_type <$> r.1 |}, r.2)
         end.
Proof.
  destruct (total_result _ st (total_get_token_transfers up c (tx_hash tx)))
    as [ts Hts].
  set (s1 := (get_token_transfers up c (tx_hash tx) st).2) in *.
  destruct (classify_transaction_label up c (tx_hash tx) receipt s1)
    as (ty & Hty & Hlabel).
  set (s2 := (classify_transaction up c (tx_hash tx) receipt s1).2).
  assert (Hty' : classify_transaction up c (tx_hash tx) receipt s1
                 = (Ok ty, s2)).
  { subst s2. destruct (classify_transaction _ _ _ _ _) as [r s]. simpl in *.
    by subst. }
  exists ts, ty, s1, s2. split; [done |]. split; [done |]. split; [done |].
  unfold _process_detailed_transaction, cex_of_recipient.
  unfold bind at 1. rewrite Hts. unfold bind at 1. rewrite Hty'.
  unfold bind at 1, lift at 1.
  destruct (is_cex_address c (tx_from tx)) as [cex_from|e]; [| done].
  destruct (Str.truthy (tx_to tx)).
  - unfold bind at 1, lift at 1.
    destruct (is_cex_address c (Str.or_empty (tx_to tx))) as [cex_to|e];
      [| done].
    unfold bind.
    destruct (total_result _ s2
                (total_get_contract_info up c (Str.or_empty (tx_to tx))))
      as [info ->].
    done.
  - done.
Qed.

(** X5.  [_process_detailed_transaction] raises exactly when one of its
    exchange look-ups does: for the sender, or else for the recipient
    when there is one; the exception is then the [KeyError] of that
    look-up, raised after the two analyzer calls have been made.  No
    failure of the upstream makes it raise. *)
Theorem process_raises_only_key_error (up : Upstream) (tx : Tx)
    (receipt : Receipt) (chain address : string) (timestamp : Z)
    (st : State) (e : exn) :
  (_process_detailed_transaction up tx receipt chain address timestamp st).1
  = Raise e
  <-> is_cex_address chain (tx_from tx) = Raise e
      \/ ((exists answer, is_cex_address chain (tx_from tx) = Ok answer)
          /\ Str.truthy (tx_to tx) = true
          /\ is_cex_address chain (Str.or_empty (tx_to tx)) = Raise e).
Proof.
  destruct (process_cases up tx receipt chain address timestamp st)
    as (ts & ty & s1 & s2 & _ & _ & _ & ->).
  unfold cex_of_recipient.
  destruct (is_cex_address chain (tx_from tx)) as [cex_from|e1].
  - destruct (Str.truthy (tx_to tx)).
    + destruct (is_cex_address chain (Str.or_empty (tx_to tx)))
        as [cex_to|e2]; simpl.
      * split; [done |]. intros [H | (_ & _ & H)]; done.
      * split.
        -- intros [= <-]. right. split; [by eexists | done].
        -- intros [H | (_ & _ & [= <-])]; done.
    + simpl. split; [done |]. intros [H | (_ & H & _)]; done.
  - simpl. split.
    + intros [= <-]. by left.
    + intros [[= <-] | ([answer H] & _)]; done.
Qed.

Lemma process_raises_only_key_error_witness :
  (_process_detailed_transaction offline deposit plain_receipt "ethereum"
     watched 1700000000 empty_state).1
  = Raise (KeyError binance_lower).
Proof.
  apply process_raises_only_key_error. left. reflexivity.
Defined.

Lemma is_cex_address_ok c a flag name :
  is_cex_address c a = Ok (flag, name) ->
  (flag = true /\ cex_key c a name)
  \/ (flag = false /\ name = "" /\ forall n, ~ cex_key c a n).
Proof.
  unfold is_cex_address, cex_key.
  destruct (assoc c CEX_ADDRESSES) as [table|] eqn:Et.
  2: { intros [= <- <-]. right. split; [done |]. split; [done |].
       by intros n (t & [=] & _). }
  destruct (str_in _ _) eqn:Em.
  - destruct (assoc a table) as [n|] eqn:Ea; [| done].
    intros [= <- <-]. left. split; [done |]. by exists table.
  - intros [= <- <-]. right. split; [done |]. split; [done |].
    intros n (t & [= <-] & H). apply assoc_lower_keys in H. congruence.
Qed.

Lemma cex_key_unique c a n1 n2 : cex_key c a n1 -> cex_key c a n2 -> n1 = n2.
Proof. intros (t1 & H1 & E1) (t2 & H2 & E2). congruence. Qed.

Ltac cex_solve :=
  repeat
    match goal with
    | |- _ <-> _ => split
    | |- forall _, _ => intro
    | H : _ \/ _ |- _ => destruct H
    | H : _ /\ _ |- _ => destruct H
    | H : exists _, _ |- _ => destruct H
    | H : is_Some None |- _ => by destruct H
    | H : forall n, ~ cex_key ?c ?a n, H' : cex_key ?c ?a _ |- _ =>
        destruct (H _ H')
    end;
  try done; eauto 6 using cex_key_unique.

(** X6.  The record that [_process_detailed_transaction] returns carries
    the fields of the transaction and of the receipt it was given, the
    chain name and the direction flag of the watched address; its label
    is one of the eight labels; its list of transfers is absent rather
    than empty.  The exchange flag is set exactly when the sender or the
    recipient is a key of the exchange table; the exchange name is the
    sender's when the sender is a key, else the recipient's, and empty
    when the flag is not set.  The contract name and type are present
    exactly when the transaction has a recipient. *)
Theorem process_record (up : Upstream) (tx : Tx) (receipt : Receipt)
    (chain address : string) (timestamp : Z) (st : State) (r : TxData)
    (Hr : (_process_detailed_transaction up tx receipt chain address
             timestamp st).1 = Ok r) :
  (td_chain r = chain /\ td_hash r = tx_hash tx /\ td_from r = tx_from tx
   /\ td_to r = Str.or_empty (tx_to tx) /\ td_value r = tx_value tx
   /\ td_gas_price r = tx_gasPrice tx /\ td_gas_used r = rc_gasUsed receipt
   /\ td_block_number r = tx_blockNumber tx /\ td_nonce r = tx_nonce tx
   /\ td_timestamp r = timestamp /\ td_status r = rc_status receipt
   /\ td_is_outgoing r = is_outgoing tx address)
  /\ In (td_transaction_type r)
        ("token_transfer" :: "unknown" :: contract_categories)
  /\ td_token_transfers r <> Some []
  /\ (td_cex_interaction r = true
      <-> (exists n, cex_key chain (tx_from tx) n)
          \/ (Str.truthy (tx_to tx) = true
              /\ exists n, cex_key chain (Str.or_empty (tx_to tx)) n))
  /\ (forall n, cex_key chain (tx_from tx) n -> td_cex_name r = n)
  /\ (forall n,
        (forall m, ~ cex_key chain (tx_from tx) m) ->
        Str.truthy (tx_to tx) = true ->
        cex_key chain (Str.or_empty (tx_to tx)) n -> td_cex_name r = n)
  /\ (td_cex_interaction r = false -> td_cex_name r = "")
  /\ (is_Some (td_contract_name r) <-> Str.truthy (tx_to tx) = true)
  /\ (is_Some (td_contract_type r) <-> Str.truthy (tx_to tx) = true).
Proof.
  destruct (process_cases up tx receipt chain address timestamp st)
    as (ts & ty & s1 & s2 & _ & _ & Hlabel & Hp).
  rewrite Hp in Hr. clear Hp. unfold cex_of_recipient in Hr.
  destruct (is_cex_address chain (tx_from tx)) as [[ff fn]|e] eqn:Ef;
    [| done].
  apply is_cex_address_ok in Ef.
  destruct (Str.truthy (tx_to tx)) eqn:Hto.
  - destruct (is_cex_address chain (Str.or_empty (tx_to tx)))
      as [[tf tn]|e] eqn:Et; [| done].
    apply is_cex_address_ok in Et.
    destruct (total_result _ s2
                (total_get_contract_info up chain (Str.or_empty (tx_to tx))))
      as [info Hi].
    rewrite Hi in Hr. simpl in Hr. injection Hr as <-. simpl.
    split; [done |]. split; [done |].
    split; [by destruct ts |].
    destruct Ef as [[-> Hf] | (-> & -> & Hf)];
      destruct Et as [[-> Ht] | (-> & -> & Ht)]; simpl;
      split_and!; try done; try (by eexists); cex_solve.
  - simpl in Hr. injection Hr as <-. simpl.
    split; [done |]. split; [done |].
    split; [by destruct ts |].
    destruct Ef as [[-> Hf] | (-> & -> & Hf)]; simpl;
      split_and!; try done; cex_solve.
Qed.

Lemma process_record_witness :
  exists r,
    (_process_detailed_transaction offline withdrawal plain_receipt
       "ethereum" watched 1700000000 empty_state).1 = Ok r
    /\ td_cex_name r = "Binance"
    /\ td_is_outgoing r = false.
Proof.
  destruct (_process_detailed_transaction offline withdrawal plain_receipt
              "ethereum" watched 1700000000 empty_state) as [[r|e] s] eqn:E;
    [| vm_compute in E; discriminate].
  exists r. split; [done |].
  pose proof (process_record offline withdrawal plain_receipt "ethereum"
                watched 1700000000 empty_state r) as H.
  rewrite E in H. destruct (H eq_refl) as (Hf & _ & _ & _ & Hname & _).
  split.
  - apply Hname. eexists. split; reflexivity.
  - destruct Hf as (_ & _ & _ & _ & _ & _ & _ & _ & _ & _ & _ & ->).
    reflexivity.
Defined.

(** ** Invariants of a scan *)

(** A relation on states that every event, every contract look-up and
    every token look-up respects is respected by all the loops of the
    scan of a chain. *)
Section ScanInvariant.

Variable up : Upstream.
Variable max_transactions : option Z.
Variable R : relation State.
Context `{!PreOrder R}.
Hypothesis R_log : forall ev st, R st (log_event ev st).
Hypothesis R_contract : forall c a, steps R (get_contract_info up c a).
Hypothesis R_token : forall c a, steps R (_get_token_info up c a).

Lemma inv_emit ev : steps R (emit ev).
Proof. intros st. apply R_log. Qed.

Lemma inv_request {A : Type} ev (f : list event -> result A) :
  steps R (request ev f).
Proof. intros st. apply R_log. Qed.

#[local] Hint Resolve inv_emit inv_request R_contract R_token : steps.

Lemma inv_transfers_loop c logs acc :
  steps R (transfers_loop up c logs acc).
Proof.
  revert acc. induction logs as [|log logs IH]; intros acc; simpl;
    steps_walk.
Qed.
#[local] Hint Resolve inv_transfers_loop : steps.

Lemma inv_get_token_transfers c h : steps R (get_token_transfers up c h).
Proof. unfold get_token_transfers, print. steps_walk. Qed.
#[local] Hint Resolve inv_get_token_transfers : steps.

Lemma inv_classify_transaction c h rc :
  steps R (classify_transaction up c h rc).
Proof. unfold classify_transaction. steps_walk. Qed.
#[local] Hint Resolve inv_classify_transaction : steps.

Lemma inv_process tx rc c a ts :
  steps R (_process_detailed_transaction up tx rc c a ts).
Proof. unfold _process_detailed_transaction. steps_walk. Qed.
#[local] Hint Resolve inv_process : steps.

Lemma inv_tx_loop txs c a ts all st :
  R st (tx_loop up max_transactions txs c a ts all st).2.
Proof.
  revert all st. induction txs as [|tx txs IH]; intros all st; simpl.
  { reflexivity. }
  destruct (touches tx a); [| apply IH].
  match goal with
  | |- context [match ?m st with _ => _ end] =>
      assert (Hm : steps R m) by (unfold sleep; steps_walk);
      specialize (Hm st); destruct (m st) as [[tx_data|e] st']
  end; simpl in *; [| done].
  assert (Hf : R st (log_event (EvPrint (PFound (tx_hash tx))) st'))
    by (etrans; [exact Hm | apply R_log]).
  destruct (limit_reached _ _); [done |].
  etrans; [exact Hf | apply IH].
Qed.

Lemma inv_block_loop blocks c a d all st :
  R st (block_loop up max_transactions blocks c a d all st).2.
Proof.
  revert d all st. induction blocks as [|n rest IH]; intros d all st; simpl.
  { reflexivity. }
  assert (Hb : R st (block_body up max_transactions n c a all
                       (log_event (EvSleep BeforeBlock d) st)).2).
  { set (st0 := log_event (EvSleep BeforeBlock d) st).
    trans st0; [apply R_log |].
    trans (log_event (EvGetBlock c n) st0); [apply R_log |].
    unfold block_body, request.
    destruct (up_get_block up (trace st0) c n) as [block|e].
    - apply inv_tx_loop.
    - reflexivity. }
  destruct (block_body up max_transactions n c a all _)
    as [[all'|all'|e all'] st']; simpl in Hb.
  - etrans; [exact Hb | apply IH].
  - done.
  - assert (He : R st' (on_block_error n e d st').2).
    { unfold on_block_error. destruct (Str.contains _ _); cbn [fst snd].
      - etrans; [apply R_log |]. etrans; apply R_log.
      - apply R_log. }
    destruct (on_block_error n e d st') as [d' st'']. simpl in He.
    etrans; [exact Hb |]. etrans; [exact He | apply IH].
Qed.

Lemma inv_address_loop addresses c s e all st :
  R st (address_loop up max_transactions addresses c s e all st).2.
Proof.
  revert all st. induction addresses as [|a rest IH]; intros all st; simpl.
  { reflexivity. }
  destruct (up_is_address up a).
  - unfold scan_address.
    pose proof (inv_block_loop (range_desc e s) c a 200 all
                  (log_event (EvPrint (PProcessing c a)) st)) as Hb.
    destruct (block_loop up max_transactions _ c a 200 all _)
      as [[all'|all'] st']; simpl in Hb.
    + etrans; [apply R_log |]. etrans; [exact Hb | apply IH].
    + etrans; [apply R_log | exact Hb].
  - etrans; [apply R_log | apply IH].
Qed.

End ScanInvariant.

(** ** The caches during a scan *)

#[local] Instance cache_grows_preorder : PreOrder cache_grows.
Proof.
  split.
  - by intros st.
  - intros s1 s2 s3 [H1 H1'] [H2 H2']. split; by etrans.
Qed.

#[local] Instance keeps_preorder I : PreOrder (keeps I).
Proof. split; unfold keeps; [by intros st | intros s1 s2 s3; tauto]. Qed.



Section CacheInvariants.

Variable up : Upstream.



Lemma cache_grows_log ev st : cache_grows st (log_event ev st).
Proof. by split. Qed.

Lemma cache_grows_contract c a :
  steps cache_grows (get_contract_info up c a).
Proof.
  intros st. destruct (contract_cache st !! a) as [info|] eqn:E.
  - by rewrite (get_contract_info_hit _ _ _ _ _ E).
  - rewrite (get_contract_info_miss _ _ _ _ E).
    pose proof (same_caches_lookup_contract up c a st) as [Hc Ht].
    destruct (lookup_contract up c a st) as [[info|e] st']; simpl in *.
    + split; simpl; [| by rewrite Ht].
      rewrite Hc. by apply insert_subseteq.
    + split; simpl; [by rewrite Hc | by rewrite Ht].
Qed.

Lemma cache_grows_token c a :
  steps cache_grows (_get_token_info up c a).
Proof.
  intros st. destruct (token_cache st !! a) as [info|] eqn:E.
  - by rewrite (_get_token_info_hit _ _ _ _ _ E).
  - rewrite (_get_token_info_miss _ _ _ _ E).
    pose proof (same_caches_lookup_token up c a st) as [Hc Ht].
    destruct (lookup_token up c a st) as [[info|e] st']; simpl in *.
    + split; simpl; [by rewrite Hc |].
      rewrite Ht. by apply insert_subseteq.
    + split; simpl; [by rewrite Hc | by rewrite Ht].
Qed.




End CacheInvariants.

(** X7.  During the scan of a chain the two caches only grow: every entry
    present before the processing of a transaction, or before the scan
    of all the watched addresses, is still there afterwards, unchanged.
    So an address whose contract information is stored is answered with
    the same information, without any request, at any later point of the
    scan. *)
Theorem caches_only_grow (up : Upstream) (max_transactions : option Z)
    (chain : string) :
  (forall tx receipt address timestamp st,
     cache_grows st
       (_process_detailed_transaction up tx receipt chain address timestamp
          st).2)
  /\ (forall addresses s e all st,
        let st' := (address_loop up max_transactions addresses chain s e all
                      st).2 in
        cache_grows st st'
        /\ (forall a info,
              contract_cache st !! a = Some info ->
              get_contract_info up chain a st' = (Ok info, st'))
        /\ (forall a info,
              token_cache st !! a = Some info ->
              _get_token_info up chain a st' = (Ok info, st'))).
Proof.
  split.
  - intros. apply inv_process; try typeclasses eauto.
    + apply cache_grows_log.
    + apply cache_grows_contract.
    + apply cache_grows_token.
  - intros addresses s e all st st'.
    assert (Hg : cache_grows st st').
    { apply inv_address_loop; try typeclasses eauto.
      - apply cache_grows_log.
      - apply cache_grows_contract.
      - apply cache_grows_token. }
    split; [done |]. destruct Hg as [Hc Ht]. split.
    + intros a info Ha. apply get_contract_info_hit.
      by eapply lookup_weaken.
    + intros a info Ha. apply _get_token_info_hit.
      by eapply lookup_weaken.
Qed.


Lemma caches_only_grow_witness :
  let st := (get_contract_info verified "ethereum" router empty_state).2 in
  let st' := (address_loop (busy 1) None [watched] "ethereum" 5 5 [] st).2 in
  (get_contract_info (busy 1) "ethereum" router st').1
  = Ok {| ci_name := "UniswapV2Router02"; ci_verified := true;
          ci_type := "DEX" |}.
Proof.
  intros st st'.
  destruct (caches_only_grow (busy 1) None "ethereum") as [_ H].
  destruct (H [watched] 5 5 [] st) as (_ & Hc & _).
  fold st' in Hc. by rewrite (Hc router _ ltac:(vm_compute; reflexivity)).
Defined.


(** ** The rows of a run *)

Lemma process_row up tx receipt c a timestamp st r st' :
  _process_detailed_transaction up tx receipt c a timestamp st = (Ok r, st') ->
  row_of c a tx r.
Proof.
  destruct (process_cases up tx receipt c a timestamp st)
    as (ts & ty & s1 & s2 & _ & _ & _ & ->).
  destruct (is_cex_address c (tx_from tx)); [| done].
  destruct (cex_of_recipient c tx); [| done].
  by intros [= <- _].
Qed.

Section Rows.

Variable up : Upstream.
Variable wallet_addresses : list string.
Variable max_transactions : option Z.

(** The rows a block adds are the rows of its first matching
    transactions, in the order of the block; of all of them when the
    loop runs to its end. *)
Lemma tx_loop_rows txs c a ts all st :
  exists matched new,
    control_rows (tx_loop up max_transactions txs c a ts all st).1
    = all ++ new
    /\ Forall2 (row_of c a) matched new
    /\ matched `prefix_of` List.filter (fun tx => touches tx a) txs
    /\ (forall all',
          (tx_loop up max_transactions txs c a ts all st).1 = Next all' ->
          matched = List.filter (fun tx => touches tx a) txs).
Proof.
  revert all st. induction txs as [|tx txs IH]; intros all st.
  { exists [], []. simpl. by rewrite app_nil_r. }
  simpl. destruct (touches tx a) eqn:Ht; [| apply IH].
  match goal with
  | |- context [match ?m st with _ => _ end] =>
      destruct (m st) as [[tx_data|e] st'] eqn:E
  end.
  - do 2 bind_inv E. apply process_row in E.
    destruct (limit_reached _ _).
    + exists [tx], [tx_data]. simpl. split; [done |].
      split; [constructor; [done | constructor] |].
      split; [by apply prefix_cons, prefix_nil | done].
    + destruct (IH (all ++ [tx_data])
                  (log_event (EvPrint (PFound (tx_hash tx))) st'))
        as (matched & new & Hr & Hm & Hp & Hn).
      exists (tx :: matched), (tx_data :: new).
      rewrite Hr, <- app_assoc. split; [done |].
      split; [by constructor |].
      split; [by apply prefix_cons |].
      intros all' H. by rewrite (Hn all' H).
  - exists [], []. simpl. rewrite app_nil_r. split; [done |].
    split; [constructor |]. split; [apply prefix_nil | done].
Qed.

Lemma tx_loop_rows_from txs c a ts all st :
  exists new,
    control_rows (tx_loop up max_transactions txs c a ts all st).1
    = all ++ new
    /\ Forall (row_from c a) new.
Proof.
  destruct (tx_loop_rows txs c a ts all st)
    as (matched & new & Hr & Hm & Hp & _).
  exists new. split; [done |].
  assert (Hall : Forall (fun tx => touches tx a = true) matched).
  { destruct Hp as [k Hk]. apply List.Forall_forall. intros tx Hin.
    assert (Hin' : In tx (List.filter (fun tx => touches tx a) txs)).
    { rewrite Hk. apply in_or_app. by left. }
    by apply filter_In in Hin' as [_ ?]. }
  clear Hr Hp. induction Hm as [|tx r matched new Hrow _ IH]; [constructor |].
  apply Forall_cons in Hall as [Ht Hall].
  constructor; [by exists tx | by apply IH].
Qed.

Lemma block_loop_rows blocks c a d all st :
  exists new,
    outcome_rows (block_loop up max_transactions blocks c a d all st).1
    = all ++ new
    /\ Forall (row_from c a) new.
Proof.
  revert d all st. induction blocks as [|n rest IH]; intros d all st.
  { exists []. simpl. by rewrite app_nil_r. }
  simpl. unfold block_body, request.
  assert (Hcont : forall d' all' new st',
            all' = all ++ new -> Forall (row_from c a) new ->
            exists new',
              outcome_rows
                (block_loop up max_transactions rest c a d' all' st').1
              = all ++ new' /\ Forall (row_from c a) new').
  { intros d' all' new st' -> Hnew.
    destruct (IH d' (all ++ new) st') as (new' & Hr & Hf).
    exists (new ++ new'). rewrite Hr, <- app_assoc. split; [done |].
    by apply Forall_app. }
  destruct (up_get_block up _ c n) as [block|e].
  - match goal with
    | |- context [tx_loop up max_transactions ?txs c a ?ts all ?s] =>
        destruct (tx_loop_rows_from txs c a ts all s) as (new & Hr & Hf);
        destruct (tx_loop up max_transactions txs c a ts all s)
          as [[all'|all'|e all'] st']
    end; simpl in Hr.
    + by eapply Hcont.
    + by exists new.
    + destruct (on_block_error n e d st') as [d' st'']. by eapply Hcont.
  - destruct (on_block_error n e d _) as [d' st''].
    eapply (Hcont d' all []); [by rewrite app_nil_r | constructor].
Qed.

Lemma address_loop_rows addresses c s e all st :
  exists new,
    outcome_rows
      (address_loop up max_transactions addresses c s e all st).1
    = all ++ new
    /\ Forall (fun r => exists a,
                 In a addresses /\ up_is_address up a = true
                 /\ row_from c a r) new.
Proof.
  revert all st. induction addresses as [|a rest IH]; intros all st.
  { exists []. simpl. by rewrite app_nil_r. }
  simpl. destruct (up_is_address up a) eqn:Ha.
  - unfold scan_address.
    destruct (block_loop_rows (range_desc e s) c a 200 all
                (log_event (EvPrint (PProcessing c a)) st))
      as (new & Hr & Hf).
    assert (Hf' : Forall (fun r => exists a0,
                     In a0 (a :: rest) /\ up_is_address up a0 = true
                     /\ row_from c a0 r) new).
    { eapply Forall_impl; [exact Hf |]. intros r Hrow. exists a.
      split; [by left | done]. }
    destruct (block_loop up max_transactions _ c a 200 all _)
      as [[all'|all'] st']; simpl in Hr; subst all'.
    + destruct (IH (all ++ new) st') as (new' & Hr' & Hf'').
      exists (new ++ new'). rewrite Hr', <- app_assoc. split; [done |].
      apply Forall_app. split; [done |].
      eapply Forall_impl; [exact Hf'' |]. intros r (a0 & Hin & H).
      exists a0. split; [by right | done].
    + by exists new.
  - destruct (IH all (log_event (EvPrint (PInvalidAddress a)) st))
      as (new & Hr & Hf).
    exists new. split; [done |].
    eapply Forall_impl; [exact Hf |]. intros r (a0 & Hin & H).
    exists a0. split; [by right | done].
Qed.

Lemma chain_loop_rows connections start_block end_block all tr rows :
  (chain_loop up wallet_addresses max_transactions connections start_block
     end_block all tr).1 = Ok rows ->
  exists new,
    rows = all ++ new
    /\ Forall (fun r => exists c a,
                 In c (map fst connections) /\ In a wallet_addresses
                 /\ up_is_address up a = true /\ row_from c a r) new.
Proof.
  revert start_block end_block all tr.
  induction connections as [|[c an] rest IH];
    intros start_block end_block all tr.
  { simpl. intros [= <-]. exists []. by rewrite app_nil_r. }
  simpl.
  assert (Hstep : forall s e tr1,
    (match
       address_loop up max_transactions wallet_addresses c s e all
         {| trace := tr1; contract_cache := an_contract_cache an;
            token_cache := an_token_cache an |}
     with
     | (Completed all', st') =>
         chain_loop up wallet_addresses max_transactions rest (Some s)
           (Some e) all' (trace st')
     | (Limit all', st') => (Ok all', trace st')
     end).1 = Ok rows ->
    exists new,
      rows = all ++ new
      /\ Forall (fun r => exists c0 a,
                   (c = c0 \/ In c0 (map fst rest)) /\ In a wallet_addresses
                   /\ up_is_address up a = true /\ row_from c0 a r) new).
  { intros s e tr1.
    destruct (address_loop_rows wallet_addresses c s e all
                {| trace := tr1; contract_cache := an_contract_cache an;
                   token_cache := an_token_cache an |})
      as (new & Hr & Hf).
    assert (Hf' : Forall (fun r => exists c0 a,
                     (c = c0 \/ In c0 (map fst rest))
                     /\ In a wallet_addresses
                     /\ up_is_address up a = true /\ row_from c0 a r) new).
    { eapply Forall_impl; [exact Hf |]. intros r (a & Hin & Ha & Hrow).
      exists c, a. split; [by left | done]. }
    destruct (address_loop up max_transactions wallet_addresses c s e all _)
      as [[all'|all'] st']; simpl in Hr; subst all'.
    - intros H. apply IH in H as (new' & -> & Hf'').
      exists (new ++ new'). rewrite <- app_assoc. split; [done |].
      apply Forall_app. split; [done |].
      eapply Forall_impl; [exact Hf'' |].
      intros r (c0 & a & Hin & H). exists c0, a. split; [by right | done].
    - simpl. intros [= <-]. by exists new. }
  destruct end_block as [e|]; [apply Hstep |].
  destruct (up_block_number up tr c) as [e|err]; [apply Hstep | done].
Qed.

End Rows.

(** X9.  Every row of the frame that [fetch_detailed_transactions]
    returns is the row of a transaction that touches a watched address
    accepted by [web3.is_address], as its sender or, letter case
    ignored, as its recipient; the row carries the name of a connected
    chain, the hash, sender, recipient and block number of that
    transaction, and the direction flag of that address. *)
Theorem rows_touch_watched_addresses (up : Upstream)
    (wallet_addresses : list string) (max_transactions : option Z)
    (connections : list (string * Analyzer))
    (start_block end_block : option Z) (tr : list event)
    (rows : list TxData)
    (Hrun : (fetch_detailed_transactions up wallet_addresses
               max_transactions connections start_block end_block tr).1
            = Ok rows) :
  Forall (fun r => exists c a tx,
            In c (map fst connections) /\ In a wallet_addresses
            /\ up_is_address up a = true
            /\ touches tx a = true /\ row_of c a tx r) rows.
Proof.
  apply chain_loop_rows in Hrun as (new & -> & Hf). simpl.
  eapply Forall_impl; [exact Hf |].
  intros r (c & a & Hc & Ha & Hv & tx & Ht & Hrow). by exists c, a, tx.
Qed.

(** X10.  The rows that the transactions of one block add are the rows
    of its matching transactions, one row for each, in the order of the
    block, up to the transaction at which the limit is reached or an
    exception is raised; the rows found before are kept in front of
    them.  A transaction whose sender and recipient are both the watched
    address adds one row, flagged as outgoing. *)
Theorem block_rows_in_order (up : Upstream) (max_transactions : option Z)
    (txs : list Tx) (chain address : string) (timestamp : Z)
    (all : list TxData) (st : State) :
  (exists matched new,
     control_rows
       (tx_loop up max_transactions txs chain address timestamp all st).1
     = all ++ new
     /\ Forall2 (row_of chain address) matched new
     /\ matched `prefix_of` List.filter (fun tx => touches tx address) txs
     /\ (forall all',
           (tx_loop up max_transactions txs chain address timestamp all
              st).1 = Next all' ->
           matched = List.filter (fun tx => touches tx address) txs))
  /\ (forall tx,
        Str.lower (tx_from tx) = Str.lower address ->
        touches tx address = true /\ is_outgoing tx address = true).
Proof.
  split; [apply tx_loop_rows |].
  intros tx H. unfold touches, is_outgoing. rewrite H.
  by rewrite String.eqb_refl.
Qed.

Lemma block_rows_in_order_witness :
  touches withdrawal binance_lower = true
  /\ is_outgoing withdrawal binance_lower = true.
Proof.
  destruct (block_rows_in_order offline None [] "ethereum" binance_lower 0 []
              empty_state) as [_ H].
  apply (H withdrawal). vm_compute. reflexivity.
Defined.

Lemma rows_touch_watched_addresses_witness :
  exists rows,
    (fetch_detailed_transactions (busy 2) [watched] (Some 3)
       [("ethereum", fresh)] (Some 4) (Some 5) []).1 = Ok rows
    /\ List.length rows = 3%nat
    /\ Forall (fun r => exists c a tx,
                 In c ["ethereum"] /\ In a [watched]
                 /\ up_is_address (busy 2) a = true
                 /\ touches tx a = true /\ row_of c a tx r) rows.
Proof.
  eexists. split; [vm_compute; reflexivity |]. split; [reflexivity |].
  apply (rows_touch_watched_addresses (busy 2) [watched] (Some 3)
           [("ethereum", fresh)] (Some 4) (Some 5) []).
  vm_compute. reflexivity.
Defined.

(** ** A run that no limit ends *)

Lemma block_fetches_app evs evs' :
  block_fetches (evs ++ evs') = block_fetches evs ++ block_fetches evs'.
Proof. apply omap_app. Qed.

Lemma length_flat_map_const {A B : Type} (f : A -> list B) (n : nat) l :
  (forall x, List.length (f x) = n) ->
  List.length (flat_map f l) = (List.length l * n)%nat.
Proof.
  intros H. induction l as [|x l IH]; [done |].
  simpl. rewrite length_app, H, IH. lia.
Qed.

Section Unlimited.

Variable up : Upstream.
Variable wallet_addresses : list string.

Lemma tx_loop_never_returns txs c a ts all st all' :
  (tx_loop up None txs c a ts all st).1 <> Returned all'.
Proof.
  revert all st. induction txs as [|tx txs IH]; intros all st; [done |].
  simpl. destruct (touches tx a); [| apply IH].
  match goal with
  | |- context [match ?m st with _ => _ end] =>
      destruct (m st) as [[tx_data|e] st']
  end; [apply IH | done].
Qed.

Lemma block_loop_unlimited blocks c a d all st :
  exists all' st' evs,
    block_loop up None blocks c a d all st = (Completed all', st')
    /\ trace st' = trace st ++ evs
    /\ block_fetches evs = map (pair c) blocks.
Proof.
  assert (Hc : exists all' st',
             block_loop up None blocks c a d all st = (Completed all', st')).
  { revert d all st. induction blocks as [|n rest IH]; intros d all st.
    { by exists all, st. }
    simpl.
    destruct (block_body up None n c a all _) as [[all'|all'|e all'] st']
      eqn:E.
    - apply IH.
    - exfalso. unfold block_body, request in E.
      destruct (up_get_block up _ c n); [| done].
      eapply tx_loop_never_returns. by rewrite E.
    - destruct (on_block_error n e d st'). apply IH. }
  destruct Hc as (all' & st' & Hc).
  destruct (block_loop_spec up None blocks c a d all st)
    as (evs & k & Ht & _ & Hf & _ & _ & _ & Hk).
  rewrite Hc in Ht, Hk. simpl in Ht.
  exists all', st', evs. split; [done |]. split; [done |].
  rewrite Hf, (Hk all' eq_refl). by rewrite firstn_all.
Qed.

Lemma address_loop_unlimited addresses c s e all st :
  exists all' st' evs,
    address_loop up None addresses c s e all st = (Completed all', st')
    /\ trace st' = trace st ++ evs
    /\ block_fetches evs
       = flat_map (fun _ : string => map (pair c) (range_desc e s))
           (List.filter (up_is_address up) addresses).
Proof.
  revert all st. induction addresses as [|a rest IH]; intros all st.
  { exists all, st, []. simpl. by rewrite app_nil_r. }
  simpl. destruct (up_is_address up a).
  - unfold scan_address.
    destruct (block_loop_unlimited (range_desc e s) c a 200 all
                (log_event (EvPrint (PProcessing c a)) st))
      as (all1 & st1 & evs1 & -> & Ht1 & Hf1).
    destruct (IH all1 st1) as (all2 & st2 & evs2 & -> & Ht2 & Hf2).
    exists all2, st2, (EvPrint (PProcessing c a) :: evs1 ++ evs2).
    split; [done |]. split.
    + rewrite Ht2, Ht1. simpl. by rewrite <- !app_assoc.
    + change (block_fetches (EvPrint (PProcessing c a) :: evs1 ++ evs2))
        with (block_fetches (evs1 ++ evs2)).
      rewrite block_fetches_app, Hf1, Hf2. done.
  - destruct (IH all (log_event (EvPrint (PInvalidAddress a)) st))
      as (all2 & st2 & evs2 & -> & Ht2 & Hf2).
    exists all2, st2, (EvPrint (PInvalidAddress a) :: evs2).
    split; [done |]. split; [| done].
    rewrite Ht2. simpl. by rewrite <- app_assoc.
Qed.

Lemma chain_loop_unlimited connections s e all tr :
  exists rows evs,
    chain_loop up wallet_addresses None connections (Some s) (Some e) all tr
    = (Ok rows, tr ++ evs)
    /\ block_fetches evs
       = scheduled_fetches up wallet_addresses (map fst connections) s e.
Proof.
  revert all tr. induction connections as [|[c an] rest IH]; intros all tr.
  { exists all, []. simpl. by rewrite app_nil_r. }
  simpl.
  destruct (address_loop_unlimited wallet_addresses c s e all
              {| trace := tr; contract_cache := an_contract_cache an;
                 token_cache := an_token_cache an |})
    as (all1 & st1 & evs1 & -> & Ht1 & Hf1).
  simpl in Ht1.
  destruct (IH all1 (trace st1)) as (rows & evs2 & -> & Hf2).
  exists rows, (evs1 ++ evs2). rewrite Ht1, app_assoc. split; [done |].
  rewrite block_fetches_app, Hf1, Hf2. done.
Qed.

End Unlimited.

(** X11.  A run with the range given and without a limit
    ([max_transactions] is [None] or 0) always returns its frame, and
    its block requests are exactly the scheduled ones: for each
    connected chain in turn, for each watched address that
    [web3.is_address] accepts in turn, one request for each height from
    the end of the range down to its start.  No failure ends or shortens
    the run and no block is asked for again; an inverted range or a
    wallet without a valid address gives a run without any block
    request. *)
Theorem unlimited_run_schedule (up : Upstream)
    (wallet_addresses : list string) (max_transactions : option Z)
    (connections : list (string * Analyzer)) (s e : Z) (tr : list event)
    (Hmax : max_transactions = None \/ max_transactions = Some 0) :
  exists rows evs,
    fetch_detailed_transactions up wallet_addresses max_transactions
      connections (Some s) (Some e) tr = (Ok rows, tr ++ evs)
    /\ block_fetches evs
       = scheduled_fetches up wallet_addresses (map fst connections) s e
    /\ List.length (block_fetches evs)
       = (List.length connections
          * (List.length (List.filter (up_is_address up) wallet_addresses)
             * Z.to_nat (e - s + 1)))%nat
    /\ (e < s \/ Forall (fun a => up_is_address up a = false)
                   wallet_addresses ->
        block_fetches evs = []).
Proof.
  unfold fetch_detailed_transactions.
  assert (Hnone : chain_loop up wallet_addresses max_transactions connections
                    (Some s) (Some e) [] tr
                  = chain_loop up wallet_addresses None connections (Some s)
                      (Some e) [] tr).
  { destruct Hmax as [-> | ->]; [done | apply chain_loop_zero]. }
  rewrite Hnone.
  destruct (chain_loop_unlimited up wallet_addresses connections s e [] tr)
    as (rows & evs & -> & Hf).
  exists rows, evs. split; [done |]. split; [done |].
  assert (Hlen : List.length (block_fetches evs)
       = (List.length connections
          * (List.length (List.filter (up_is_address up) wallet_addresses)
             * Z.to_nat (e - s + 1)))%nat).
  { rewrite Hf. unfold scheduled_fetches.
    rewrite (length_flat_map_const _
               (List.length (List.filter (up_is_address up) wallet_addresses)
                * Z.to_nat (e - s + 1))).
    - by rewrite length_map.
    - intros c. apply length_flat_map_const. intros _.
      by rewrite length_map, range_desc_length. }
  split; [done |].
  intros Hempty. apply length_zero_iff_nil. rewrite Hlen.
  destruct Hempty as [Hinv | Hbad].
  - replace (Z.to_nat (e - s + 1)) with 0%nat by lia. lia.
  - replace (List.filter (up_is_address up) wallet_addresses)
      with (@nil string); [simpl; lia |].
    symmetry. clear -Hbad.
    induction wallet_addresses as [|a l IH]; [done |].
    apply Forall_cons in Hbad as [Ha Hl]. simpl. rewrite Ha. by apply IH.
Qed.

Lemma unlimited_run_schedule_witness :
  exists rows evs,
    fetch_detailed_transactions (busy 2) [watched; "not an address"] None
      [("ethereum", fresh)] (Some 3) (Some 5) [] = (Ok rows, [] ++ evs)
    /\ block_fetches evs = [("ethereum", 5); ("ethereum", 4); ("ethereum", 3)].
Proof.
  destruct (unlimited_run_schedule (busy 2) [watched; "not an address"] None
              [("ethereum", fresh)] 3 5 [] (or_introl eq_refl))
    as (rows & evs & Hrun & Hf & _).
  exists rows, evs. split; [exact Hrun |]. rewrite Hf. vm_compute. reflexivity.
Defined.

(** ** An exception in the middle of a block *)

Section MidBlock.

Variable up : Upstream.
Variable max_transactions : option Z.

Lemma tx_loop_app pre post c a ts all st :
  tx_loop up max_transactions (pre ++ post) c a ts all st
  = match tx_loop up max_transactions pre c a ts all st with
    | (Next all', st') => tx_loop up max_transactions post c a ts all' st'
    | r => r
    end.
Proof.
  revert all st. induction pre as [|tx pre IH]; intros all st; [done |].
  simpl. destruct (touches tx a); [| apply IH].
  match goal with
  | |- context [match ?m st with _ => _ end] =>
      destruct (m st) as [[tx_data|e] st']
  end; [| done].
  destruct (limit_reached _ _); [done | apply IH].
Qed.

(** The state after the [except] handler of the block loop. *)
Lemma on_block_error_eq n e d st :
  on_block_error n e d st
  = (if throttling_signal e then Z.min 60000 (d * 2) else d,
     log_events
       (EvPrint (PErrBlock n (str_exn e))
        :: (if throttling_signal e
            then [ EvPrint (PRateLimit (Z.min 60000 (d * 2)));
                   EvSleep Cooldown 10000 ]
            else [])) st).
Proof.
  destruct (on_block_error_spec n e d st) as [H1 H2].
  destruct (on_block_error n e d st). simpl in *. by subst.
Qed.

Lemma block_loop_raise_mid n rest c a d all st block pre tx post all1 st1 e
    st2 :
  up_get_block up (trace st ++ [EvSleep BeforeBlock d]) c n = Ok block ->
  blk_transactions block = pre ++ tx :: post ->
  tx_loop up max_transactions pre c a (blk_timestamp block) all
    (log_events [EvSleep BeforeBlock d; EvGetBlock c n] st) = (Next all1, st1) ->
  touches tx a = true ->
  (sleep BeforeReceipt 100 ;;
   receipt <- request (EvGetReceipt c (tx_hash tx))
                (fun h => up_get_receipt up h c (tx_hash tx)) ;;
   _process_detailed_transaction up tx receipt c a (blk_timestamp block)) st1
  = (Raise e, st2) ->
  block_loop up max_transactions (n :: rest) c a d all st
  = block_loop up max_transactions rest c a
      (if throttling_signal e then Z.min 60000 (d * 2) else d) all1
      (log_events
         (EvPrint (PErrBlock n (str_exn e))
          :: (if throttling_signal e
              then [ EvPrint (PRateLimit (Z.min 60000 (d * 2)));
                     EvSleep Cooldown 10000 ]
              else [])) st2).
Proof.
  intros Hb Htxs Hpre Ht Hbody.
  cbn [block_loop]. unfold block_body, request.
  cbn [log_event trace fst snd]. rewrite Hb. cbn [fst snd].
  rewrite Htxs, tx_loop_app.
  match goal with
  | |- context [tx_loop up max_transactions pre c a _ all ?s] =>
      replace s with (log_events [EvSleep BeforeBlock d; EvGetBlock c n] st)
  end.
  2:{ unfold log_events. simpl. by rewrite <- app_assoc. }
  rewrite Hpre. cbn [tx_loop]. rewrite Ht, Hbody.
  by rewrite on_block_error_eq.
Qed.

End MidBlock.

(** X12.  An exception raised while a transaction of a block is
    processed ends the work on that block: the rows found before it are
    kept, the transaction gets no row, the transactions that follow it
    in the block are not looked at, and the scan goes on with the next
    lower block without asking for this one again.  So it is when the
    receipt of the transaction cannot be obtained, where the delay is
    doubled and the cooldown taken if the message carries the throttling
    signal; and so it is when the sender of the transaction is a case
    variant of a key of the CEX table, where the [KeyError] of
    [is_cex_address] is raised after the transfers and the category of
    the transaction have been worked out. *)
Theorem exception_ends_block (up : Upstream) (max_transactions : option Z)
    (n : Z) (rest : list Z) (c a : string) (d : Z) (all : list TxData)
    (st : State) (block : Block) (pre post : list Tx) (tx : Tx)
    (all1 : list TxData) (st1 : State)
    (Hblock : up_get_block up (trace st ++ [EvSleep BeforeBlock d]) c n
              = Ok block)
    (Htxs : blk_transactions block = pre ++ tx :: post)
    (Hpre : tx_loop up max_transactions pre c a (blk_timestamp block) all
              (log_events [EvSleep BeforeBlock d; EvGetBlock c n] st)
            = (Next all1, st1))
    (Htouches : touches tx a = true) :
  let after (e : exn) (st2 : State) :=
    block_loop up max_transactions rest c a
      (if throttling_signal e then Z.min 60000 (d * 2) else d) all1
      (log_events
         (EvPrint (PErrBlock n (str_exn e))
          :: (if throttling_signal e
              then [ EvPrint (PRateLimit (Z.min 60000 (d * 2)));
                     EvSleep Cooldown 10000 ]
              else [])) st2) in
  let asked :=
    log_events [EvSleep BeforeReceipt 100; EvGetReceipt c (tx_hash tx)] st1 in
  (forall e,
     up_get_receipt up (trace st1 ++ [EvSleep BeforeReceipt 100]) c
       (tx_hash tx) = Raise e ->
     block_loop up max_transactions (n :: rest) c a d all st = after e asked)
  /\ (forall receipt e,
        up_get_receipt up (trace st1 ++ [EvSleep BeforeReceipt 100]) c
          (tx_hash tx) = Ok receipt ->
        is_cex_address c (tx_from tx) = Raise e ->
        block_loop up max_transactions (n :: rest) c a d all st
        = after e
            (classify_transaction up c (tx_hash tx) receipt
               (get_token_transfers up c (tx_hash tx) asked).2).2).
Proof.
  intros after asked.
  assert (Hasked : forall cc tc,
            cc = contract_cache st1 -> tc = token_cache st1 ->
            {| trace := (trace st1 ++ [EvSleep BeforeReceipt 100])
                        ++ [EvGetReceipt c (tx_hash tx)];
               contract_cache := cc; token_cache := tc |} = asked).
  { intros cc tc -> ->. unfold asked, log_events. simpl.
    by rewrite <- app_assoc. }
  split.
  - intros e Hr.
    apply (block_loop_raise_mid up max_transactions n rest c a d all st block
             pre tx post all1 st1 e asked Hblock Htxs Hpre Htouches).
    unfold bind, sleep, emit, request. cbn [trace fst snd].
    rewrite Hr. f_equal. by apply Hasked.
  - intros receipt e Hr Hcex.
    apply (block_loop_raise_mid up max_transactions n rest c a d all st block
             pre tx post all1 st1 e _ Hblock Htxs Hpre Htouches).
    unfold bind at 1 2, sleep, emit, request.
    cbn [trace contract_cache token_cache fst snd].
    rewrite Hr. rewrite (Hasked _ _ eq_refl eq_refl).
    destruct (process_cases up tx receipt c a (blk_timestamp block) asked)
      as (ts & ty & s1 & s2 & Hg & Hc & _ & ->).
    rewrite Hcex, Hg. simpl. by rewrite Hc.
Qed.

Lemma exception_ends_block_witness :
  let before :=
    tx_loop flaky None [payment 5 0] "ethereum" watched 1700000000 []
      (log_events [EvSleep BeforeBlock 200; EvGetBlock "ethereum" 5]
         empty_state) in
  before.1 = Next (control_rows before.1)
  /\ List.length (control_rows before.1) = 1%nat
  /\ block_loop flaky None [5; 4] "ethereum" watched 200 [] empty_state
     = block_loop flaky None [4] "ethereum" watched 400
         (control_rows before.1)
         (log_events
            [ EvPrint
                (PErrBlock 5 "429 Client Error: Too Many Requests for url");
              EvPrint (PRateLimit 400); EvSleep Cooldown 10000 ]
            (log_events
               [ EvSleep BeforeReceipt 100;
                 EvGetReceipt "ethereum" (hash_of 1) ] before.2)).
Proof.
  intros before.
  assert (Hpre : before = (Next (control_rows before.1), before.2)).
  { vm_compute. reflexivity. }
  split; [by rewrite Hpre at 1 |]. split; [vm_compute; reflexivity |].
  destruct (exception_ends_block flaky None 5 [4] "ethereum" watched 200 []
              empty_state
              {| blk_timestamp := 1700000000;
                 blk_transactions := map (payment 5) (seq 0 3) |}
              [payment 5 0] [payment 5 2] (payment 5 1)
              (control_rows before.1) before.2 eq_refl eq_refl Hpre eq_refl)
    as [H _].
  exact (H (UpstreamError "429 Client Error: Too Many Requests for url")
           eq_refl).
Defined.

(** ** A chain that refuses every block *)

(** The delays of [k] requests in a row that are all refused with the
    throttling signal, from the delay [d] on. *)
Lemma backoff_step (d p : Z) :
  0 <= d -> 1 <= p ->
  Z.min 60000 (Z.min 60000 (d * 2) * p) = Z.min 60000 (d * (2 * p)).
Proof. intros Hd Hp. destruct (Z.le_gt_cases (d * 2) 60000); nia. Qed.

Section Jammed.

Variable up : Upstream.
Variable max_transactions : option Z.
Variable c : string.
Hypothesis Hjam : always_throttled up c.

Lemma block_loop_jammed blocks a d all st :
  0 <= d <= 60000 ->
  exists st' evs,
    block_loop up max_transactions blocks c a d all st = (Completed all, st')
    /\ trace st' = trace st ++ evs
    /\ block_fetches evs = map (pair c) blocks
    /\ block_delays evs
       = map (fun i => Z.min 60000 (d * 2 ^ Z.of_nat i))
           (seq 0 (List.length blocks))
    /\ cooldowns evs = repeat 10000 (List.length blocks)
    /\ contract_cache st' = contract_cache st
    /\ token_cache st' = token_cache st.
Proof.
  revert d st. induction blocks as [|n rest IH]; intros d st Hd.
  { exists st, []. simpl. by rewrite app_nil_r. }
  destruct (Hjam (trace st ++ [EvSleep BeforeBlock d]) n) as (e & Hb & He).
  rewrite (block_loop_throttled up max_transactions n rest c a d all st e Hb
             He).
  destruct (IH (Z.min 60000 (d * 2))
              (log_events
                 [ EvSleep BeforeBlock d; EvGetBlock c n;
                   EvPrint (PErrBlock n (str_exn e));
                   EvPrint (PRateLimit (Z.min 60000 (d * 2)));
                   EvSleep Cooldown 10000 ] st) ltac:(lia))
    as (st' & evs & -> & Ht & Hf & Hdl & Hcd & Hcc & Htc).
  exists st', ([ EvSleep BeforeBlock d; EvGetBlock c n;
                 EvPrint (PErrBlock n (str_exn e));
                 EvPrint (PRateLimit (Z.min 60000 (d * 2)));
                 EvSleep Cooldown 10000 ] ++ evs).
  split; [done |].
  split; [rewrite Ht; cbn [log_events trace]; by rewrite <- app_assoc |].
  split; [by rewrite block_fetches_app, Hf |].
  split; [| split; [| done]].
  - unfold block_delays in *. rewrite omap_app, Hdl. simpl.
    f_equal; [rewrite Z.mul_1_r; lia |].
    rewrite <- seq_shift, map_map. apply map_ext. intros i.
    rewrite Nat2Z.inj_succ, Z.pow_succ_r by lia.
    apply backoff_step; [lia |].
    pose proof (Z.pow_pos_nonneg 2 (Z.of_nat i)). lia.
  - unfold cooldowns in *. rewrite omap_app, Hcd. done.
Qed.

End Jammed.

(** X13.  On a chain that refuses every block request with the
    throttling signal the scan of an address asks for every height of
    the range once and returns without a row, the caches as they were;
    the pause before the [i]-th request (from 0) is
    [min(60 s, 200 ms * 2^i)], which is the cap of 60 s from the tenth
    request on, and each refusal is followed by one cooldown pause of
    10 s. *)
Theorem throttled_scan_backoff (up : Upstream) (max_transactions : option Z)
    (c a : string) (s e : Z) (all : list TxData) (st : State)
    (Hjam : always_throttled up c) :
  exists st' evs,
    scan_address up max_transactions c a s e all st = (Completed all, st')
    /\ trace st' = trace st ++ evs
    /\ block_fetches evs = map (pair c) (range_desc e s)
    /\ block_delays evs = map backoff (seq 0 (Z.to_nat (e - s + 1)))
    /\ cooldowns evs = repeat 10000 (Z.to_nat (e - s + 1))
    /\ contract_cache st' = contract_cache st
    /\ token_cache st' = token_cache st
    /\ (forall i, (9 <= i)%nat -> backoff i = 60000)
    /\ (forall i, (i < 9)%nat -> backoff i = 200 * 2 ^ Z.of_nat i).
Proof.
  unfold scan_address.
  destruct (block_loop_jammed up max_transactions c Hjam (range_desc e s) a
              200 all (log_event (EvPrint (PProcessing c a)) st)
              ltac:(lia))
    as (st' & evs & Hrun & Ht & Hf & Hd & Hcd & Hcc & Htc).
  rewrite range_desc_length in Hd, Hcd.
  exists st', (EvPrint (PProcessing c a) :: evs).
  split; [done |].
  split; [rewrite Ht; simpl; by rewrite <- app_assoc |].
  do 5 (split; [done |]).
  split; intros i Hi; unfold backoff.
  - assert (2 ^ 9 <= 2 ^ Z.of_nat i) by (apply Z.pow_le_mono_r; lia). lia.
  - assert (2 ^ Z.of_nat i <= 2 ^ 8) by (apply Z.pow_le_mono_r; lia). lia.
Qed.

Lemma throttled_scan_backoff_witness :
  always_throttled jammed "ethereum"
  /\ exists st' evs,
       scan_address jammed None "ethereum" watched 1 12 [] empty_state
       = (Completed [], st')
       /\ trace st' = evs
       /\ block_delays evs
          = [200; 400; 800; 1600; 3200; 6400; 12800; 25600; 51200; 60000;
             60000; 60000].
Proof.
  assert (H : always_throttled jammed "ethereum").
  { intros h n. eexists. split; reflexivity. }
  split; [exact H |].
  destruct (throttled_scan_backoff jammed None "ethereum" watched 1 12 []
              empty_state H)
    as (st' & evs & Hrun & Ht & _ & Hd & _).
  exists st', evs. split; [exact Hrun |]. split; [exact Ht |].
  rewrite Hd. vm_compute. reflexivity.
Defined.

(** ** The exceptions of a run *)

Lemma chain_loop_end_given up wallet_addresses max_transactions connections
    start_block e all tr :
  exists rows,
    (chain_loop up wallet_addresses max_transactions connections start_block
       (Some e) all tr).1 = Ok rows.
Proof.
  revert start_block e all tr.
  induction connections as [|[c an] rest IH]; intros start_block e all tr.
  { by exists all. }
  simpl.
  destruct (address_loop up max_transactions wallet_addresses c _ e all _)
    as [[all'|all'] st'].
  - apply IH.
  - by exists all'.
Qed.

(** X14.  The one exception that [fetch_detailed_transactions] lets
    through is that of the request for the latest height: the call
    raises [e] exactly when [end_block] is not given, a chain is
    connected, and the request for the latest height of the first
    connected chain raises [e]; nothing else has been asked then.  With
    [end_block] given, or without a connected chain, the call returns a
    frame; without a connected chain the frame is empty and nothing is
    asked or printed. *)
Theorem fetch_raises_iff (up : Upstream) (wallet_addresses : list string)
    (max_transactions : option Z) (connections : list (string * Analyzer))
    (start_block end_block : option Z) (tr : list event) :
  let run := fetch_detailed_transactions up wallet_addresses max_transactions
               connections start_block end_block tr in
  (forall e,
     run.1 = Raise e
     <-> end_block = None
         /\ exists c an rest,
              connections = (c, an) :: rest
              /\ up_block_number up tr c = Raise e)
  /\ (forall e c,
        run.1 = Raise e -> head (map fst connections) = Some c ->
        run.2 = tr ++ [EvBlockNumber c])
  /\ (connections = [] -> run = (Ok [], tr)).
Proof.
  intros run. subst run. unfold fetch_detailed_transactions.
  destruct end_block as [e0|].
  { destruct (chain_loop_end_given up wallet_addresses max_transactions
                connections start_block e0 [] tr) as (rows & Hrows).
    split; [| split].
    - intros e. rewrite Hrows. split; [done | by intros [? _]].
    - intros e c. by rewrite Hrows.
    - by intros ->. }
  destruct connections as [|[c an] rest].
  { split; [| split]; [| done | done].
    intros e. split; [done | by intros (_ & ? & ? & ? & ? & _)]. }
  simpl. destruct (up_block_number up tr c) as [e0|err] eqn:Hn.
  - assert (Hok : exists rows,
              (match
                 address_loop up max_transactions wallet_addresses c
                   match start_block with
                   | Some s => s
                   | None => Z.max 0 (e0 - 100000)
                   end e0 []
                   {| trace := tr ++ [EvBlockNumber c];
                      contract_cache := an_contract_cache an;
                      token_cache := an_token_cache an |}
               with
               | (Completed all', st') =>
                   chain_loop up wallet_addresses max_transactions rest
                     (Some match start_block with
                           | Some s => s
                           | None => Z.max 0 (e0 - 100000)
                           end) (Some e0) all' (trace st')
               | (Limit all', st') => (Ok all', trace st')
               end).1 = Ok rows).
    { destruct (address_loop up max_transactions wallet_addresses c _ e0 [] _)
        as [[all'|all'] st'].
      - apply chain_loop_end_given.
      - by exists all'. }
    destruct Hok as (rows & Hrows). rewrite Hrows.
    split; [| split]; [| done | done].
    intros e. split; [done |].
    intros (_ & c' & an' & rest' & [= <- <- <-] & H). congruence.
  - split; [| split]; [| | done].
    + intros e. simpl. split.
      * intros [= <-]. split; [done |]. by exists c, an, rest.
      * intros (_ & c' & an' & rest' & [= <- <- <-] & H). congruence.
    + intros e c' _ [= <-]. done.
Qed.

Lemma fetch_raises_iff_witness :
  fetch_detailed_transactions headless [watched] None [("ethereum", fresh)]
    (Some 5) None []
  = (Raise (UpstreamError "Connection refused"), [EvBlockNumber "ethereum"])
  /\ (fetch_detailed_transactions offline [watched] None [] None None []).1
     = Ok [].
Proof.
  split; [vm_compute; reflexivity |].
  destruct (fetch_raises_iff offline [watched] None [] None None [])
    as (_ & _ & H).
  by rewrite (H eq_refl).
Defined.

(** ** The limit truncates the run *)

Lemma truncated_at_extend k rows tr rows_u tr_u rows_u' tr_u' :
  truncated_at k rows tr rows_u tr_u ->
  rows_u `prefix_of` rows_u' -> tr_u `prefix_of` tr_u' ->
  truncated_at k rows tr rows_u' tr_u'.
Proof.
  intros (Hk & Hr & Ht) Hr' Ht'. split; [done |].
  split; by etrans.
Qed.

Section Extends.

Variable up : Upstream.
Variable wallet_addresses : list string.
Variable max_transactions : option Z.

Lemma tx_loop_extends txs c a ts all st :
  all `prefix_of`
    control_rows (tx_loop up max_transactions txs c a ts all st).1
  /\ trace st `prefix_of`
       trace (tx_loop up max_transactions txs c a ts all st).2.
Proof.
  destruct (tx_loop_rows_from up max_transactions txs c a ts all st)
    as (new & -> & _).
  destruct (tx_loop_appends up max_transactions txs c a ts all st)
    as (evs & -> & _).
  split; by eexists.
Qed.

Lemma block_loop_extends blocks c a d all st :
  all `prefix_of`
    outcome_rows (block_loop up max_transactions blocks c a d all st).1
  /\ trace st `prefix_of`
       trace (block_loop up max_transactions blocks c a d all st).2.
Proof.
  destruct (block_loop_rows up max_transactions blocks c a d all st)
    as (new & -> & _).
  destruct (block_loop_spec up max_transactions blocks c a d all st)
    as (evs & k & -> & _).
  split; by eexists.
Qed.

Lemma address_loop_extends addresses c s e all st :
  all `prefix_of`
    outcome_rows
      (address_loop up max_transactions addresses c s e all st).1
  /\ trace st `prefix_of`
       trace (address_loop up max_transactions addresses c s e all st).2.
Proof.
  destruct (address_loop_rows up max_transactions addresses c s e all st)
    as (new & -> & _).
  destruct (address_loop_in_range up max_transactions [c] s e addresses c all
              st (or_introl eq_refl)) as (evs & -> & _).
  split; by eexists.
Qed.

Lemma chain_loop_extends connections s e all tr :
  exists rows,
    (chain_loop up wallet_addresses max_transactions connections (Some s)
       (Some e) all tr).1 = Ok rows
    /\ all `prefix_of` rows
    /\ tr `prefix_of`
         (chain_loop up wallet_addresses max_transactions connections
            (Some s) (Some e) all tr).2.
Proof.
  destruct (chain_loop_end_given up wallet_addresses max_transactions
              connections (Some s) e all tr) as (rows & Hrows).
  exists rows. split; [done |].
  destruct (chain_loop_rows up wallet_addresses max_transactions connections
              (Some s) (Some e) all tr rows Hrows) as (new & -> & _).
  destruct (chain_loop_in_range up wallet_addresses max_transactions
              connections s e all tr) as (evs & -> & _).
  split; by eexists.
Qed.

End Extends.

Section Truncation.

Variable up : Upstream.
Variable wallet_addresses : list string.
Variable k : Z.
Hypothesis k_pos : 0 < k.

#[local] Abbreviation below all := (Z.of_nat (List.length all) < k).

Lemma tx_loop_truncates txs c a ts all st :
  below all ->
  let U := tx_loop up None txs c a ts all st in
  (tx_loop up (Some k) txs c a ts all st = U /\ below (control_rows U.1))
  \/ (exists all1 st1,
        tx_loop up (Some k) txs c a ts all st = (Returned all1, st1)
        /\ truncated_at k all1 (trace st1) (control_rows U.1) (trace U.2)).
Proof.
  revert all st. induction txs as [|tx txs IH]; intros all st Hall.
  { by left. }
  simpl. destruct (touches tx a); [| by apply IH].
  match goal with
  | |- context [match ?m st with _ => _ end] =>
      destruct (m st) as [[tx_data|e] st']
  end; [| by left].
  cbn [limit_reached].
  destruct (Z.eqb_spec k 0) as [? | _]; [lia |]. cbn [negb andb].
  match goal with
  | |- context [k <=? ?x] => destruct (Z.leb_spec k x) as [Hk | Hk]
  end; rewrite length_app in Hk; simpl in Hk.
  - right. eexists _, _. split; [done |].
    destruct (tx_loop_extends up None txs c a ts (all ++ [tx_data])
                (log_event (EvPrint (PFound (tx_hash tx))) st'))
      as [Hr Ht].
    split; [rewrite length_app; simpl; lia | done].
  - apply IH. rewrite length_app. simpl. lia.
Qed.

Lemma block_loop_truncates blocks c a d all st :
  below all ->
  let U := block_loop up None blocks c a d all st in
  (block_loop up (Some k) blocks c a d all st = U /\ below (outcome_rows U.1))
  \/ (exists all1 st1,
        block_loop up (Some k) blocks c a d all st = (Limit all1, st1)
        /\ truncated_at k all1 (trace st1) (outcome_rows U.1) (trace U.2)).
Proof.
  revert d all st. induction blocks as [|n rest IH]; intros d all st Hall.
  { by left. }
  simpl. unfold block_body, request.
  destruct (up_get_block up _ c n) as [block|e].
  2:{ destruct (on_block_error n e d _) as [d' st'']. by apply IH. }
  match goal with
  | |- context [tx_loop up (Some k) ?txs c a ?ts all ?s] =>
      destruct (tx_loop_truncates txs c a ts all s Hall)
        as [[-> Hlen] | (all1 & st1 & -> & Htr)];
      pose proof (tx_loop_never_returns up txs c a ts all s) as Hnever;
      destruct (tx_loop up None txs c a ts all s)
        as [[all'|all'|e all'] st']
  end; simpl in *.
  - by apply IH.
  - by destruct (Hnever all').
  - destruct (on_block_error n e d st') as [d' st'']. by apply IH.
  - right. exists all1, st1. split; [done |].
    destruct (block_loop_extends up None rest c a d all' st').
    by eapply truncated_at_extend.
  - by destruct (Hnever all').
  - right. exists all1, st1. split; [done |].
    rewrite on_block_error_eq.
    match goal with
    | |- context [block_loop up None rest c a ?d' all' ?s'] =>
        destruct (block_loop_extends up None rest c a d' all' s')
          as [Hr Ht]
    end.
    eapply truncated_at_extend; [exact Htr | exact Hr |].
    etrans; [| exact Ht]. by eexists.
Qed.

Lemma address_loop_truncates addresses c s e all st :
  below all ->
  let U := address_loop up None addresses c s e all st in
  (address_loop up (Some k) addresses c s e all st = U
   /\ below (outcome_rows U.1))
  \/ (exists all1 st1,
        address_loop up (Some k) addresses c s e all st = (Limit all1, st1)
        /\ truncated_at k all1 (trace st1) (outcome_rows U.1) (trace U.2)).
Proof.
  revert all st. induction addresses as [|a rest IH]; intros all st Hall.
  { by left. }
  simpl. destruct (up_is_address up a); [| by apply IH].
  unfold scan_address.
  match goal with
  | |- context [block_loop up (Some k) ?bs c a ?d all ?s0] =>
      destruct (block_loop_truncates bs c a d all s0 Hall)
        as [[-> Hlen] | (all1 & st1 & -> & Htr)];
      destruct (block_loop_unlimited up bs c a d all s0)
        as (all' & st' & evs & HU & _); rewrite HU in *
  end; simpl in *.
  - by apply IH.
  - right. exists all1, st1. split; [done |].
    destruct (address_loop_extends up None rest c s e all' st').
    by eapply truncated_at_extend.
Qed.

Lemma chain_loop_truncates connections start_block end_block all tr :
  below all ->
  let L := chain_loop up wallet_addresses (Some k) connections start_block
             end_block all tr in
  let U := chain_loop up wallet_addresses None connections start_block
             end_block all tr in
  (L = U /\ forall rows, U.1 = Ok rows -> below rows)
  \/ (exists rows rows_u,
        L.1 = Ok rows /\ U.1 = Ok rows_u
        /\ truncated_at k rows L.2 rows_u U.2).
Proof.
  revert start_block end_block all tr.
  induction connections as [|[c an] rest IH];
    intros start_block end_block all tr Hall.
  { left. split; [done |]. by intros rows [= <-]. }
  simpl.
  assert (Hstep : forall s e tr1,
    let L := match
               address_loop up (Some k) wallet_addresses c s e all
                 {| trace := tr1; contract_cache := an_contract_cache an;
                    token_cache := an_token_cache an |}
             with
             | (Completed all', st') =>
                 chain_loop up wallet_addresses (Some k) rest (Some s)
                   (Some e) all' (trace st')
             | (Limit all', st') => (Ok all', trace st')
             end in
    let U := match
               address_loop up None wallet_addresses c s e all
                 {| trace := tr1; contract_cache := an_contract_cache an;
                    token_cache := an_token_cache an |}
             with
             | (Completed all', st') =>
                 chain_loop up wallet_addresses None rest (Some s) (Some e)
                   all' (trace st')
             | (Limit all', st') => (Ok all', trace st')
             end in
    (L = U /\ forall rows, U.1 = Ok rows -> below rows)
    \/ (exists rows rows_u,
          L.1 = Ok rows /\ U.1 = Ok rows_u
          /\ truncated_at k rows L.2 rows_u U.2)).
  { intros s e tr1.
    match goal with
    | |- context [address_loop up (Some k) wallet_addresses c s e all ?s0] =>
        destruct (address_loop_truncates wallet_addresses c s e all s0 Hall)
          as [[-> Hlen] | (all1 & st1 & -> & Htr)];
        destruct (address_loop_unlimited up wallet_addresses c s e all s0)
          as (all' & st' & evs & HU & _); rewrite HU in *
    end; simpl in *.
    - by apply IH.
    - right.
      destruct (chain_loop_extends up wallet_addresses None rest s e all'
                  (trace st')) as (rows_u & Hu & Hr & Ht).
      exists all1, rows_u. split; [done |]. split; [done |].
      by eapply truncated_at_extend. }
  destruct end_block as [e|]; [apply Hstep |].
  destruct (up_block_number up tr c) as [e|err]; [apply Hstep |].
  left. by split.
Qed.

End Truncation.

(** X15.  The limit truncates the run, and does nothing else.  For a
    limit [k > 0], the rows of the limited run are the first [k] rows
    of the run without a limit (all of them when there are fewer), what
    the limited run asks, prints and waits for is an initial segment of
    what the other run does, and the two runs are the same when the
    other one finds fewer than [k] rows. *)
Theorem limit_truncates_run (up : Upstream) (wallet_addresses : list string)
    (k : Z) (connections : list (string * Analyzer))
    (start_block end_block : option Z) (tr : list event)
    (Hk : 0 < k) :
  let limited := fetch_detailed_transactions up wallet_addresses (Some k)
                   connections start_block end_block tr in
  let unlimited := fetch_detailed_transactions up wallet_addresses None
                     connections start_block end_block tr in
  match unlimited.1 with
  | Ok rows => limited.1 = Ok (take (Z.to_nat k) rows)
  | Raise _ => limited = unlimited
  end
  /\ limited.2 `prefix_of` unlimited.2
  /\ (forall rows,
        unlimited.1 = Ok rows -> Z.of_nat (List.length rows) < k ->
        limited = unlimited).
Proof.
  intros limited unlimited. subst limited unlimited.
  unfold fetch_detailed_transactions.
  destruct (chain_loop_truncates up wallet_addresses k Hk connections
              start_block end_block [] tr)
    as [[-> Hlen] | (rows & rows_u & Hl & -> & Hn & [more ->] & Ht)];
    [simpl; lia | |].
  - split; [| split]; [| done | done].
    destruct (chain_loop up wallet_addresses None _ _ _ _ _).1
      as [rows|e] eqn:E; [| done].
    rewrite take_ge; [done |]. specialize (Hlen rows eq_refl). lia.
  - split; [| split]; [| done |].
    + rewrite Hl. f_equal. symmetry. apply take_app_length'. lia.
    + intros ? [= <-]. rewrite length_app. lia.
Qed.

Lemma limit_truncates_run_witness :
  exists rows,
    (fetch_detailed_transactions (busy 2) [watched] None
       [("ethereum", fresh)] (Some 4) (Some 5) []).1 = Ok rows
    /\ List.length rows = 4%nat
    /\ (fetch_detailed_transactions (busy 2) [watched] (Some 3)
          [("ethereum", fresh)] (Some 4) (Some 5) []).1 = Ok (take 3 rows).
Proof.
  eexists. split; [vm_compute; reflexivity |]. split; [reflexivity |].
  destruct (limit_truncates_run (busy 2) [watched] 3 [("ethereum", fresh)]
              (Some 4) (Some 5) [] ltac:(lia)) as [H _].
  exact H.
Defined.

(** ** The receipt requests of a row *)

Lemma receipts_of_refl st : receipts_of [] st st.
Proof. exists []. by rewrite app_nil_r. Qed.

Lemma receipts_of_trans l1 l2 st1 st2 st3 :
  receipts_of l1 st1 st2 -> receipts_of l2 st2 st3 ->
  receipts_of (l1 ++ l2) st1 st3.
Proof.
  intros (evs1 & Ht1 & Hr1) (evs2 & Ht2 & Hr2). exists (evs1 ++ evs2).
  split; [by rewrite Ht2, Ht1, app_assoc |].
  unfold receipt_fetches in *. by rewrite omap_app, Hr1, Hr2.
Qed.

Lemma receipts_of_none st st' :
  appends no_receipt st st' -> receipts_of [] st st'.
Proof.
  intros (evs & Ht & Hf). exists evs. split; [done |].
  clear Ht. induction Hf as [|ev evs Hev _ IH]; [done |].
  by destruct ev.
Qed.

Lemma receipts_of_log ev st :
  no_receipt ev -> receipts_of [] st (log_event ev st).
Proof. intros H. apply receipts_of_none. by apply appends_one. Qed.

Lemma receipts_of_request c h st :
  receipts_of [(c, h)] st (log_event (EvGetReceipt c h) st).
Proof. by exists [EvGetReceipt c h]. Qed.

Section Receipts.

Variable up : Upstream.
Variable chain : string.

#[local] Hint Extern 1 (no_receipt _) => exact I : steps.

Lemma no_receipt_lookup_contract a :
  steps (appends no_receipt) (lookup_contract up chain a).
Proof. unfold lookup_contract. steps_walk. Qed.
#[local] Hint Resolve no_receipt_lookup_contract : steps.

Lemma no_receipt_get_contract_info a :
  steps (appends no_receipt) (get_contract_info up chain a).
Proof. unfold get_contract_info, print. steps_walk. Qed.

Lemma no_receipt_lookup_token a :
  steps (appends no_receipt) (lookup_token up chain a).
Proof. unfold lookup_token. steps_walk. Qed.
#[local] Hint Resolve no_receipt_lookup_token : steps.

Lemma no_receipt_get_token_info a :
  steps (appends no_receipt) (_get_token_info up chain a).
Proof. unfold _get_token_info, print. steps_walk. Qed.
#[local] Hint Resolve no_receipt_get_token_info : steps.

Lemma no_receipt_transfers_loop logs acc :
  steps (appends no_receipt) (transfers_loop up chain logs acc).
Proof.
  revert acc. induction logs as [|log logs IH]; intros acc; simpl;
    steps_walk.
Qed.

Lemma get_token_transfers_receipts h st :
  receipts_of [(chain, h)] st (get_token_transfers up chain h st).2.
Proof.
  rewrite get_token_transfers_eq. cbv zeta.
  change [(chain, h)] with ([(chain, h)] ++ @nil (string * string)).
  eapply receipts_of_trans; [apply receipts_of_request |].
  destruct (up_get_receipt up (trace st) chain h) as [rc|e].
  - pose proof (no_receipt_transfers_loop (rc_logs rc) []
                  (log_event (EvGetReceipt chain h) st)) as Hl.
    destruct (transfers_loop up chain (rc_logs rc) [] _) as [[ts|e] st2];
      simpl in *.
    + by apply receipts_of_none.
    + apply receipts_of_none. etrans; [exact Hl | by apply appends_one].
  - by apply receipts_of_log.
Qed.

Lemma classify_transaction_receipts h rc st :
  receipts_of [(chain, h)] st (classify_transaction up chain h rc st).2.
Proof.
  unfold classify_transaction, bind at 1.
  pose proof (get_token_transfers_receipts h st) as Hg.
  destruct (total_get_token_transfers up chain h st) as (ts & Hts).
  destruct (get_token_transfers up chain h st) as [r s1]. simpl in *.
  subst r.
  destruct (0 <? List.length ts)%nat; [done |].
  destruct (Str.truthy (rc_to rc)); [| done].
  change [(chain, h)] with ([(chain, h)] ++ @nil (string * string)).
  eapply receipts_of_trans; [exact Hg |].
  apply receipts_of_none.
  pose proof (no_receipt_get_contract_info (Str.or_empty (rc_to rc)) s1)
    as Hc.
  unfold bind.
  destruct (get_contract_info up chain _ s1) as [[info|e] s2]; simpl in *;
    [| done].
  match goal with
  | |- context [if ?b then _ else _] => destruct b
  end; exact Hc.
Qed.

Lemma process_receipts tx rc a ts st :
  receipts_of [(chain, tx_hash tx); (chain, tx_hash tx)] st
    (_process_detailed_transaction up tx rc chain a ts st).2.
Proof.
  destruct (process_cases up tx rc chain a ts st)
    as (transfers & ty & s1 & s2 & Hg & Hc & _ & ->).
  pose proof (get_token_transfers_receipts (tx_hash tx) st) as H1.
  pose proof (classify_transaction_receipts (tx_hash tx) rc s1) as H2.
  rewrite Hg in H1. rewrite Hc in H2. simpl in H1, H2.
  pose proof (receipts_of_trans _ _ _ _ _ H1 H2) as H12. simpl in H12.
  destruct (is_cex_address chain (tx_from tx)); [| done].
  destruct (cex_of_recipient chain tx); [| done].
  simpl. destruct (Str.truthy (tx_to tx)); [| done].
  change [(chain, tx_hash tx); (chain, tx_hash tx)]
    with ([(chain, tx_hash tx); (chain, tx_hash tx)]
          ++ @nil (string * string)).
  eapply receipts_of_trans; [exact H12 |].
  apply receipts_of_none. apply no_receipt_get_contract_info.
Qed.

End Receipts.

Lemma costs_trans n1 n2 st1 st2 st3 :
  costs n1 st1 st2 -> costs n2 st2 st3 -> costs (n1 + n2) st1 st3.
Proof.
  intros (evs1 & Ht1 & Hr1) (evs2 & Ht2 & Hr2). exists (evs1 ++ evs2).
  split; [by rewrite Ht2, Ht1, app_assoc |].
  unfold receipt_fetches in *. rewrite omap_app, length_app. lia.
Qed.

Lemma costs_zero st st' : trace st `prefix_of` trace st' -> costs 0 st st'.
Proof. intros [evs Ht]. exists evs. split; [done | lia]. Qed.

Lemma costs_log ev st : costs 0 st (log_event ev st).
Proof. apply costs_zero. by eexists. Qed.

Lemma costs_zero_l n st1 st2 st3 :
  costs 0 st1 st2 -> costs n st2 st3 -> costs n st1 st3.
Proof. intros H1 H2. apply (costs_trans 0 n _ _ _ H1 H2). Qed.

Lemma costs_zero_r n st1 st2 st3 :
  costs n st1 st2 -> costs 0 st2 st3 -> costs n st1 st3.
Proof.
  intros H1 H2. pose proof (costs_trans n 0 _ _ _ H1 H2) as H.
  by rewrite Nat.add_0_r in H.
Qed.

Section ReceiptsOfScan.

Variable up : Upstream.
Variable wallet_addresses : list string.
Variable max_transactions : option Z.

Lemma tx_body_receipts tx c a ts st :
  let r := (sleep BeforeReceipt 100 ;;
            receipt <- request (EvGetReceipt c (tx_hash tx))
                         (fun h => up_get_receipt up h c (tx_hash tx)) ;;
            _process_detailed_transaction up tx receipt c a ts) st in
  exists l,
    receipts_of l st r.2
    /\ match r.1 with
       | Ok tx_data => l = row_receipts tx_data
       | Raise _ =>
           l = [(c, tx_hash tx)] \/ l = repeat (c, tx_hash tx) 3
       end.
Proof.
  unfold bind at 1 2, sleep, emit, request.
  cbn [trace contract_cache token_cache fst snd].
  set (s1 := {| trace := trace st ++ [EvSleep BeforeReceipt 100];
                contract_cache := contract_cache st;
                token_cache := token_cache st |}).
  set (s2 := {| trace := (trace st ++ [EvSleep BeforeReceipt 100])
                         ++ [EvGetReceipt c (tx_hash tx)];
                contract_cache := contract_cache st;
                token_cache := token_cache st |}).
  assert (H12 : receipts_of [(c, tx_hash tx)] st s2).
  { change [(c, tx_hash tx)]
      with (@nil (string * string) ++ [(c, tx_hash tx)]).
    apply (receipts_of_trans _ _ st s1 s2).
    - by apply (receipts_of_log (EvSleep BeforeReceipt 100) st).
    - apply (receipts_of_request c (tx_hash tx) s1). }
  destruct (up_get_receipt up _ c (tx_hash tx)) as [rc|e].
  2:{ exists [(c, tx_hash tx)]. split; [done | by left]. }
  pose proof (process_receipts up c tx rc a ts s2) as Hp.
  pose proof (receipts_of_trans _ _ _ _ _ H12 Hp) as H.
  exists (repeat (c, tx_hash tx) 3). split; [exact H |].
  destruct (_process_detailed_transaction up tx rc c a ts s2)
    as [[tx_data|e] s3] eqn:E; simpl; [| by right].
  apply process_row in E as (Hc & Hh & _).
  unfold row_receipts. by rewrite Hc, Hh.
Qed.

Lemma tx_loop_receipts txs c a ts all st :
  let r := tx_loop up max_transactions txs c a ts all st in
  exists new extra,
    control_rows r.1 = all ++ new
    /\ receipts_of (flat_map row_receipts new ++ extra) st r.2
    /\ match r.1 with
       | Raised _ _ =>
           exists h, extra = [(c, h)] \/ extra = repeat (c, h) 3
       | _ => extra = []
       end.
Proof.
  revert all st. induction txs as [|tx txs IH]; intros all st.
  { exists [], []. simpl. rewrite app_nil_r. split; [done |].
    split; [apply receipts_of_refl | done]. }
  simpl. destruct (touches tx a); [| apply IH].
  destruct (tx_body_receipts tx c a ts st) as (l & Hl & Hres).
  match goal with
  | |- context [match ?m st with _ => _ end] =>
      destruct (m st) as [[tx_data|e] st']
  end; simpl in Hl, Hres.
  - subst l.
    assert (Hf : receipts_of (row_receipts tx_data) st
                   (log_event (EvPrint (PFound (tx_hash tx))) st')).
    { rewrite <- (app_nil_r (row_receipts tx_data)).
      eapply receipts_of_trans; [exact Hl |]. by apply receipts_of_log. }
    destruct (limit_reached _ _).
    + exists [tx_data], []. simpl. split; [done |]. split; [| done].
      exact Hf.
    + destruct (IH (all ++ [tx_data])
                  (log_event (EvPrint (PFound (tx_hash tx))) st'))
        as (new & extra & Hr & Hrec & Hextra).
      exists (tx_data :: new), extra. rewrite Hr, <- app_assoc.
      split; [done |]. split; [| done].
      cbn [flat_map]. rewrite <- app_assoc.
      eapply receipts_of_trans; [exact Hf | exact Hrec].
  - exists [], l. simpl. rewrite app_nil_r. split; [done |].
    split; [done |]. by exists (tx_hash tx).
Qed.

Lemma tx_loop_costs txs c a ts all st :
  let r := tx_loop up max_transactions txs c a ts all st in
  exists new,
    control_rows r.1 = all ++ new /\ costs (List.length new) st r.2.
Proof.
  destruct (tx_loop_receipts txs c a ts all st)
    as (new & extra & Hr & (evs & Ht & Hf) & _).
  exists new. split; [done |]. exists evs. split; [done |].
  rewrite Hf, length_app.
  rewrite (length_flat_map_const row_receipts 3) by done. lia.
Qed.

Lemma block_loop_costs blocks c a d all st :
  let r := block_loop up max_transactions blocks c a d all st in
  exists new,
    outcome_rows r.1 = all ++ new /\ costs (List.length new) st r.2.
Proof.
  revert d all st. induction blocks as [|n rest IH]; intros d all st.
  { exists []. simpl. rewrite app_nil_r. split; [done |].
    by apply costs_zero. }
  simpl. unfold block_body, request.
  assert (Hcont : forall d' all' new st',
            all' = all ++ new -> costs (List.length new) st st' ->
            let r := block_loop up max_transactions rest c a d' all' st' in
            exists new',
              outcome_rows r.1 = all ++ new'
              /\ costs (List.length new') st r.2).
  { intros d' all' new st' -> Hnew.
    destruct (IH d' (all ++ new) st') as (new' & Hr & Hc).
    exists (new ++ new'). rewrite Hr, <- app_assoc. split; [done |].
    rewrite length_app. by eapply costs_trans. }
  set (s1 := log_event (EvSleep BeforeBlock d) st).
  assert (H1 : costs 0 st s1) by apply costs_log.
  destruct (up_get_block up _ c n) as [block|e]; cbn [fst snd].
  - match goal with
    | |- context [tx_loop up max_transactions ?txs c a ?ts all ?s] =>
        assert (H2 : costs 0 st s)
          by (eapply costs_zero_l; [exact H1 | apply (costs_log _ s1)]);
        destruct (tx_loop_costs txs c a ts all s) as (new & Hr & Hc);
        destruct (tx_loop up max_transactions txs c a ts all s)
          as [[all'|all'|e all'] st']
    end; simpl in Hr, Hc;
      assert (H3 : costs (List.length new) st st')
        by (eapply costs_zero_l; [exact H2 | exact Hc]).
    + by eapply Hcont.
    + by exists new.
    + rewrite on_block_error_eq. eapply Hcont; [exact Hr |].
      eapply costs_zero_r; [exact H3 |]. apply costs_zero. by eexists.
  - rewrite on_block_error_eq.
    eapply (Hcont _ all []); [by rewrite app_nil_r |].
    eapply costs_zero_l; [exact H1 |].
    eapply costs_zero_l; [apply (costs_log (EvGetBlock c n) s1) |].
    apply costs_zero. by eexists.
Qed.

Lemma address_loop_costs addresses c s e all st :
  let r := address_loop up max_transactions addresses c s e all st in
  exists new,
    outcome_rows r.1 = all ++ new /\ costs (List.length new) st r.2.
Proof.
  revert all st. induction addresses as [|a rest IH]; intros all st.
  { exists []. simpl. rewrite app_nil_r. split; [done |].
    by apply costs_zero. }
  simpl. destruct (up_is_address up a).
  - unfold scan_address.
    destruct (block_loop_costs (range_desc e s) c a 200 all
                (log_event (EvPrint (PProcessing c a)) st))
      as (new & Hr & Hc).
    assert (Hc' : costs (List.length new) st
                    (block_loop up max_transactions (range_desc e s) c a 200
                       all (log_event (EvPrint (PProcessing c a)) st)).2).
    { eapply costs_zero_l; [apply costs_log | exact Hc]. }
    destruct (block_loop up max_transactions _ c a 200 all _)
      as [[all'|all'] st']; simpl in Hr, Hc'; subst all'.
    + destruct (IH (all ++ new) st') as (new' & Hr' & Hc'').
      exists (new ++ new'). rewrite Hr', <- app_assoc. split; [done |].
      rewrite length_app. by eapply costs_trans.
    + by exists new.
  - destruct (IH all (log_event (EvPrint (PInvalidAddress a)) st))
      as (new & Hr & Hc).
    exists new. split; [done |].
    eapply costs_zero_l; [apply costs_log | exact Hc].
Qed.

Lemma chain_loop_costs connections start_block end_block all tr rows :
  let r := chain_loop up wallet_addresses max_transactions connections
             start_block end_block all tr in
  r.1 = Ok rows ->
  exists new evs,
    rows = all ++ new /\ r.2 = tr ++ evs
    /\ (3 * List.length new <= List.length (receipt_fetches evs))%nat.
Proof.
  revert start_block end_block all tr.
  induction connections as [|[c an] rest IH];
    intros start_block end_block all tr.
  { simpl. intros [= <-]. exists [], []. by rewrite !app_nil_r. }
  simpl.
  assert (Hstep : forall s e tr1 evs1,
    tr1 = tr ++ evs1 ->
    let r :=
      match
        address_loop up max_transactions wallet_addresses c s e all
          {| trace := tr1; contract_cache := an_contract_cache an;
             token_cache := an_token_cache an |}
      with
      | (Completed all', st') =>
          chain_loop up wallet_addresses max_transactions rest (Some s)
            (Some e) all' (trace st')
      | (Limit all', st') => (Ok all', trace st')
      end in
    r.1 = Ok rows ->
    exists new evs,
      rows = all ++ new /\ r.2 = tr ++ evs
      /\ (3 * List.length new <= List.length (receipt_fetches evs))%nat).
  { intros s e tr1 evs1 ->.
    destruct (address_loop_costs wallet_addresses c s e all
                {| trace := tr ++ evs1;
                   contract_cache := an_contract_cache an;
                   token_cache := an_token_cache an |})
      as (new & Hr & evs & Ht & Hlen).
    destruct (address_loop up max_transactions wallet_addresses c s e all _)
      as [[all'|all'] st']; simpl in Hr, Ht; subst all'.
    - intros r H. subst r.
      apply IH in H as (new' & evs' & -> & Ht' & Hlen').
      exists (new ++ new'), (evs1 ++ evs ++ evs').
      rewrite <- app_assoc. split; [done |].
      split; [by rewrite Ht', Ht, <- !app_assoc |].
      unfold receipt_fetches in *. rewrite !omap_app, !length_app. lia.
    - simpl. intros [= <-]. exists new, (evs1 ++ evs).
      split; [done |]. split; [by rewrite Ht, <- app_assoc |].
      unfold receipt_fetches in *. rewrite omap_app, length_app. lia. }
  destruct end_block as [e|].
  - apply (Hstep _ e tr []). by rewrite app_nil_r.
  - destruct (up_block_number up tr c) as [e|err]; [| done].
    apply (Hstep _ e _ [EvBlockNumber c]). done.
Qed.

End ReceiptsOfScan.

(** X16.  A row costs three requests for the same receipt:
    [_process_detailed_transaction] makes two requests for the receipt
    of its transaction, whatever it returns or raises, one in
    [get_token_transfers] and one in [classify_transaction], after the
    one that the scan has made itself.  The receipt requests of the
    transaction loop of a block that ends without an exception are three
    for each row it adds, in the order of the rows; and a run that
    returns [n] rows has made at least [3 * n] receipt requests. *)
Theorem three_receipt_requests_per_row (up : Upstream)
    (wallet_addresses : list string) (max_transactions : option Z) :
  (forall tx receipt c a timestamp st,
     receipts_of [(c, tx_hash tx); (c, tx_hash tx)] st
       (_process_detailed_transaction up tx receipt c a timestamp st).2)
  /\ (forall txs c a timestamp all st,
        let r := tx_loop up max_transactions txs c a timestamp all st in
        (forall e all', r.1 <> Raised e all') ->
        exists new,
          control_rows r.1 = all ++ new
          /\ receipts_of (flat_map row_receipts new) st r.2)
  /\ (forall connections start_block end_block tr rows,
        let r := fetch_detailed_transactions up wallet_addresses
                   max_transactions connections start_block end_block tr in
        r.1 = Ok rows ->
        exists evs,
          r.2 = tr ++ evs
          /\ (3 * List.length rows
              <= List.length (receipt_fetches evs))%nat).
Proof.
  split; [| split].
  - intros tx receipt c a timestamp st. apply process_receipts.
  - intros txs c a timestamp all st r Hok. subst r.
    destruct (tx_loop_receipts up max_transactions txs c a timestamp all st)
      as (new & extra & Hr & Hrec & Hextra).
    exists new. split; [done |].
    destruct (tx_loop up max_transactions txs c a timestamp all st).1
      as [all'|all'|e all']; [| | by destruct (Hok e all')];
      subst extra; by rewrite app_nil_r in Hrec.
  - intros connections start_block end_block tr rows r H. subst r.
    unfold fetch_detailed_transactions in *.
    apply chain_loop_costs in H as (new & evs & -> & Ht & Hlen).
    by exists evs.
Qed.

Lemma three_receipt_requests_per_row_witness :
  exists rows evs,
    (fetch_detailed_transactions (busy 2) [watched] None
       [("ethereum", fresh)] (Some 5) (Some 5) []).1 = Ok rows
    /\ List.length rows = 2%nat
    /\ (fetch_detailed_transactions (busy 2) [watched] None
          [("ethereum", fresh)] (Some 5) (Some 5) []).2 = [] ++ evs
    /\ (3 * List.length rows <= List.length (receipt_fetches evs))%nat.
Proof.
  destruct (three_receipt_requests_per_row (busy 2) [watched] None)
    as (_ & _ & H).
  pose (rows := match
                  (fetch_detailed_transactions (busy 2) [watched] None
                     [("ethereum", fresh)] (Some 5) (Some 5) []).1
                with
                | Ok rows => rows
                | Raise _ => []
                end).
  assert (Hrows : (fetch_detailed_transactions (busy 2) [watched] None
                     [("ethereum", fresh)] (Some 5) (Some 5) []).1
                  = Ok rows).
  { vm_compute. reflexivity. }
  destruct (H [("ethereum", fresh)] (Some 5) (Some 5) [] rows Hrows)
    as (evs & Ht & Hlen).
  exists rows, evs. split; [exact Hrows |].
  split; [vm_compute; reflexivity |]. split; [exact Ht | exact Hlen].
Defined.

(** ** The watched addresses of the environment *)

Lemma split_length sep s :
  List.length (Text.split sep s) = S (Text.count sep s).
Proof.
  induction s as [|c s IH]; [done |].
  simpl. destruct (Ascii.eqb c sep); simpl; [by rewrite IH |].
  destruct (Text.split sep s); simpl in *; lia.
Qed.

Lemma split_concat sep s :
  String.concat (String sep "") (Text.split sep s) = s.
Proof.
  induction s as [|c s IH]; [done |].
  simpl. destruct (Ascii.eqb_spec c sep) as [-> | _].
  - pose proof (split_length sep s) as Hl.
    destruct (Text.split sep s) as [|w ws]; [done |].
    cbn [String.concat]. simpl. by rewrite <- IH.
  - pose proof (split_length sep s) as Hl.
    destruct (Text.split sep s) as [|w ws]; [done |].
    rewrite <- IH. by destruct ws.
Qed.

Lemma split_no_sep sep s :
  Forall (fun w => Text.count sep w = 0%nat) (Text.split sep s).
Proof.
  induction s as [|c s IH]; [by repeat constructor |].
  simpl. destruct (Ascii.eqb c sep) eqn:E; [by constructor |].
  destruct (Text.split sep s) as [|w ws].
  - repeat constructor. simpl. by rewrite E.
  - apply Forall_cons in IH as [Hw Hws]. constructor; [| done].
    simpl. by rewrite E, Hw.
Qed.

Lemma lstrip_count c s : (Text.count c (Text.lstrip s) <= Text.count c s)%nat.
Proof.
  induction s as [|d s IH]; [done |].
  simpl. destruct (Text.is_space d); simpl; lia.
Qed.

Lemma rstrip_count c s : (Text.count c (Text.rstrip s) <= Text.count c s)%nat.
Proof.
  induction s as [|d s IH]; [done |].
  simpl. destruct (Text.rstrip s) as [|e r].
  - destruct (Text.is_space d); simpl in *; lia.
  - simpl in *. lia.
Qed.

Lemma rstrip_idem s : Text.rstrip (Text.rstrip s) = Text.rstrip s.
Proof.
  induction s as [|c s IH]; [done |].
  simpl. destruct (Text.rstrip s) as [|d r] eqn:E.
  - destruct (Text.is_space c) eqn:Hc; [done |]. simpl. by rewrite Hc.
  - change (Text.rstrip (String c (String d r)))
      with (match Text.rstrip (String d r) with
            | EmptyString =>
                if Text.is_space c then EmptyString else String c EmptyString
            | r' => String c r'
            end).
    by rewrite IH.
Qed.

(** A string that does not begin with white space. *)
Lemma lstrip_fixed s :
  match s with
  | String c _ => Text.is_space c = false
  | EmptyString => True
  end ->
  Text.lstrip s = s.
Proof. destruct s as [|c s]; [done |]. simpl. by intros ->. Qed.

Lemma lstrip_head s :
  match Text.lstrip s with
  | String c _ => Text.is_space c = false
  | EmptyString => True
  end.
Proof.
  induction s as [|c s IH]; [done |].
  simpl. by destruct (Text.is_space c) eqn:E.
Qed.

Lemma rstrip_head s :
  match s with
  | String c _ => Text.is_space c = false
  | EmptyString => True
  end ->
  match Text.rstrip s with
  | String c _ => Text.is_space c = false
  | EmptyString => True
  end.
Proof.
  destruct s as [|c s]; [done |]. simpl. intros Hc.
  destruct (Text.rstrip s); [by rewrite Hc |]. done.
Qed.

Lemma strip_idem s : Text.strip (Text.strip s) = Text.strip s.
Proof.
  unfold Text.strip.
  rewrite (lstrip_fixed (Text.rstrip (Text.lstrip s))).
  - apply rstrip_idem.
  - apply rstrip_head, lstrip_head.
Qed.

(** X17.  The watched addresses of a fetcher are the pieces of
    [WALLET_ADDRESSES] between its commas, each without the white space
    around it: there is one more than there are commas, so there is at
    least one and an unset or empty variable gives the one address
    [''], and empty pieces and repeated addresses are kept; no address
    holds a comma or begins or ends with white space; and the pieces,
    before the white space is taken off, joined by commas give the
    variable back. *)
Theorem wallet_addresses_from_env (getenv : string -> option string) :
  let wallet := DetailedTransactionFetcher.wallet_addresses_of_env getenv in
  let v := wallet_value getenv in
  List.length wallet = S (Text.count "," v)
  /\ (v = "" -> wallet = [""])
  /\ Forall (fun a => Text.count "," a = 0%nat /\ Text.strip a = a) wallet
  /\ String.concat "," (Text.split "," v) = v
  /\ wallet = map Text.strip (Text.split "," v).
Proof.
  intros wallet v. subst wallet.
  unfold DetailedTransactionFetcher.wallet_addresses_of_env.
  fold (wallet_value getenv). fold v.
  split; [by rewrite length_map, split_length |].
  split; [by intros -> |].
  split; [| split; [apply split_concat | done]].
  pose proof (split_no_sep "," v) as Hsplit.
  induction Hsplit as [|w ws Hw _ IH]; [constructor |].
  simpl. constructor; [| exact IH].
  split; [| apply strip_idem].
  unfold Text.strip.
  pose proof (rstrip_count "," (Text.lstrip w)).
  pose proof (lstrip_count "," w). lia.
Qed.

Lemma wallet_addresses_from_env_witness :
  DetailedTransactionFetcher.wallet_addresses_of_env dotenv
  = [watched; watched_too; ""]
  /\ DetailedTransactionFetcher.wallet_addresses_of_env no_env = [""].
Proof.
  split; [vm_compute; reflexivity |].
  destruct (wallet_addresses_from_env no_env) as (_ & H & _).
  apply H. reflexivity.
Defined.

(** ** The connections of a fetcher *)

Lemma append_empty_r (s : string) : s +:+ "" = s.
Proof.
  induction s as [|c s IH]; [done |].
  change (String c (s +:+ "") = String c s). by rewrite IH.
Qed.

Lemma assoc_CHAIN_CONFIGS c :
  assoc c CHAIN_CONFIGS
  = if has_key c CHAIN_CONFIGS
    then Some {| cfg_rpc_url := "https://mainnet.infura.io/v3/{project_id}";
                 cfg_chain_id := 1;
                 cfg_name := "Ethereum Mainnet";
                 cfg_explorer_api := "https://api.etherscan.io/api";
                 cfg_explorer_url := "https://etherscan.io" |}
    else None.
Proof.
  unfold has_key. simpl. by destruct (String.eqb c "ethereum").
Qed.

Lemma has_key_CHAIN_CONFIGS c :
  has_key c CHAIN_CONFIGS = true <-> c = "ethereum".
Proof.
  unfold has_key. simpl. rewrite orb_false_r. apply String.eqb_eq.
Qed.

Section Connections.

Variable net : Network.
Variable getenv : string -> option string.

Lemma rpc_url_of_ethereum config :
  assoc "ethereum" CHAIN_CONFIGS = Some config ->
  DetailedTransactionFetcher.rpc_url_of getenv config = infura_url getenv.
Proof.
  intros [= <-]. unfold DetailedTransactionFetcher.rpc_url_of, infura_url.
  cbn [cfg_rpc_url].
  change (Str.contains "infura.io"
            "https://mainnet.infura.io/v3/{project_id}") with true.
  cbv iota. unfold Text.format_project_id.
  change (index 0 "{project_id}" "https://mainnet.infura.io/v3/{project_id}")
    with (Some 29%nat).
  cbv iota.
  change (substring 0 29 "https://mainnet.infura.io/v3/{project_id}")
    with "https://mainnet.infura.io/v3/".
  change (substring (29 + 12)
            (String.length "https://mainnet.infura.io/v3/{project_id}"
             - (29 + 12))
            "https://mainnet.infura.io/v3/{project_id}") with "".
  by rewrite append_empty_r.
Qed.

(** The loop of [_setup_connections], from connections that hold at
    most the one chain of [CHAIN_CONFIGS]. *)
Lemma setup_connections_spec chains connections tr :
  connections = []
  \/ connections = [("ethereum", TransactionAnalyzer.__init__)] ->
  let r := DetailedTransactionFetcher._setup_connections net getenv chains
             connections tr in
  exists evs,
    r.2 = tr ++ evs
    /\ Forall (fun p => p = ("ethereum", infura_url getenv))
         (connect_attempts evs)
    /\ match first_unknown_chain chains with
       | Some c =>
           r.1 = Raise (KeyError c)
           /\ (List.length (connect_attempts evs) < List.length chains)%nat
       | None =>
           List.length (connect_attempts evs) = List.length chains
           /\ exists connections',
                r.1 = Ok connections'
                /\ (connections' = []
                    \/ connections'
                       = [("ethereum", TransactionAnalyzer.__init__)])
                /\ (connections' <> []
                    <-> connections <> []
                        \/ In (SvPrint (LConnected "Ethereum Mainnet")) evs)
       end.
Proof.
  revert connections tr.
  induction chains as [|c chains IH]; intros connections tr Hconn.
  { exists []. simpl. rewrite app_nil_r. split; [done |].
    split; [constructor |]. split; [done |].
    exists connections. split; [done |]. split; [done |]. tauto. }
  cbn [DetailedTransactionFetcher._setup_connections].
  rewrite assoc_CHAIN_CONFIGS.
  unfold first_unknown_chain. cbn [find]. fold (first_unknown_chain chains).
  destruct (has_key c CHAIN_CONFIGS) eqn:Hc; cbn [negb].
  2:{ exists []. cbn [fst snd]. rewrite app_nil_r. split; [done |].
      split; [constructor |]. split; [done | simpl; lia]. }
  apply has_key_CHAIN_CONFIGS in Hc as ->.
  rewrite (rpc_url_of_ethereum _ eq_refl).
  set (ask := SvConnect "ethereum" (infura_url getenv)).
  assert (Hgo : forall connections1 line,
    (connections1 = []
     \/ connections1 = [("ethereum", TransactionAnalyzer.__init__)]) ->
    (connections1 <> []
     <-> connections <> [] \/ line = LConnected "Ethereum Mainnet") ->
    let r := DetailedTransactionFetcher._setup_connections net getenv chains
               connections1 ((tr ++ [ask]) ++ [SvPrint line]) in
    exists evs,
      r.2 = tr ++ evs
      /\ Forall (fun p => p = ("ethereum", infura_url getenv))
           (connect_attempts evs)
      /\ match first_unknown_chain chains with
         | Some c =>
             r.1 = Raise (KeyError c)
             /\ (List.length (connect_attempts evs)
                 < S (List.length chains))%nat
         | None =>
             List.length (connect_attempts evs) = S (List.length chains)
             /\ exists connections',
                  r.1 = Ok connections'
                  /\ (connections' = []
                      \/ connections'
                         = [("ethereum", TransactionAnalyzer.__init__)])
                  /\ (connections' <> []
                      <-> connections <> []
                          \/ In (SvPrint (LConnected "Ethereum Mainnet"))
                               evs)
         end).
  { intros connections1 line H1 Hiff.
    destruct (IH connections1 ((tr ++ [ask]) ++ [SvPrint line]) H1)
      as (evs & Ht & Hf & Hres).
    exists (ask :: SvPrint line :: evs).
    split; [rewrite Ht; by rewrite <- !app_assoc |].
    split; [by constructor |].
    destruct (first_unknown_chain chains) as [c|].
    - destruct Hres as [Hr Hlen]. split; [done | simpl; lia].
    - destruct Hres as (Hlen & connections' & Hr & Hc' & Hiff').
      split; [simpl; lia |].
      exists connections'. split; [done |]. split; [done |].
      rewrite Hiff', Hiff. simpl. split.
      + intros [[H | ->] | H]; [by left | right; right; by left |].
        right. by do 2 right.
      + intros [H | [H | [H | H]]]; [left; by left | done | |].
        * injection H as ->. left. by right.
        * by right. }
  destruct (net_connect net tr "ethereum" (infura_url getenv))
    as [[|]|e].
  - apply Hgo.
    + right. by destruct Hconn as [-> | ->].
    + split; [by right |]. by destruct Hconn as [-> | ->].
  - apply Hgo; [done |]. split; [by left | by intros [H | H]].
  - apply Hgo; [done |]. split; [by left | by intros [H | H]].
Qed.

End Connections.

(** X18.  The constructor raises exactly when a selected chain is not a
    key of [CHAIN_CONFIGS]: it raises the [KeyError] of the first such
    chain.  When it returns, it has made one attempt to connect for each
    selected chain, a failed or refused attempt is not raised, and the
    fetcher
    is connected to no chain or to [ethereum] alone, with an analyzer
    whose caches are empty; it is connected exactly when the line of a
    successful connection was printed.  Every attempt goes to the
    Infura endpoint of the project id of the environment, which is
    written [None] in the URL when [INFURA_PROJECT_ID] is not set.
    Without a list of chains, or with the empty list, the chains are
    those of [CHAIN_CONFIGS] and one attempt is made. *)
Theorem constructor_connections (net : Network)
    (getenv : string -> option string) (chains : option (list string))
    (max_transactions : option Z) :
  let selected := DetailedTransactionFetcher.selected_chains_of chains in
  let r := DetailedTransactionFetcher.__init__ net getenv chains
             max_transactions in
  Forall (fun p => p = ("ethereum", infura_url getenv))
    (connect_attempts r.2)
  /\ (forall e,
        r.1 = Raise e
        <-> exists c, first_unknown_chain selected = Some c
                      /\ e = KeyError c)
  /\ (forall f,
        r.1 = Ok f ->
        fc_wallet_addresses f
        = DetailedTransactionFetcher.wallet_addresses_of_env getenv
        /\ fc_selected_chains f = selected
        /\ fc_max_transactions f = max_transactions
        /\ List.length (connect_attempts r.2) = List.length selected
        /\ (fc_connections f = []
            \/ fc_connections f
               = [("ethereum", TransactionAnalyzer.__init__)])
        /\ (fc_connections f <> []
            <-> In (SvPrint (LConnected "Ethereum Mainnet")) r.2))
  /\ (chains = None \/ chains = Some [] ->
      selected = ["ethereum"]
      /\ connect_attempts r.2 = [("ethereum", infura_url getenv)]
      /\ exists f, r.1 = Ok f)
  /\ (getenv "INFURA_PROJECT_ID" = None ->
      infura_url getenv = "https://mainnet.infura.io/v3/None").
Proof.
  intros selected r. subst r. unfold DetailedTransactionFetcher.__init__.
  fold selected.
  destruct (setup_connections_spec net getenv selected [] [] (or_introl eq_refl))
    as (evs & Ht & Hf & Hres).
  simpl in Ht.
  destruct (DetailedTransactionFetcher._setup_connections net getenv selected
              [] []) as [[connections|e] tr] eqn:E; simpl in Ht, Hres;
    subst tr; cbn [fst snd].
  - destruct (first_unknown_chain selected) as [c|] eqn:Hu;
      [by destruct Hres |].
    destruct Hres as (Hlen & connections' & [= <-] & Hc & Hiff).
    split; [done |]. split; [| split; [| split]].
    + intros e. split; [done | by intros (c & ? & _)].
    + intros f [= <-]. cbn. do 5 (split; [done |]).
      rewrite Hiff. split; [by intros [? | ?] | by right].
    + intros Hch.
      assert (Hs : selected = ["ethereum"])
        by (subst selected; by destruct Hch as [-> | ->]).
      split; [done |]. split; [| by eexists].
      rewrite Hs in Hlen. simpl in Hlen.
      destruct (connect_attempts evs) as [|p [|q l]]; try done.
      by apply Forall_cons in Hf as [-> _].
    + intros Hn. unfold infura_url. by rewrite Hn.
  - destruct (first_unknown_chain selected) as [c|] eqn:Hu.
    2:{ by destruct Hres as (_ & ? & ? & _). }
    destruct Hres as [[= ->] Hlen].
    split; [done |]. split; [| split; [| split]].
    + intros e. split.
      * intros [= <-]. by exists c.
      * by intros (c' & [= <-] & ->).
    + done.
    + intros Hch. exfalso.
      assert (Hs : selected = ["ethereum"])
        by (subst selected; by destruct Hch as [-> | ->]).
      by rewrite Hs in Hu.
    + intros Hn. unfold infura_url. by rewrite Hn.
Qed.

Lemma constructor_connections_witness :
  infura_url no_env = "https://mainnet.infura.io/v3/None"
  /\ DetailedTransactionFetcher.__init__ reachable no_env None (Some 1000)
     = (Ok {| fc_wallet_addresses := [""];
              fc_selected_chains := ["ethereum"];
              fc_max_transactions := Some 1000;
              fc_connections :=
                [("ethereum", TransactionAnalyzer.__init__)] |},
        [ SvConnect "ethereum" "https://mainnet.infura.io/v3/None";
          SvPrint (LConnected "Ethereum Mainnet") ])
  /\ (DetailedTransactionFetcher.__init__ reachable dotenv
        (Some ["ethereum"; "polygon"]) None).1
     = Raise (KeyError "polygon").
Proof.
  destruct (constructor_connections reachable no_env None (Some 1000))
    as (_ & _ & _ & _ & H).
  split; [apply H; reflexivity |].
  split; vm_compute; reflexivity.
Defined.

(** ** A wallet without a valid address *)

Lemma address_loop_invalid up max_transactions addresses c s e all st :
  Forall (fun a => up_is_address up a = false) addresses ->
  address_loop up max_transactions addresses c s e all st
  = (Completed all,
     log_events (map (fun a => EvPrint (PInvalidAddress a)) addresses) st).
Proof.
  revert st. induction addresses as [|a rest IH]; intros st Hbad.
  { simpl. f_equal. unfold log_events. destruct st. simpl.
    by rewrite app_nil_r. }
  apply Forall_cons in Hbad as [Ha Hrest]. simpl. rewrite Ha, IH by done.
  f_equal. unfold log_events, log_event. simpl. by rewrite <- app_assoc.
Qed.

Lemma chain_loop_invalid up wallet_addresses max_transactions connections
    s e all tr :
  Forall (fun a => up_is_address up a = false) wallet_addresses ->
  chain_loop up wallet_addresses max_transactions connections (Some s)
    (Some e) all tr
  = (Ok all, tr ++ invalid_lines (map fst connections) wallet_addresses).
Proof.
  intros Hbad. revert tr.
  induction connections as [|[c an] rest IH]; intros tr.
  { simpl. by rewrite app_nil_r. }
  simpl. rewrite address_loop_invalid by done. simpl.
  rewrite IH. by rewrite <- app_assoc.
Qed.

(** X19.  A fetcher built in an environment where [WALLET_ADDRESSES] is
    not set, or is empty, watches the one address [''].  When
    [web3.is_address] rejects it, as it rejects every watched address of
    a wallet without a valid one, a run over a given range asks for no
    block and no receipt, whatever the limit: it prints the line of the
    invalid address once for each address and connected chain and
    returns the empty frame. *)
Theorem run_without_valid_address (up : Upstream) (net : Network)
    (getenv : string -> option string) (chains : option (list string))
    (max_transactions : option Z) (f : FetcherObject) (s e : Z)
    (tr : list event)
    (Hnew : (DetailedTransactionFetcher.__init__ net getenv chains
               max_transactions).1 = Ok f) :
  (Forall (fun a => up_is_address up a = false) (fc_wallet_addresses f) ->
   fetch_detailed_transactions up (fc_wallet_addresses f)
     (fc_max_transactions f) (fc_connections f) (Some s) (Some e) tr
   = (Ok [],
      tr ++ invalid_lines (map fst (fc_connections f))
              (fc_wallet_addresses f)))
  /\ (wallet_value getenv = "" -> up_is_address up "" = false ->
      fc_wallet_addresses f = [""]
      /\ exists lines,
           fetch_detailed_transactions up (fc_wallet_addresses f)
             (fc_max_transactions f) (fc_connections f) (Some s) (Some e) tr
           = (Ok [], tr ++ lines)
           /\ (lines = [] \/ lines = [EvPrint (PInvalidAddress "")])).
Proof.
  split.
  { intros Hbad. by apply chain_loop_invalid. }
  intros Hv Hempty.
  unfold DetailedTransactionFetcher.__init__ in Hnew.
  destruct (setup_connections_spec net getenv
              (DetailedTransactionFetcher.selected_chains_of chains) [] []
              (or_introl eq_refl)) as (evs & _ & _ & Hres).
  destruct (DetailedTransactionFetcher._setup_connections net getenv _ [] [])
    as [[connections|err] tr0]; [| done].
  simpl in Hnew, Hres. injection Hnew as <-. cbn.
  assert (Hw : DetailedTransactionFetcher.wallet_addresses_of_env getenv
               = [""]).
  { unfold DetailedTransactionFetcher.wallet_addresses_of_env.
    fold (wallet_value getenv). by rewrite Hv. }
  rewrite Hw. split; [done |].
  unfold fetch_detailed_transactions.
  rewrite chain_loop_invalid by (by repeat constructor).
  eexists. split; [done |].
  destruct (first_unknown_chain _); [by destruct Hres |].
  destruct Hres as (_ & connections' & [= <-] & [-> | ->] & _);
    [by left | by right].
Qed.

Lemma run_without_valid_address_witness :
  exists f,
    (DetailedTransactionFetcher.__init__ reachable no_env None None).1 = Ok f
    /\ fetch_detailed_transactions offline (fc_wallet_addresses f)
         (fc_max_transactions f) (fc_connections f) (Some 1) (Some 5) []
       = (Ok [], [EvPrint (PInvalidAddress "")]).
Proof.
  eexists. split; [vm_compute; reflexivity |].
  destruct (run_without_valid_address offline reachable no_env None None _
              1 5 [] eq_refl) as [H _].
  apply H. vm_compute. by repeat constructor.
Defined.

(** ** Transfers and category of a row *)

Lemma classify_transaction_iff up c h rc st ty :
  (classify_transaction up c h rc st).1 = Ok ty ->
  (ty = "token_transfer"
   <-> exists ts, (get_token_transfers up c h st).1 = Ok ts /\ ts <> []).
Proof.
  unfold classify_transaction, bind.
  destruct (total_result _ st (total_get_token_transfers up c h))
    as [ts Hts]. rewrite Hts. cbn [fst].
  assert (Hno : forall t, In t ("unknown" :: contract_categories) ->
                          t <> "token_transfer").
  { intros t Hin ->. vm_compute in Hin. by intuition. }
  destruct ts as [|t ts]; cbn [List.length Nat.ltb Nat.leb].
  - intros Hty. split; [| by intros (ts' & [= <-] & ?)].
    intros ->. exfalso.
    destruct (Str.truthy (rc_to rc)); [| done].
    destruct (total_result _ (get_token_transfers up c h st).2
                (total_get_contract_info up c (Str.or_empty (rc_to rc))))
      as [info Hinfo].
    rewrite Hinfo in Hty.
    destruct (has_key (ci_type info) CONTRACT_TYPES) eqn:Hk; [| done].
    injection Hty as Hty.
    apply has_key_CONTRACT_TYPES in Hk as [_ Hk].
    eapply (Hno (Str.lower (ci_type info))); [by right | done].
  - intros [= <-]. split; [| done]. intros _. by eexists.
Qed.

Section Stable.

Variable up : Upstream.
Variable chain : string.
Hypothesis Hstable : stable up chain.

#[local] Instance agree_equivalence : Equivalence (agree up chain).
Proof.
  split.
  - by intros st a.
  - intros st st' H a. by rewrite H.
  - intros st1 st2 st3 H1 H2 a. by rewrite H1.
Qed.

Lemma agree_caches st st' :
  token_cache st' = token_cache st -> agree up chain st st'.
Proof. intros H a. by rewrite H. Qed.

Lemma get_token_info_answer a st :
  (_get_token_info up chain a st).1
  = Ok (token_answer up chain (token_cache st) a)
  /\ agree up chain st (_get_token_info up chain a st).2.
Proof.
  destruct Hstable as (Hsym & Hdec & _).
  unfold token_answer at 1.
  destruct (token_cache st !! a) as [info|] eqn:E.
  { rewrite (_get_token_info_hit _ _ _ _ _ E). by split. }
  rewrite (_get_token_info_miss _ _ _ _ E), lookup_token_eq.
  unfold looked_up.
  destruct (up_contract up a) as [[]|e] eqn:Ec; cbv zeta.
  2:{ split; [done |]. by apply agree_caches. }
  assert (Hins : forall info st1,
            token_cache st1 = token_cache st ->
            info = looked_up up chain a ->
            agree up chain st
              {| trace := trace st1; contract_cache := contract_cache st1;
                 token_cache := <[a := info]> (token_cache st1) |}).
  { intros info st1 Hc -> b. unfold token_answer. simpl. rewrite Hc.
    destruct (decide (a = b)) as [<- | Hne].
    - by rewrite lookup_insert_eq, E.
    - by rewrite lookup_insert_ne. }
  rewrite (Hsym (trace st) [] a).
  destruct (up_symbol up [] chain a) as [symbol|e] eqn:Es.
  2:{ split; [done |]. apply Hins; [done |].
      unfold looked_up. by rewrite Ec, Es. }
  rewrite (Hdec _ [] a).
  destruct (up_decimals up [] chain a) as [decimals|e] eqn:Ed.
  - split; [done |]. apply Hins; [done |].
    unfold looked_up. by rewrite Ec, Es, Ed.
  - split; [done |]. apply Hins; [done |].
    unfold looked_up. by rewrite Ec, Es, Ed.
Qed.

Lemma transfers_loop_keeps logs acc st :
  agree up chain st (transfers_loop up chain logs acc st).2.
Proof.
  revert acc st. induction logs as [|log logs IH]; intros acc st.
  { reflexivity. }
  simpl. destruct (is_transfer_log log); [| apply IH].
  unfold bind at 1.
  destruct (Str.int16 (log_data log)) as [v|]; [| reflexivity].
  cbn [ret fst snd]. unfold bind at 1.
  destruct (get_token_info_answer (log_address log) st) as [Hv Ha].
  destruct (_get_token_info up chain (log_address log) st) as [r st1].
  simpl in Hv, Ha. subst r.
  unfold bind at 1, lift.
  destruct (scaled_value v _) as [scaled|e]; [| exact Ha].
  etrans; [exact Ha | apply IH].
Qed.

Lemma transfers_loop_bad_literal log logs acc st :
  is_transfer_log log = true ->
  Str.int16 (log_data log) = None ->
  exists e, transfers_loop up chain (log :: logs) acc st = (Raise e, st).
Proof.
  intros Hq Hv. simpl. rewrite Hq. unfold bind at 1. rewrite Hv.
  by eexists.
Qed.

Lemma transfers_loop_agree logs acc st st' :
  agree up chain st st' ->
  (transfers_loop up chain logs acc st).1
  = (transfers_loop up chain logs acc st').1.
Proof.
  revert acc st st'. induction logs as [|log logs IH]; intros acc st st' H.
  { done. }
  destruct (is_transfer_log log) eqn:Hq.
  2:{ simpl. rewrite Hq. by apply IH. }
  destruct (Str.int16 (log_data log)) as [v|] eqn:Hv.
  2:{ simpl. rewrite Hq. unfold bind at 1 3. by rewrite Hv. }
  destruct (transfers_loop_step up chain log logs acc st v Hq Hv)
    as (info & Hinfo & ->).
  destruct (transfers_loop_step up chain log logs acc st' v Hq Hv)
    as (info' & Hinfo' & ->).
  destruct (get_token_info_answer (log_address log) st) as [Hr Ha].
  destruct (get_token_info_answer (log_address log) st') as [Hr' Ha'].
  rewrite Hr in Hinfo. rewrite Hr' in Hinfo'.
  injection Hinfo as <-. injection Hinfo' as <-.
  rewrite <- (H (log_address log)).
  destruct (scaled_value v _) as [scaled|e]; [| done].
  apply IH. etrans; [symmetry; exact Ha |].
  etrans; [exact H | exact Ha'].
Qed.

Lemma get_token_transfers_keeps h st :
  agree up chain st (get_token_transfers up chain h st).2.
Proof.
  rewrite get_token_transfers_eq. cbv zeta.
  destruct (up_get_receipt up (trace st) chain h) as [rc|e].
  - pose proof (transfers_loop_keeps (rc_logs rc) []
                  (log_event (EvGetReceipt chain h) st)) as Hk.
    destruct (transfers_loop up chain (rc_logs rc) [] _) as [[ts|e] st2];
      simpl in *.
    + etrans; [| exact Hk]. by apply agree_caches.
    + etrans; [| etrans; [exact Hk |]]; by apply agree_caches.
  - by apply agree_caches.
Qed.

Lemma get_token_transfers_agree h st st' :
  agree up chain st st' ->
  (get_token_transfers up chain h st).1
  = (get_token_transfers up chain h st').1.
Proof.
  intros H. rewrite !get_token_transfers_eq. cbv zeta.
  destruct Hstable as (_ & _ & Hrc).
  rewrite (Hrc (trace st) (trace st') h).
  destruct (up_get_receipt up (trace st') chain h) as [rc|e]; [| done].
  assert (Hl : agree up chain (log_event (EvGetReceipt chain h) st)
                 (log_event (EvGetReceipt chain h) st')).
  { intros a. apply H. }
  pose proof (transfers_loop_agree (rc_logs rc) [] _ _ Hl) as Heq.
  destruct (transfers_loop up chain (rc_logs rc) [] _) as [[ts|e] st2];
    destruct (transfers_loop up chain (rc_logs rc) [] _) as [[ts'|e'] st2'];
    simpl in Heq; by try injection Heq as ->.
Qed.

End Stable.

(** X20.  On a node whose answers about receipts and tokens do not
    depend on what was asked before, asking [get_token_transfers] again
    for the same transaction gives the same list, whatever the token
    cache holds, and so the two fields of a row agree: a row has the
    field [token_transfers] exactly when its [transaction_type] is
    [token_transfer].  Without that the two can disagree, because
    [_process_detailed_transaction] takes the transfers from one call
    and the category from another: there is a node on which a row
    carries transfers and has the type of the contract. *)
Theorem transfers_and_category_agree :
  (forall up chain, stable up chain ->
     (forall tx_hash st,
        (get_token_transfers up chain tx_hash
           (get_token_transfers up chain tx_hash st).2).1
        = (get_token_transfers up chain tx_hash st).1)
     /\ (forall tx receipt address timestamp st r st',
           _process_detailed_transaction up tx receipt chain address
             timestamp st = (Ok r, st') ->
           (td_token_transfers r <> None
            <-> td_transaction_type r = "token_transfer")))
  /\ (exists up r,
        (_process_detailed_transaction up (payment 5 0) plain_receipt
           "ethereum" watched 1700000000 empty_state).1 = Ok r
        /\ td_token_transfers r <> None
        /\ td_transaction_type r = "dex").
Proof.
  split.
  - intros up chain Hstable.
    assert (Hagain : forall tx_hash st,
              (get_token_transfers up chain tx_hash
                 (get_token_transfers up chain tx_hash st).2).1
              = (get_token_transfers up chain tx_hash st).1).
    { intros h st. symmetry.
      apply (get_token_transfers_agree up chain Hstable).
      apply (get_token_transfers_keeps up chain Hstable). }
    split; [exact Hagain |].
    intros tx receipt address timestamp st r st' Hrun.
    destruct (process_cases up tx receipt chain address timestamp st)
      as (ts & ty & s1 & s2 & Hg & Hc & _ & Hp).
    rewrite Hp in Hrun. clear Hp.
    pose proof (classify_transaction_iff up chain (tx_hash tx) receipt s1 ty
                  ltac:(by rewrite Hc)) as Hiff.
    specialize (Hagain (tx_hash tx) st). rewrite Hg in Hagain.
    simpl in Hagain. rewrite Hagain in Hiff.
    destruct (is_cex_address chain (tx_from tx)); [| done].
    destruct (cex_of_recipient chain tx); [| done].
    injection Hrun as <- _. cbn [td_token_transfers td_transaction_type].
    rewrite Hiff. split.
    + intros Hsome. exists ts. split; [done |]. by intros ->.
    + intros (ts' & [= <-] & Hne). by destruct ts.
  - exists fickle. eexists. split; [vm_compute; reflexivity |].
    split; [done | reflexivity].
Qed.

Lemma transfers_and_category_agree_witness :
  stable swapping "ethereum"
  /\ (get_token_transfers swapping "ethereum" (hash_of 1)
        (get_token_transfers swapping "ethereum" (hash_of 1)
           empty_state).2).1
     = (get_token_transfers swapping "ethereum" (hash_of 1) empty_state).1.
Proof.
  assert (H : stable swapping "ethereum") by (by repeat split).
  split; [exact H |].
  destruct transfers_and_category_agree as [Hs _].
  destruct (Hs swapping "ethereum" H) as [Hagain _].
  apply Hagain.
Defined.
